(** * Sorting visualizer: the four instrumented sort engines of app/page.tsx

    A shallow embedding of [bubbleSort], [quickSort], [mergeSort], [heapSort],
    [generateArray] and [runBenchmarks] of [src/app/page.tsx], and the
    properties of the engines' results and counters.

    Modelling conventions.
    - An [ArrayBar] object is a record; its [value] is a JS number that the
      program only ever produces as an integer ([Math.floor (...) + MIN_VALUE]),
      so [value : Z].  The counters are non-negative integers ([nat]).
    - [workingArray] is a [list ArrayBar] indexed by [Z], as the code computes
      indices ([low - 1] may be [-1]).  Reading a property of an element that
      is not there ([workingArray[k].value] with [k] outside the array) throws
      a [TypeError].  Storing outside [0 .. length-1], or storing [undefined],
      does not throw in JS (the array grows or gets a hole): the typed list
      cannot hold that, so such a step ends the run with [OutOfModel]; the
      engines never reach it (every result below is an [Ok]).
    - Objects are modelled by value.  No branch of an engine reads a visual
      flag, and the only flag written through an alias that is copied later
      ([isComparing] in [merge]) is overwritten by the copy.
    - [async]/[await] sequencing is sequencing in a state-and-failure monad;
      [sleep] is assumed to return (a pause is eventually lifted) and is
      counted, as are the frames published through [setArray].
    - Recursion ([quickSortHelper], [mergeSortHelper], [heapify]) unfolds on a
      fuel argument that each engine sets from the array length; running out
      of it is the failure [OutOfFuel], which never happens. *)

From Stdlib Require Import String ZArith Lia QArith Qround Sorted.
From stdpp Require Import base list sorting.

Open Scope Z_scope.

(** ** Data model *)

Record ArrayBar := mkBar {
  value : Z;
  isComparing : bool;
  isSorted : bool;
  isSwapping : bool }.

Record SortStats := mkStats {
  comparisons : nat;
  swaps : nat;
  timeElapsed : nat }.

(** The state an engine run works on: its private [workingArray], the
    [currentStats] object it was handed, what it has sent to the display
    ([frames]: calls of [setArray]; [naps]: calls of [sleep]), and a ghost
    counter [calls] of the invocations of the engine's inner procedure
    ([partition], [merge] or [heapify]). *)
Record SortState := mkState {
  workingArray : list ArrayBar;
  currentStats : SortStats;
  frames : nat;
  naps : nat;
  calls : nat }.

Inductive failure := TypeError | OutOfModel | OutOfFuel.

Inductive result (A : Type) :=
| Ok (a : A)
| Fail (f : failure).
Arguments Ok {A} a.
Arguments Fail {A} f.

Definition M (A : Type) : Type := SortState -> result (A * SortState).

Definition ret {A} (a : A) : M A := fun st => Ok (a, st).

Definition bind {A B} (m : M A) (k : A -> M B) : M B :=
  fun st => match m st with
            | Ok (a, st') => k a st'
            | Fail f => Fail f
            end.

Definition throw {A} (f : failure) : M A := fun _ => Fail f.

Notation "x <- m ;; k" := (bind m (fun x => k))
  (at level 100, m at next level, right associativity).
Notation "m ;; k" := (bind m (fun _ => k))
  (at level 100, right associativity).

(** [if (c) { m }] *)
Definition when_ (c : bool) (m : M unit) : M unit := if c then m else ret tt.

(** ** Array access *)

Definition len (l : list ArrayBar) : Z := Z.of_nat (length l).

(** [l[k]]: [None] is JS's [undefined]. *)
Definition get (l : list ArrayBar) (k : Z) : option ArrayBar :=
  if k <? 0 then None else l !! Z.to_nat k.

Definition put (l : list ArrayBar) (k : Z) (a : ArrayBar) : list ArrayBar :=
  <[Z.to_nat k := a]> l.

Definition inside (l : list ArrayBar) (k : Z) : bool := (0 <=? k) && (k <? len l).

(** [workingArray[k]] used as an object (a property of it is read or written). *)
Definition at_ (k : Z) : M ArrayBar :=
  fun st => match get (workingArray st) k with
            | Some a => Ok (a, st)
            | None => Fail TypeError
            end.

(** [workingArray[k] = a]. *)
Definition store (k : Z) (a : ArrayBar) : M unit :=
  fun st => if inside (workingArray st) k
            then Ok (tt, mkState (put (workingArray st) k a) (currentStats st)
                                 (frames st) (naps st) (calls st))
            else Fail OutOfModel.

(** [const temp = workingArray[i]; workingArray[i] = workingArray[j];
    workingArray[j] = temp;] *)
Definition swapCells (i j : Z) : M unit :=
  fun st => match get (workingArray st) i, get (workingArray st) j with
            | Some a, Some b =>
                Ok (tt, mkState (put (put (workingArray st) i b) j a) (currentStats st)
                                (frames st) (naps st) (calls st))
            | _, _ => Fail OutOfModel
            end.

(** [workingArray[k].flag = ...] *)
Definition modify (k : Z) (f : ArrayBar -> ArrayBar) : M unit :=
  fun st => match get (workingArray st) k with
            | Some a => Ok (tt, mkState (put (workingArray st) k (f a)) (currentStats st)
                                        (frames st) (naps st) (calls st))
            | None => Fail TypeError
            end.

Definition withComparing (b : bool) (a : ArrayBar) : ArrayBar :=
  mkBar (value a) b (isSorted a) (isSwapping a).
Definition withSorted (b : bool) (a : ArrayBar) : ArrayBar :=
  mkBar (value a) (isComparing a) b (isSwapping a).
Definition withSwapping (b : bool) (a : ArrayBar) : ArrayBar :=
  mkBar (value a) (isComparing a) (isSorted a) b.

Definition setComparing (k : Z) (b : bool) : M unit := modify k (withComparing b).
Definition setSorted (k : Z) (b : bool) : M unit := modify k (withSorted b).
Definition setSwapping (k : Z) (b : bool) : M unit := modify k (withSwapping b).

(** [currentStats.comparisons++], [currentStats.swaps++] *)
Definition incrComparisons : M unit :=
  fun st => let s := currentStats st in
            Ok (tt, mkState (workingArray st)
                            (mkStats (S (comparisons s)) (swaps s) (timeElapsed s))
                            (frames st) (naps st) (calls st)).

Definition incrSwaps : M unit :=
  fun st => let s := currentStats st in
            Ok (tt, mkState (workingArray st)
                            (mkStats (comparisons s) (S (swaps s)) (timeElapsed s))
                            (frames st) (naps st) (calls st)).

(** Ghost: one more invocation of the inner procedure. *)
Definition enter : M unit :=
  fun st => Ok (tt, mkState (workingArray st) (currentStats st)
                            (frames st) (naps st) (S (calls st))).

(** [setArray([...workingArray])]: a frame goes to the display. *)
Definition setArray : M unit :=
  fun st => Ok (tt, mkState (workingArray st) (currentStats st)
                            (S (frames st)) (naps st) (calls st)).

(** [await sleep(ms)]: the run is suspended, then resumes where it was. *)
Definition sleep (ms : Z) : M unit :=
  fun st => Ok (tt, mkState (workingArray st) (currentStats st)
                            (frames st) (S (naps st)) (calls st)).

(** [playNote(400 + workingArray[k].value * 2)]: the element is read, the
    tone itself leaves the run's state alone. *)
Definition playNoteAt (k : Z) : M unit := _ <- at_ k ;; ret tt.

(** ** Loops *)

(** [for (let j = j0; ...; j++) body], run [count] times, the body threading
    the enclosing function's local variables [s]. *)
Fixpoint forUp {S : Type} (count : nat) (j : Z) (body : Z -> S -> M S) (s : S) : M S :=
  match count with
  | O => ret s
  | Datatypes.S c => s' <- body j s ;; forUp c (j + 1) body s'
  end.

(** [for (let j = j0; ...; j--) body], run [count] times. *)
Fixpoint forDown (count : nat) (j : Z) (body : Z -> M unit) : M unit :=
  match count with
  | O => ret tt
  | Datatypes.S c => body j ;; forDown c (j - 1) body
  end.

(** [for (let j = lo; j < hi; j++) body] *)
Definition forRange {S : Type} (lo hi : Z) (body : Z -> S -> M S) (s : S) : M S :=
  forUp (Z.to_nat (hi - lo)) lo body s.

(** [workingArray.length] *)
Definition getLength : M Z := fun st => Ok (len (workingArray st), st).

Definition getArray : M (list ArrayBar) := fun st => Ok (workingArray st, st).

(** [workingArray.forEach(item => item.isSorted = true)] *)
Definition markAllSorted : M unit :=
  fun st => Ok (tt, mkState (map (withSorted true) (workingArray st)) (currentStats st)
                            (frames st) (naps st) (calls st)).

(** [if (workingArray[i]) workingArray[i].isSwapping = b] *)
Definition setSwappingIfPresent (i : Z) (b : bool) : M unit :=
  fun st => match get (workingArray st) i with
            | Some _ => setSwapping i b st
            | None => Ok (tt, st)
            end.

(** [X[k]] of a local array [X], used as an object; [f] is what happens
    when it is [undefined]. *)
Definition elem (f : failure) (X : list ArrayBar) (k : Z) : M ArrayBar :=
  fun st => match get X k with
            | Some a => Ok (a, st)
            | None => Fail f
            end.

(** [Array.prototype.slice(a, b)], with its clamping of both bounds and its
    negative bounds counted from the end. *)
Definition slice (l : list ArrayBar) (a b : Z) : list ArrayBar :=
  let rel k := if k <? 0 then Z.max (len l + k) 0 else Z.min k (len l) in
  take (Z.to_nat (rel b - rel a)) (drop (Z.to_nat (rel a)) l).

(** ** The engines

    Left out of the state: the page's own React copies of the counters
    ([updateStats]), the status line ([setCurrentStep]), [setSorting],
    [confetti] and the history log ([addToHistory]); none of them is read
    back by an engine. *)

Section Engines.

(** The session the engines close over: the slider's [speed], the sound
    toggle, and the clock reading [Date.now() - startTime] at the end of
    the run. *)
Variable speed : Z.
Variable soundEnabled : bool.
Variable elapsed : nat.

(** [currentStats.timeElapsed = Date.now() - startTime] *)
Definition stamp : M unit :=
  fun st => let s := currentStats st in
            Ok (tt, mkState (workingArray st)
                            (mkStats (comparisons s) (swaps s) elapsed)
                            (frames st) (naps st) (calls st)).

(** An engine call: [workingArray = [...arr]], the body, and the final
    state (its [workingArray] is the value returned). *)
Definition run (arr : list ArrayBar) (stats : SortStats) (body : M unit)
  : result SortState :=
  match body (mkState arr stats 0 0 0) with
  | Ok (_, st) => Ok st
  | Fail f => Fail f
  end.

(** *** Bubble sort *)

(** Body of the inner loop, lines 256-294. *)
Definition bubbleInner (isBenchmark : bool) (j : Z) (_ : unit) : M unit :=
  when_ (negb isBenchmark)
    (setComparing j true ;; setComparing (j + 1) true ;; setArray ;; sleep speed) ;;
  incrComparisons ;;
  a <- at_ j ;;
  b <- at_ (j + 1) ;;
  when_ (value a >? value b)
    (when_ (negb isBenchmark)
       (setSwapping j true ;; setSwapping (j + 1) true ;; setArray ;; sleep speed) ;;
     swapCells j (j + 1) ;;
     incrSwaps ;;
     when_ (negb isBenchmark && soundEnabled) (playNoteAt j)) ;;
  when_ (negb isBenchmark)
    (setComparing j false ;; setComparing (j + 1) false ;;
     setSwapping j false ;; setSwapping (j + 1) false ;; setArray).

(** Body of the outer loop, lines 254-296. *)
Definition bubblePass (isBenchmark : bool) (n : Z) (i : Z) (_ : unit) : M unit :=
  forRange 0 (n - i - 1) (bubbleInner isBenchmark) tt ;;
  when_ (negb isBenchmark) (setSorted (n - i - 1) true).

Definition bubbleBody (isBenchmark : bool) : M unit :=
  n <- getLength ;;
  forRange 0 (n - 1) (bubblePass isBenchmark n) tt ;;
  when_ (negb isBenchmark) (setSorted 0 true ;; setArray) ;;
  stamp.

Definition bubbleSort (arr : list ArrayBar) (stats : SortStats) (isBenchmark : bool)
  : result SortState :=
  run arr stats (bubbleBody isBenchmark).

(** *** Quick sort *)

(** Body of the loop of [partition], lines 323-361; [i] is the local
    boundary variable. *)
Definition partitionStep (isBenchmark : bool) (high pivot : Z) (j : Z) (i : Z) : M Z :=
  when_ (negb isBenchmark)
    (setComparing j true ;; setComparing high true ;; setArray ;; sleep speed) ;;
  incrComparisons ;;
  a <- at_ j ;;
  i' <- (if value a <? pivot
         then
           when_ (negb isBenchmark)
             (setSwapping (i + 1) true ;; setSwapping j true ;; setArray ;; sleep speed) ;;
           swapCells (i + 1) j ;;
           incrSwaps ;;
           when_ (negb isBenchmark && soundEnabled) (playNoteAt j) ;;
           ret (i + 1)
         else ret i) ;;
  when_ (negb isBenchmark)
    (setComparing j false ;; setComparing high false ;;
     setSwappingIfPresent i' false ;; setSwapping j false) ;;
  ret i'.

Definition partition (isBenchmark : bool) (low high : Z) : M Z :=
  enter ;;
  p <- at_ high ;;
  i <- forRange low high (partitionStep isBenchmark high (value p)) (low - 1) ;;
  swapCells (i + 1) high ;;
  incrSwaps ;;
  ret (i + 1).

Fixpoint quickSortHelper (fuel : nat) (isBenchmark : bool) (low high : Z) : M unit :=
  if low <? high then
    match fuel with
    | O => throw OutOfFuel
    | S f =>
        pi <- partition isBenchmark low high ;;
        quickSortHelper f isBenchmark low (pi - 1) ;;
        quickSortHelper f isBenchmark (pi + 1) high
    end
  else ret tt.

Definition quickBody (isBenchmark : bool) : M unit :=
  n <- getLength ;;
  quickSortHelper (Z.to_nat n) isBenchmark 0 (n - 1) ;;
  when_ (negb isBenchmark) (markAllSorted ;; setArray) ;;
  stamp.

Definition quickSort (arr : list ArrayBar) (stats : SortStats) (isBenchmark : bool)
  : result SortState :=
  run arr stats (quickBody isBenchmark).

(** *** Merge sort *)

(** The first [while] of [merge], lines 413-442.  Each turn moves [i] or
    [j] one step towards its bound, so [n1 + n2] turns of fuel are never
    used up. *)
Fixpoint mergeLoop (fuel : nat) (isBenchmark : bool) (L R : list ArrayBar)
    (n1 n2 : Z) (i j k : Z) : M (Z * Z * Z) :=
  if (i <? n1) && (j <? n2) then
    match fuel with
    | O => throw OutOfFuel
    | S f =>
        when_ (negb isBenchmark) (setComparing k true ;; setArray ;; sleep speed) ;;
        incrComparisons ;;
        a <- elem TypeError L i ;;
        b <- elem TypeError R j ;;
        ij <- (if value a <=? value b
               then store k (withComparing false a) ;; ret (i + 1, j)
               else store k (withComparing false b) ;; ret (i, j + 1)) ;;
        incrSwaps ;;
        when_ (negb isBenchmark)
          (when_ soundEnabled (playNoteAt k) ;; setArray ;; sleep speed) ;;
        mergeLoop f isBenchmark L R n1 n2 (fst ij) (snd ij) (k + 1)
    end
  else ret (i, j, k).

(** Body of the two draining [while]s, lines 444-470: [X] is [L] or [R],
    the loop variable is its cursor, [k] the write position. *)
Definition drainStep (isBenchmark : bool) (X : list ArrayBar) (i : Z) (k : Z) : M Z :=
  a <- elem OutOfModel X i ;;
  store k (withComparing false a) ;;
  incrSwaps ;;
  when_ (negb isBenchmark) (setArray ;; sleep (speed / 2)) ;;
  ret (k + 1).

Definition merge (isBenchmark : bool) (left mid right : Z) : M unit :=
  enter ;;
  let n1 := mid - left + 1 in
  let n2 := right - mid in
  wa <- getArray ;;
  let L := slice wa left (mid + 1) in
  let R := slice wa (mid + 1) (right + 1) in
  ijk <- mergeLoop (Z.to_nat (n1 + n2)) isBenchmark L R n1 n2 0 0 left ;;
  k' <- forRange (fst (fst ijk)) n1 (drainStep isBenchmark L) (snd ijk) ;;
  _ <- forRange (snd (fst ijk)) n2 (drainStep isBenchmark R) k' ;;
  ret tt.

Fixpoint mergeSortHelper (fuel : nat) (isBenchmark : bool) (left right : Z) : M unit :=
  if left <? right then
    match fuel with
    | O => throw OutOfFuel
    | S f =>
        let mid := (left + right) / 2 in
        mergeSortHelper f isBenchmark left mid ;;
        mergeSortHelper f isBenchmark (mid + 1) right ;;
        merge isBenchmark left mid right
    end
  else ret tt.

Definition mergeBody (isBenchmark : bool) : M unit :=
  n <- getLength ;;
  mergeSortHelper (Z.to_nat n) isBenchmark 0 (n - 1) ;;
  when_ (negb isBenchmark) (markAllSorted ;; setArray) ;;
  stamp.

Definition mergeSort (arr : list ArrayBar) (stats : SortStats) (isBenchmark : bool)
  : result SortState :=
  run arr stats (mergeBody isBenchmark).

(** *** Heap sort *)

(** [if (c < n && workingArray[c].value > workingArray[largest].value)
    largest = c], the test made for the left and for the right child. *)
Definition pickLarger (n c largest : Z) : M Z :=
  if c <? n
  then a <- at_ c ;; b <- at_ largest ;;
       ret (if value a >? value b then c else largest)
  else ret largest.

(** [heapify], lines 503-567; [self] is the recursive call. *)
Definition heapifyBody (self : Z -> Z -> M unit) (isBenchmark : bool) (n i : Z) : M unit :=
  enter ;;
  let left := 2 * i + 1 in
  let right := 2 * i + 2 in
  when_ (negb isBenchmark)
    (setComparing i true ;;
     when_ (left <? n) (setComparing left true) ;;
     when_ (right <? n) (setComparing right true) ;;
     setArray ;; sleep speed) ;;
  incrComparisons ;;
  largest <- pickLarger n left i ;;
  incrComparisons ;;
  largest <- pickLarger n right largest ;;
  when_ (negb (largest =? i))
    (when_ (negb isBenchmark)
       (setSwapping i true ;; setSwapping largest true ;; setArray ;; sleep speed) ;;
     swapCells i largest ;;
     incrSwaps ;;
     when_ (negb isBenchmark && soundEnabled) (playNoteAt i) ;;
     when_ (negb isBenchmark)
       (setSwapping i false ;; setSwapping largest false ;; setArray) ;;
     self n largest) ;;
  when_ (negb isBenchmark)
    (setComparing i false ;;
     when_ (left <? n) (setComparing left false) ;;
     when_ (right <? n) (setComparing right false) ;;
     setArray).

Fixpoint heapify (fuel : nat) (isBenchmark : bool) (n i : Z) : M unit :=
  heapifyBody
    (match fuel with
     | O => fun _ _ => throw OutOfFuel
     | S f => heapify f isBenchmark
     end) isBenchmark n i.

(** Body of the extraction loop, lines 576-599. *)
Definition extractStep (fuel : nat) (isBenchmark : bool) (i : Z) : M unit :=
  when_ (negb isBenchmark)
    (setSwapping 0 true ;; setSwapping i true ;; setArray ;; sleep speed) ;;
  swapCells 0 i ;;
  incrSwaps ;;
  when_ (negb isBenchmark)
    (setSorted i true ;; setSwapping 0 false ;; setSwapping i false ;;
     when_ soundEnabled (playNoteAt i) ;; setArray) ;;
  heapify fuel isBenchmark i 0.

Definition heapBody (isBenchmark : bool) : M unit :=
  n <- getLength ;;
  forDown (Z.to_nat (n / 2)) (n / 2 - 1) (heapify (Z.to_nat n) isBenchmark n) ;;
  forDown (Z.to_nat (n - 1)) (n - 1) (extractStep (Z.to_nat n) isBenchmark) ;;
  when_ (negb isBenchmark) (setSorted 0 true ;; setArray) ;;
  stamp.

Definition heapSort (arr : list ArrayBar) (stats : SortStats) (isBenchmark : bool)
  : result SortState :=
  run arr stats (heapBody isBenchmark).

End Engines.

Definition bar (v : Z) : ArrayBar := mkBar v false false false.
Definition stats0 : SortStats := mkStats 0 0 0.
Definition values (l : list ArrayBar) : list Z := map value l.

Definition summary (r : result SortState) : result (list Z * nat * nat) :=
  match r with
  | Ok st => Ok (values (workingArray st), comparisons (currentStats st), swaps (currentStats st))
  | Fail f => Fail f
  end.

(** ** Random arrays

    [Math.random()] is an oracle: [random k] is the number its [k]-th call
    returns, a rational in the model. *)

Definition ARRAY_SIZE : nat := 50.
Definition MIN_VALUE : Z := 5.
Definition MAX_VALUE : Z := 100.

(** [Math.floor(r * (max - min + 1)) + min] *)
Definition randomValue (min max : Z) (r : Q) : Z :=
  Qfloor (r * inject_Z (max - min + 1)) + min.

(** An array of [size] new bars with no flag set, the bar at index [k] made
    from the [k]-th random number: the loop of [generateArray] (lines
    160-167) and the [Array.from] of [runBenchmarks] (lines 657-664). *)
Definition freshArray (size : nat) (min max : Z) (random : nat -> Q) : list ArrayBar :=
  map (fun k => bar (randomValue min max (random k))) (seq 0 size).

(** [generateArray]: the array it hands to [setArray]. *)
Definition generateArray (random : nat -> Q) : list ArrayBar :=
  freshArray ARRAY_SIZE MIN_VALUE MAX_VALUE random.

(** ** The benchmark orchestrator *)

Module Bench.
Record BenchmarkResult := mk {
  algorithm : string;
  sizes : list nat;
  times : list nat;
  comparisons : list nat;
  swaps : list nat }.
End Bench.

Definition benchSizes : list nat := [10; 50; 100; 200; 500]%nat.
Definition benchAlgorithms : list string := ["bubble"; "quick"; "merge"; "heap"]%string.

Section Orchestrator.

(** The [try] block of one (algorithm, size) pair: [Some] of [testStats]
    as the awaited engine call left it, [None] when the call threw. *)
Variable attempt : string -> nat -> option SortStats.

(** Lines 656-691 for one size; [acc] holds [times], [comparisons] and
    [swaps] so far. *)
Definition benchPair (alg : string) (acc : list nat * list nat * list nat) (size : nat)
  : list nat * list nat * list nat :=
  match attempt alg size with
  | Some s => (acc.1.1 ++ [timeElapsed s], acc.1.2 ++ [comparisons s], acc.2 ++ [swaps s])
  | None => acc
  end.

(** Lines 652-699 for one algorithm. *)
Definition benchAlgorithm (alg : string) : Bench.BenchmarkResult :=
  let acc := fold_left (benchPair alg) benchSizes ([], [], []) in
  Bench.mk alg benchSizes acc.1.1 acc.1.2 acc.2.

Definition runBenchmarksWith : list Bench.BenchmarkResult :=
  map benchAlgorithm benchAlgorithms.

End Orchestrator.

(** The [switch (alg)] of [runBenchmarks]: the engine is run with
    [isBenchmark = true]; no [case] would leave [testStats] as it is. *)
Definition dispatch (speed : Z) (soundEnabled : bool) (elapsed : nat) (alg : string)
    (arr : list ArrayBar) (stats : SortStats) : result SortState :=
  if String.eqb alg "bubble" then bubbleSort speed soundEnabled elapsed arr stats true
  else if String.eqb alg "quick" then quickSort speed soundEnabled elapsed arr stats true
  else if String.eqb alg "merge" then mergeSort speed soundEnabled elapsed arr stats true
  else if String.eqb alg "heap" then heapSort speed soundEnabled elapsed arr stats true
  else Ok (mkState arr stats 0 0 0).

(** One pair as the program runs it: a fresh random array of the size, new
    zero statistics, the engine.  [clock alg size] is the elapsed time the
    engine reads at its end, [random alg size] the random numbers drawn for
    the pair's array. *)
Definition benchAttempt (speed : Z) (soundEnabled : bool)
    (clock : string -> nat -> nat) (random : string -> nat -> nat -> Q)
    (alg : string) (size : nat) : option SortStats :=
  match dispatch speed soundEnabled (clock alg size) alg
          (freshArray size MIN_VALUE MAX_VALUE (random alg size)) stats0 with
  | Ok st => Some (currentStats st)
  | Fail _ => None
  end.

Definition runBenchmarks (speed : Z) (soundEnabled : bool)
    (clock : string -> nat -> nat) (random : string -> nat -> nat -> Q)
  : list Bench.BenchmarkResult :=
  runBenchmarksWith (benchAttempt speed soundEnabled clock random).


Definition cmp (st : SortState) : nat := comparisons (currentStats st).
Definition swp (st : SortState) : nat := swaps (currentStats st).

(** The value held at index [k] ([0] where there is no element). *)
Definition val (l : list ArrayBar) (k : Z) : Z :=
  match get l k with
  | Some a => value a
  | None => 0
  end.

(** [l[a .. b-1]] for [0 <= a <= b <= length]. *)
Definition seg (l : list ArrayBar) (a b : Z) : list ArrayBar :=
  take (Z.to_nat (b - a)) (drop (Z.to_nat a) l).

(** ** Specification vocabulary *)

(** Values at indices [a .. b-1] are in non-decreasing order. *)
Definition sortedIn (l : list ArrayBar) (a b : Z) : Prop :=
  forall i j, a <= i -> i <= j -> j < b -> val l i <= val l j.

(** [l'] comes from [l] by exchanging cells with indices in [a .. b-1]. *)
Inductive shuffled (a b : Z) (l : list ArrayBar) : list ArrayBar -> Prop :=
| shuffled_refl : shuffled a b l l
| shuffled_swap l' i j x y :
    shuffled a b l l' ->
    a <= i < b -> a <= j < b ->
    get l' i = Some x -> get l' j = Some y ->
    shuffled a b l (put (put l' i y) j x).

(** Max-heap order at node [k] of the heap occupying indices [0 .. n-1]. *)
Definition heapAt (l : list ArrayBar) (n k : Z) : Prop :=
  (2 * k + 1 < n -> val l (2 * k + 1) <= val l k) /\
  (2 * k + 2 < n -> val l (2 * k + 2) <= val l k).

(** Total correctness of a run from [st]: it returns, and the result
    satisfies [Q]. *)
Definition wp {A} (m : M A) (st : SortState) (Q : A -> SortState -> Prop) : Prop :=
  exists a st', m st = Ok (a, st') /\ Q a st'.

(** What holds of the result of a run that returns. *)
Definition post {A} (m : M A) (st : SortState) (Q : A -> SortState -> Prop) : Prop :=
  forall a st', m st = Ok (a, st') -> Q a st'.

(** *** Invariants of the engines *)

(** Bubble sort after [i] passes: the last [i] cells are in order and
    dominate the others. *)
Definition tailOk (l : list ArrayBar) (n i : Z) : Prop :=
  sortedIn l (n - i) n /\
  forall p q, 0 <= p < n - i -> n - i <= q < n -> val l p <= val l q.

(** The index [pickLarger] returns. *)
Definition larger (l : list ArrayBar) (n c largest : Z) : Z :=
  if (c <? n) && (val l c >? val l largest) then c else largest.

(** Heap order everywhere in [lo .. n-1] except at [i], whose children do
    not exceed its parent. *)
Definition heapBut (l : list ArrayBar) (lo n i : Z) : Prop :=
  (forall k, lo <= k < n -> k <> i -> heapAt l n k) /\
  (forall p, lo <= p -> i = 2 * p + 1 \/ i = 2 * p + 2 ->
             (2 * i + 1 < n -> val l (2 * i + 1) <= val l p) /\
             (2 * i + 2 < n -> val l (2 * i + 2) <= val l p)).

(** What [heapify n i] establishes from [l]. *)
Definition heapPost (lo n i : Z) (l : list ArrayBar) (st' : SortState) : Prop :=
  shuffled i n l (workingArray st') /\
  forall k, lo <= k < n -> heapAt (workingArray st') n k.

(** Heap sort before the extraction that fills cell [i]. *)
Definition extractInv (l0 : list ArrayBar) (n i : Z) (st' : SortState) : Prop :=
  shuffled 0 n l0 (workingArray st') /\
  (forall k, 0 <= k < i + 1 -> heapAt (workingArray st') (i + 1) k) /\
  sortedIn (workingArray st') (i + 1) n /\
  (forall p q, 0 <= p <= i -> i < q < n -> val (workingArray st') p <= val (workingArray st') q).

(** The first loops of [merge], on the array [l] it was entered with:
    [k - left] cells have been written, the first [i] of [L] and the first
    [j] of [R], in order. *)
Definition mergeInv (l : list ArrayBar) (left n1 n2 : Z) (L R : list ArrayBar)
    (i j k : Z) (l' : list ArrayBar) : Prop :=
  0 <= i <= n1 /\ 0 <= j <= n2 /\ k = left + i + j /\
  len l' = len l /\
  (forall x, x < left \/ k <= x -> get l' x = get l x) /\
  sortedIn l' left k /\
  (forall x y, left <= x < k -> i <= y < n1 -> val l' x <= val L y) /\
  (forall x y, left <= x < k -> j <= y < n2 -> val l' x <= val R y) /\
  Permutation (values (seg l' left k)) (values (seg L 0 i) ++ values (seg R 0 j)).

(** What a call on [left .. right] leaves: the same length, the cells
    outside the range untouched, the range in order, the same values. *)
Definition mergedPost (l : list ArrayBar) (left right : Z) (l' : list ArrayBar) : Prop :=
  len l' = len l /\
  (forall x, x < left \/ right < x -> get l' x = get l x) /\
  sortedIn l' left (right + 1) /\
  Permutation (values l') (values l).

(** *** Comparing two runs *)

(** Two states hold the same values in the same order and the same
    counters; flags and display counters may differ. *)
Definition agree (s1 s2 : SortState) : Prop :=
  values (workingArray s1) = values (workingArray s2) /\
  currentStats s1 = currentStats s2 /\
  calls s1 = calls s2.

(** Both runs return, with the same value, in states related by [Q]. *)
Definition sim {A} (m1 m2 : M A) (s1 s2 : SortState)
    (Q : A -> SortState -> SortState -> Prop) : Prop :=
  exists a s1' s2', m1 s1 = Ok (a, s1') /\ m2 s2 = Ok (a, s2') /\ Q a s1' s2'.

(** A step that returns and changes flags and display counters only. *)
Definition quiet (m : M unit) (s : SortState) : Prop :=
  wp m s (fun _ s' => agree s' s).

(** *** Outcomes of engine calls *)

(** The call returned an array whose values are those of [arr] in
    non-decreasing order. *)
Definition sortedPermutation (r : result SortState) (arr : list ArrayBar) : Prop :=
  exists st, r = Ok st /\
             Sorted Z.le (values (workingArray st)) /\
             Permutation (values (workingArray st)) (values arr).

(** Two calls both returned, with the same values in the same order and
    the same statistics. *)
Definition modesAgree (r1 r2 : result SortState) : Prop :=
  exists s1 s2, r1 = Ok s1 /\ r2 = Ok s2 /\ agree s1 s2.

(** *** Counters and paired runs *)

(** A step that, if it returns, has changed flags and display counters only. *)
Definition silent (m : M unit) : Prop :=
  forall st u st', m st = Ok (u, st') -> agree st' st.

(** Counters of a [quickSortHelper] call on a range of [s + 1] cells. *)
Definition quickCount (s : Z) (st st' : SortState) : Prop :=
  (calls st <= calls st')%nat /\ (cmp st <= cmp st')%nat /\ (swp st <= swp st')%nat /\
  Z.of_nat (calls st') - Z.of_nat (calls st) <= Z.of_nat (swp st') - Z.of_nat (swp st) /\
  (0 < s -> (calls st < calls st')%nat) /\
  2 * (Z.of_nat (cmp st') - Z.of_nat (cmp st)) <= s * (s + 1) /\
  2 * (Z.of_nat (swp st') - Z.of_nat (swp st)) <= s * (s + 3).

(** Counters of a [heapify] call: two comparisons for each invocation, one
    exchange for each invocation but the last. *)
Definition heapCount (st st' : SortState) : Prop :=
  (calls st < calls st')%nat /\
  (cmp st' = cmp st + 2 * (calls st' - calls st))%nat /\
  (swp st' + 1 + calls st = swp st + calls st')%nat.

(** Counters of a whole heap sort of [n] cells. *)
Definition heapSortCount (n : Z) (st st' : SortState) : Prop :=
  Z.of_nat (cmp st') = Z.of_nat (cmp st) + 2 * (Z.of_nat (calls st') - Z.of_nat (calls st)) /\
  Z.of_nat (swp st') = Z.of_nat (swp st) + (Z.of_nat (calls st') - Z.of_nat (calls st)) - n / 2.

(** The state after a step both runs make: still in agreement, the array
    as long as before. *)
Definition stepped (s1 : SortState) (Q : unit -> SortState -> SortState -> Prop) : Prop :=
  forall s1' s2', agree s1' s2' -> len (workingArray s1') = len (workingArray s1) ->
                  Q tt s1' s2'.

(** What the loops keep: the two runs agree and the array has [n] cells. *)
Definition paired (n : Z) (s1 s2 : SortState) : Prop :=
  agree s1 s2 /\ len (workingArray s1) = n.

(** Both runs of the first loop of [merge] are at the same cursors. *)
Definition cursors (n left n1 n2 : Z) (ijk : Z * Z * Z) (s1 s2 : SortState) : Prop :=
  paired n s1 s2 /\
  0 <= fst (fst ijk) <= n1 /\ 0 <= snd (fst ijk) <= n2 /\
  snd ijk = left + fst (fst ijk) + snd (fst ijk).

(** The number of pairs of positions of [l] that are out of order. *)
Fixpoint inversions (l : list Z) : nat :=
  match l with
  | [] => 0
  | x :: r => (length (List.filter (fun y => (y <? x)%Z) r) + inversions r)%nat
  end.

(** The most comparisons, and the most swaps, a quick sort of [n] elements
    can count: every partition of a range of [s + 1] cells leaves one of
    [s] cells. *)
Definition quickWorstComparisons (n : Z) : Z :=
  let s := Z.max 0 (n - 1) in s * (s + 1) / 2.

Definition quickWorstSwaps (n : Z) : Z :=
  let s := Z.max 0 (n - 1) in s * (s + 3) / 2.


(** The values of the array a call returned. *)
Definition output (r : result SortState) : result (list Z) :=
  match r with
  | Ok st => Ok (values (workingArray st))
  | Fail f => Fail f
  end.

(** The number of placements a merge sort of [s] cells makes: none below
    two cells, else those of the two halves, of [s - s/2] and [s/2] cells,
    and the [s] of the merge. *)
Fixpoint mergePlacements (fuel : nat) (s : Z) : Z :=
  if s <? 2 then 0
  else match fuel with
       | O => 0
       | S f => mergePlacements f (s - s / 2) + mergePlacements f (s / 2) + s
       end.

(** Nothing was shown between two states: no frame published, no pause. *)
Definition unseen (st st' : SortState) : Prop :=
  frames st' = frames st /\ naps st' = naps st.

(** What a stretch of a run from [st] to [st'] added to a counter. *)
Definition added (counter : SortState -> nat) (st st' : SortState) : Z :=
  Z.of_nat (counter st') - Z.of_nat (counter st).

(** The pauses and the frames of an interactive stretch, counted from its
    comparisons, swaps and calls: [pn] and [pf] give the weight of each. *)
Definition tempo (pn pf : Z * Z * Z) (st st' : SortState) : Prop :=
  added naps st st'
    = pn.1.1 * added cmp st st' + pn.1.2 * added swp st st' + pn.2 * added calls st st' /\
  added frames st st'
    = pf.1.1 * added cmp st st' + pf.1.2 * added swp st st' + pf.2 * added calls st st'.

(** ** Merge sort as a list function *)

(** The order the engines sort by. *)
Definition byValue (a b : ArrayBar) : Prop := value a <= value b.

#[global] Instance byValue_dec : RelDecision byValue :=
  fun a b => Z_le_dec (value a) (value b).

(** What [merge] writes over two adjacent runs [L] and [R]: the head of [L]
    while it does not exceed the head of [R], else the head of [R], then
    what is left of either; every bar is written as a copy with
    [isComparing: false]. *)
Definition mergeRuns (L R : list ArrayBar) : list ArrayBar :=
  map (withComparing false) (list_merge byValue L R).

(** What [mergeSortHelper] makes of the cells [l] of its range: a range of
    fewer than two cells stays, a longer one is cut after its cell of index
    [(length l - 1) / 2], both parts are sorted and then merged. *)
Fixpoint sortRuns (fuel : nat) (l : list ArrayBar) : list ArrayBar :=
  match fuel with
  | O => l
  | S f =>
      if (length l <? 2)%nat then l
      else let h := S ((length l - 1) / 2) in
           mergeRuns (sortRuns f (take h l)) (sortRuns f (drop h l))
  end.

(** The bars of value [v], in their order. *)
Definition barsOf (v : Z) (l : list ArrayBar) : list ArrayBar :=
  List.filter (fun a => value a =? v) l.

(** ** Flags *)

(** A flag of the cell at index [k]; [false] where there is no cell. *)
Definition flagAt (flag : ArrayBar -> bool) (l : list ArrayBar) (k : Z) : bool :=
  match get l k with
  | Some a => flag a
  | None => false
  end.

(** [l'] has the cells of [l] repainted, with no [isComparing] and no
    [isSwapping] flag at an index where [l] had none. *)
Definition noNewFlag (flag : ArrayBar -> bool) (l l' : list ArrayBar) : Prop :=
  forall k, flagAt flag l' k = true -> flagAt flag l k = true.

(** A bar that is neither being compared nor being swapped. *)
Definition atRest (a : ArrayBar) : Prop :=
  isComparing a = false /\ isSwapping a = false.

(** ** The page around the engines *)

(** [startSorting] (lines 615-638): the run it starts on the page's array,
    with new zero statistics and [isBenchmark = false]; [None] when the
    [switch] has no [case] for [algorithm]. *)
Definition startSorting (speed : Z) (soundEnabled : bool) (elapsed : nat)
    (algorithm : string) (array : list ArrayBar) : option (result SortState) :=
  let currentStats := mkStats 0 0 0 in
  if String.eqb algorithm "bubble"
  then Some (bubbleSort speed soundEnabled elapsed array currentStats false)
  else if String.eqb algorithm "quick"
  then Some (quickSort speed soundEnabled elapsed array currentStats false)
  else if String.eqb algorithm "merge"
  then Some (mergeSort speed soundEnabled elapsed array currentStats false)
  else if String.eqb algorithm "heap"
  then Some (heapSort speed soundEnabled elapsed array currentStats false)
  else None.

(** The [value]s of the [SelectItem]s: what [algorithm] can be. *)
Definition selectItems : list string := ["bubble"; "quick"; "merge"; "heap"]%string.

(** The [backgroundColor] and the [height] (in px) of a bar, lines 851-858. *)
Definition barColor (bar : ArrayBar) : string :=
  if isComparing bar then "#FFD700"
  else if isSwapping bar then "#FF4444"
  else if isSorted bar then "#4CAF50"
  else "#3B82F6".


(** [PerformanceGraphs] (lines 705-719): the [labels] and the [datasets]
    handed to the chart.  [data[0].sizes] throws on an empty [data]; the
    colour of the dataset at [index] is [undefined] from index 4 on. *)
Record Dataset := mkDataset {
  label : string;
  data : list nat;
  borderColor : option string;
  fill : bool }.

Definition lineColors : list string :=
  ["#FF6384"; "#36A2EB"; "#FFCE56"; "#4BC0C0"]%string.

Definition chartData (data : list Bench.BenchmarkResult) : result (list nat * list Dataset) :=
  match data with
  | [] => Fail TypeError
  | first :: _ =>
      Ok (Bench.sizes first,
          imap (fun index result =>
                  mkDataset (Bench.algorithm result) (Bench.times result)
                            (lineColors !! index) false) data)
  end.

(** [{benchmarkResults.length > 0 && <PerformanceGraphs data={benchmarkResults}/>}] *)
Definition benchmarkPanel (benchmarkResults : list Bench.BenchmarkResult)
  : option (result (list nat * list Dataset)) :=
  if (0 <? length benchmarkResults)%nat then Some (chartData benchmarkResults) else None.

(** *** The history of runs *)

Module History.
Record SortHistory := mk {
  id : Z;
  algorithm : string;
  arraySize : nat;
  comparisons : nat;
  swaps : nat;
  timeElapsed : nat;
  timestamp : Z }.
End History.

(** [addToHistory] (lines 207-218): [sortHistory] with one entry more, made
    from the [stats] it is given, the page's [algorithm] and [array], and
    two readings of the clock. *)
Definition addToHistory (now date : Z) (algorithm : string) (array : list ArrayBar)
    (stats : SortStats) (sortHistory : list History.SortHistory)
  : list History.SortHistory :=
  sortHistory ++ [History.mk now algorithm (length array) (comparisons stats)
                             (swaps stats) (timeElapsed stats) date].

(** The object the two [reduce] calls build (lines 148-155 and 996-1004):
    per algorithm name a [total] and a [count], the names in the order in
    which they were first assigned.  The names are those of [selectItems],
    none of which is an index or a name the empty object inherits. *)
Record Tally := mkTally { total : nat; count : nat }.

Fixpoint lookupKey (acc : list (string * Tally)) (key : string) : option Tally :=
  match acc with
  | [] => None
  | (k, t) :: rest => if String.eqb k key then Some t else lookupKey rest key
  end.

Fixpoint assignKey (acc : list (string * Tally)) (key : string) (t : Tally)
  : list (string * Tally) :=
  match acc with
  | [] => [(key, t)]
  | (k, t') :: rest =>
      if String.eqb k key then (k, t) :: rest else (k, t') :: assignKey rest key t
  end.

(** [acc[k] = acc[k] || {total: 0, count: 0}; acc[k].total += field;
    acc[k].count += 1; return acc] *)
Definition tallyStep (field : History.SortHistory -> nat)
    (acc : list (string * Tally)) (curr : History.SortHistory) : list (string * Tally) :=
  let key := History.algorithm curr in
  let t := default (mkTally 0 0) (lookupKey acc key) in
  assignKey acc key (mkTally (total t + field curr) (count t + 1)).

Definition tallies (field : History.SortHistory -> nat)
    (sortHistory : list History.SortHistory) : list (string * Tally) :=
  fold_left (tallyStep field) sortHistory [].

Definition averageStats : list History.SortHistory -> list (string * Tally) :=
  tallies History.timeElapsed.

Definition comparisonStats : list History.SortHistory -> list (string * Tally) :=
  tallies History.comparisons.

(** The entries of one algorithm. *)
Definition runsOf (alg : string) (sortHistory : list History.SortHistory)
  : list History.SortHistory :=
  List.filter (fun e => String.eqb (History.algorithm e) alg) sortHistory.

Definition sumOf (field : History.SortHistory -> nat) (l : list History.SortHistory) : nat :=
  fold_right Nat.add 0%nat (map field l).

(** What the object holds for an algorithm with the entries [runs]. *)
Definition tallyOf (field : History.SortHistory -> nat) (runs : list History.SortHistory)
  : option Tally :=
  match runs with
  | [] => None
  | _ => Some (mkTally (sumOf field runs) (length runs))
  end.

(** ** Arrays: reading, writing, exchanging *)

Section ArrayFacts.

Implicit Types (l : list ArrayBar) (k i j : Z) (a b : ArrayBar).

Lemma get_Some_inside l k a : get l k = Some a -> 0 <= k < len l.
Proof.
  unfold get, len. destruct (Z.ltb_spec k 0) as [Hk|Hk]; [discriminate|].
  intros Hl%lookup_lt_Some. lia.
Qed.

Lemma get_inside l k : 0 <= k < len l -> exists a, get l k = Some a.
Proof.
  unfold get, len. intros Hk. destruct (Z.ltb_spec k 0) as [Hk0|Hk0]; [lia|].
  destruct (lookup_lt_is_Some_2 l (Z.to_nat k)) as [a Ha]; [lia|]. eauto.
Qed.

Lemma get_outside l k : ~ (0 <= k < len l) -> get l k = None.
Proof.
  intros Hk. destruct (get l k) as [a|] eqn:E; [|reflexivity].
  apply get_Some_inside in E. lia.
Qed.

Lemma get_val l k a : get l k = Some a -> val l k = value a.
Proof. unfold val. now intros ->. Qed.

Lemma inside_true l k : 0 <= k < len l -> inside l k = true.
Proof. unfold inside. intros. apply andb_true_intro. split; [apply Z.leb_le|apply Z.ltb_lt]; lia. Qed.

Lemma len_put l k a : len (put l k a) = len l.
Proof. unfold len, put. now rewrite length_insert. Qed.

Lemma get_put l k a k' :
  0 <= k < len l ->
  get (put l k a) k' = if k' =? k then Some a else get l k'.
Proof.
  unfold get, put, len. intros Hk.
  destruct (Z.eqb_spec k' k) as [->|Hne].
  - destruct (Z.ltb_spec k 0) as [Hk0|Hk0]; [lia|]. apply list_lookup_insert_eq. lia.
  - destruct (Z.ltb_spec k' 0) as [Hk0|Hk0]; [reflexivity|].
    apply list_lookup_insert_ne. lia.
Qed.

Lemma get_swap l i j a b k :
  get l i = Some a -> get l j = Some b ->
  get (put (put l i b) j a) k =
    if k =? j then Some a else if k =? i then Some b else get l k.
Proof.
  intros Hi Hj.
  pose proof (get_Some_inside _ _ _ Hi) as Ii.
  pose proof (get_Some_inside _ _ _ Hj) as Ij.
  rewrite get_put by (rewrite len_put; lia).
  destruct (Z.eqb_spec k j); [reflexivity|].
  now rewrite get_put by lia.
Qed.

Lemma val_swap l i j a b k :
  get l i = Some a -> get l j = Some b ->
  val (put (put l i b) j a) k =
    if k =? j then val l i else if k =? i then val l j else val l k.
Proof.
  intros Hi Hj. unfold val at 1. rewrite (get_swap _ _ _ _ _ _ Hi Hj).
  rewrite (get_val _ _ _ Hi), (get_val _ _ _ Hj).
  destruct (k =? j); [reflexivity|]. destruct (k =? i); reflexivity.
Qed.

Lemma len_swap l i j a b : len (put (put l i b) j a) = len l.
Proof. now rewrite !len_put. Qed.

Lemma swap_Permutation l i j a b :
  get l i = Some a -> get l j = Some b ->
  Permutation (put (put l i b) j a) l.
Proof.
  unfold get, put. intros Hi Hj.
  destruct (Z.ltb_spec i 0) as [Hi0|Hi0]; [discriminate|].
  destruct (Z.ltb_spec j 0) as [Hj0|Hj0]; [discriminate|].
  now apply Permutation_insert_swap.
Qed.

End ArrayFacts.

(** ** Exchanges inside a range *)

Section Shuffled.

Lemma shuffled_len a b l l' : shuffled a b l l' -> len l' = len l.
Proof. induction 1; [reflexivity|]. now rewrite len_swap. Qed.

Lemma shuffled_Permutation a b l l' : shuffled a b l l' -> Permutation l' l.
Proof.
  induction 1; [reflexivity|].
  etransitivity; [|eassumption]. now apply swap_Permutation.
Qed.

Lemma shuffled_outside a b l l' k :
  shuffled a b l l' -> k < a \/ b <= k -> get l' k = get l k.
Proof.
  induction 1 as [|l' i j x y Hs IH Hi Hj Gi Gj]; intros Hk; [reflexivity|].
  rewrite (get_swap _ _ _ _ _ _ Gi Gj).
  destruct (Z.eqb_spec k j); [lia|]. destruct (Z.eqb_spec k i); [lia|]. auto.
Qed.

Lemma shuffled_val_outside a b l l' k :
  shuffled a b l l' -> k < a \/ b <= k -> val l' k = val l k.
Proof. intros H Hk. unfold val. now rewrite (shuffled_outside _ _ _ _ _ H Hk). Qed.

(** A property of all the values of the range survives the exchanges. *)
Lemma shuffled_all (P : Z -> Prop) a b l l' :
  shuffled a b l l' ->
  (forall k, a <= k < b -> P (val l k)) ->
  forall k, a <= k < b -> P (val l' k).
Proof.
  induction 1 as [|l' i j x y Hs IH Hi Hj Gi Gj]; intros HP k Hk; [auto|].
  rewrite (val_swap _ _ _ _ _ _ Gi Gj).
  destruct (k =? j); [auto|]. destruct (k =? i); auto.
Qed.

Lemma shuffled_trans a b l1 l2 l3 :
  shuffled a b l1 l2 -> shuffled a b l2 l3 -> shuffled a b l1 l3.
Proof. intros H12 H23. induction H23; [assumption|]. now constructor. Qed.

Lemma shuffled_mono a b a' b' l l' :
  shuffled a b l l' -> a' <= a -> b <= b' -> shuffled a' b' l l'.
Proof. induction 1; intros; constructor; auto; lia. Qed.

Lemma shuffled_one a b l i j x y :
  a <= i < b -> a <= j < b -> get l i = Some x -> get l j = Some y ->
  shuffled a b l (put (put l i y) j x).
Proof. intros. constructor; auto. constructor. Qed.

End Shuffled.

Lemma val_put l k a x :
  0 <= k < len l -> val (put l k a) x = if x =? k then value a else val l x.
Proof.
  intros Hk. unfold val at 1. rewrite get_put by assumption.
  now destruct (x =? k).
Qed.

Lemma values_app (l1 l2 : list ArrayBar) : values (l1 ++ l2) = values l1 ++ values l2.
Proof. apply map_app. Qed.

Lemma values_insert_same (l : list ArrayBar) (n : nat) (a a' : ArrayBar) :
  l !! n = Some a -> value a' = value a -> map value (<[n := a']> l) = map value l.
Proof.
  revert n. induction l as [|x l IH]; intros [|n] Hl Hv; simpl in *; try discriminate.
  - inversion Hl; subst. now rewrite Hv.
  - f_equal. now apply IH.
Qed.

Lemma values_put_same l k a a' :
  get l k = Some a -> value a' = value a -> values (put l k a') = values l.
Proof.
  unfold get, put, values. destruct (k <? 0); [discriminate|]. apply values_insert_same.
Qed.

(** ** Segments *)

Section Segments.

Implicit Types (l : list ArrayBar) (a b c k : Z).

Lemma slice_seg l a b : 0 <= a <= b -> b <= len l -> slice l a b = seg l a b.
Proof.
intros Ha Hb. unfold slice, seg.
destruct (Z.ltb_spec a 0) as [?|_]; [lia|].
destruct (Z.ltb_spec b 0) as [?|_]; [lia|].
now rewrite !Z.min_l by lia.
Qed.

Lemma len_seg l a b : 0 <= a <= b -> b <= len l -> len (seg l a b) = b - a.
Proof.
unfold len, seg. intros Ha Hb. rewrite length_take, length_drop. lia.
Qed.

Lemma get_seg l a b y :
0 <= a <= b -> b <= len l -> 0 <= y < b - a -> get (seg l a b) y = get l (a + y).
Proof.
unfold get, seg, len. intros Ha Hb Hy.
destruct (Z.ltb_spec y 0) as [?|_]; [lia|].
destruct (Z.ltb_spec (a + y) 0) as [?|_]; [lia|].
rewrite lookup_take_lt by lia. rewrite lookup_drop. f_equal. lia.
Qed.

Lemma val_seg l a b y :
0 <= a <= b -> b <= len l -> 0 <= y < b - a -> val (seg l a b) y = val l (a + y).
Proof. intros. unfold val. now rewrite get_seg. Qed.

Lemma seg_empty l a : seg l a a = [].
Proof. unfold seg. now replace (Z.to_nat (a - a)) with 0%nat by lia. Qed.

Lemma seg_snoc l a k x :
0 <= a <= k -> get l k = Some x -> seg l a (k + 1) = seg l a k ++ [x].
Proof.
intros Ha Hk. pose proof (get_Some_inside _ _ _ Hk) as Ik.
unfold seg, get in *. destruct (Z.ltb_spec k 0) as [?|_]; [lia|].
replace (Z.to_nat (k + 1 - a)) with (S (Z.to_nat (k - a))) by lia.
apply take_S_r. rewrite lookup_drop. rewrite <- Hk. f_equal. lia.
Qed.

Lemma seg_put_before l a k x k' :
0 <= a <= k -> k <= k' -> seg (put l k' x) a k = seg l a k.
Proof.
intros Ha Hk. unfold seg, put.
rewrite drop_insert_ge by lia. apply take_insert_ge. lia.
Qed.

Lemma seg_app l a b c :
0 <= a <= b -> b <= c -> seg l a b ++ seg l b c = seg l a c.
Proof.
intros Ha Hb. unfold seg.
replace (drop (Z.to_nat b) l) with (drop (Z.to_nat (b - a)) (drop (Z.to_nat a) l)).
- rewrite take_take_drop. f_equal. lia.
- rewrite drop_drop. f_equal. lia.
Qed.

Lemma seg_all l : seg l 0 (len l) = l.
Proof. unfold seg, len. rewrite drop_0. apply take_ge. lia. Qed.

(** An array is its part before [a], the segment, and its part from [b]. *)
Lemma seg_split l a b :
0 <= a <= b -> b <= len l -> l = seg l 0 a ++ seg l a b ++ seg l b (len l).
Proof.
intros Ha Hb. rewrite (seg_app l a b (len l)) by lia.
rewrite seg_app by lia. now rewrite seg_all.
Qed.

Lemma seg_ext l l' a b :
0 <= a <= b -> b <= len l -> len l' = len l ->
(forall x, a <= x < b -> get l' x = get l x) ->
seg l' a b = seg l a b.
Proof.
intros Ha Hb Hlen Hx. apply list_eq. intros n.
destruct (decide (n < Z.to_nat (b - a))%nat) as [Hn|Hn].
- specialize (Hx (a + Z.of_nat n) ltac:(lia)).
  rewrite <- !(get_seg _ a b (Z.of_nat n)) in Hx by lia.
  unfold get in Hx. destruct (Z.ltb_spec (Z.of_nat n) 0) as [?|_]; [lia|].
  now rewrite Nat2Z.id in Hx.
- unfold seg. now rewrite !lookup_take_ge by lia.
Qed.

End Segments.

(** ** Reasoning about runs *)

Section Logic.

Context {A B : Type}.

Lemma wp_ret (a : A) st (Q : A -> SortState -> Prop) : Q a st -> wp (ret a) st Q.
Proof. intros. exists a, st. auto. Qed.

Lemma wp_bind (m : M A) (k : A -> M B) st (Q : B -> SortState -> Prop) :
  wp m st (fun a st' => wp (k a) st' Q) -> wp (bind m k) st Q.
Proof.
  intros (a & st' & Hm & b & st'' & Hk & HQ).
  exists b, st''. unfold bind. rewrite Hm. auto.
Qed.

Lemma wp_mono (m : M A) st (Q Q' : A -> SortState -> Prop) :
  wp m st Q -> (forall a st', Q a st' -> Q' a st') -> wp m st Q'.
Proof. intros (a & st' & Hm & HQ) HQQ. exists a, st'. auto. Qed.

Lemma wp_post (m : M A) st (Q Q' : A -> SortState -> Prop) :
  wp m st Q -> post m st Q' -> wp m st (fun a st' => Q a st' /\ Q' a st').
Proof. intros (a & st' & Hm & HQ) HP. exists a, st'. auto. Qed.

Lemma post_ret (a : A) st (Q : A -> SortState -> Prop) : Q a st -> post (ret a) st Q.
Proof. intros HQ a' st' E. now inversion E; subst. Qed.

Lemma post_bind (m : M A) (k : A -> M B) st (Q : B -> SortState -> Prop) :
  post m st (fun a st' => post (k a) st' Q) -> post (bind m k) st Q.
Proof.
  intros Hm b st'' E. unfold bind in E.
  destruct (m st) as [[a st']|f] eqn:Em; [|discriminate].
  exact (Hm a st' Em b st'' E).
Qed.

Lemma post_mono (m : M A) st (Q Q' : A -> SortState -> Prop) :
  post m st Q -> (forall a st', Q a st' -> Q' a st') -> post m st Q'.
Proof. intros Hm HQQ a st' E. auto. Qed.

End Logic.

Section Primitives.

Implicit Types (st : SortState) (Q : unit -> SortState -> Prop).

Lemma wp_when_true (m : M unit) st Q : wp m st Q -> wp (when_ true m) st Q.
Proof. auto. Qed.

Lemma wp_when_false (m : M unit) st Q : Q tt st -> wp (when_ false m) st Q.
Proof. apply wp_ret. Qed.

Lemma wp_at k st (Q : ArrayBar -> SortState -> Prop) a :
  get (workingArray st) k = Some a -> Q a st -> wp (at_ k) st Q.
Proof. intros Hg HQ. exists a, st. unfold at_. rewrite Hg. auto. Qed.

Lemma wp_elem f X k st (Q : ArrayBar -> SortState -> Prop) a :
  get X k = Some a -> Q a st -> wp (elem f X k) st Q.
Proof. intros Hg HQ. exists a, st. unfold elem. rewrite Hg. auto. Qed.

Lemma wp_store k a st Q :
  0 <= k < len (workingArray st) ->
  Q tt (mkState (put (workingArray st) k a) (currentStats st)
                (frames st) (naps st) (calls st)) ->
  wp (store k a) st Q.
Proof.
  intros Hk HQ. eexists _, _. unfold store. rewrite inside_true by assumption. eauto.
Qed.

Lemma wp_swapCells i j st Q a b :
  get (workingArray st) i = Some a -> get (workingArray st) j = Some b ->
  Q tt (mkState (put (put (workingArray st) i b) j a) (currentStats st)
                (frames st) (naps st) (calls st)) ->
  wp (swapCells i j) st Q.
Proof. intros Hi Hj HQ. eexists _, _. unfold swapCells. rewrite Hi, Hj. eauto. Qed.

Lemma wp_modify k f st Q a :
  get (workingArray st) k = Some a ->
  Q tt (mkState (put (workingArray st) k (f a)) (currentStats st)
                (frames st) (naps st) (calls st)) ->
  wp (modify k f) st Q.
Proof. intros Hk HQ. eexists _, _. unfold modify. rewrite Hk. eauto. Qed.

Lemma wp_incrComparisons st Q :
  Q tt (mkState (workingArray st)
          (mkStats (S (cmp st)) (swp st) (timeElapsed (currentStats st)))
          (frames st) (naps st) (calls st)) ->
  wp incrComparisons st Q.
Proof. intros HQ. eexists _, _. split; [reflexivity|exact HQ]. Qed.

Lemma wp_incrSwaps st Q :
  Q tt (mkState (workingArray st)
          (mkStats (cmp st) (S (swp st)) (timeElapsed (currentStats st)))
          (frames st) (naps st) (calls st)) ->
  wp incrSwaps st Q.
Proof. intros HQ. eexists _, _. split; [reflexivity|exact HQ]. Qed.

Lemma wp_enter st Q :
  Q tt (mkState (workingArray st) (currentStats st) (frames st) (naps st) (S (calls st))) ->
  wp enter st Q.
Proof. intros HQ. eexists _, _. split; [reflexivity|exact HQ]. Qed.

Lemma wp_setArray st Q :
  Q tt (mkState (workingArray st) (currentStats st) (S (frames st)) (naps st) (calls st)) ->
  wp setArray st Q.
Proof. intros HQ. eexists _, _. split; [reflexivity|exact HQ]. Qed.

Lemma wp_sleep ms st Q :
  Q tt (mkState (workingArray st) (currentStats st) (frames st) (S (naps st)) (calls st)) ->
  wp (sleep ms) st Q.
Proof. intros HQ. eexists _, _. split; [reflexivity|exact HQ]. Qed.

Lemma wp_stamp elapsed st Q :
  Q tt (mkState (workingArray st) (mkStats (cmp st) (swp st) elapsed)
                (frames st) (naps st) (calls st)) ->
  wp (stamp elapsed) st Q.
Proof. intros HQ. eexists _, _. split; [reflexivity|exact HQ]. Qed.

Lemma wp_getLength st (Q : Z -> SortState -> Prop) :
  Q (len (workingArray st)) st -> wp getLength st Q.
Proof. intros HQ. eexists _, _. split; [reflexivity|exact HQ]. Qed.

Lemma wp_getArray st (Q : list ArrayBar -> SortState -> Prop) :
  Q (workingArray st) st -> wp getArray st Q.
Proof. intros HQ. eexists _, _. split; [reflexivity|exact HQ]. Qed.

End Primitives.

Section LoopRules.

Context {S : Type}.

Lemma wp_forUp (I : Z -> S -> SortState -> Prop) (body : Z -> S -> M S) count :
  forall j s st,
    I j s st ->
    (forall j' s' st', j <= j' < j + Z.of_nat count -> I j' s' st' ->
                       wp (body j' s') st' (I (j' + 1))) ->
    wp (forUp count j body s) st (I (j + Z.of_nat count)).
Proof.
  induction count as [|c IH]; intros j s st HI Hbody; simpl forUp.
  - apply wp_ret. now replace (j + Z.of_nat 0) with j by lia.
  - apply wp_bind. eapply wp_mono; [apply Hbody; [lia|exact HI]|].
    intros s' st' HI'. simpl.
    replace (j + Z.of_nat (Datatypes.S c)) with ((j + 1) + Z.of_nat c) by lia.
    apply IH; [exact HI'|]. intros. apply Hbody; [lia|assumption].
Qed.

Lemma wp_forRange (I : Z -> S -> SortState -> Prop) (body : Z -> S -> M S) lo hi s st :
  lo <= hi ->
  I lo s st ->
  (forall j' s' st', lo <= j' < hi -> I j' s' st' -> wp (body j' s') st' (I (j' + 1))) ->
  wp (forRange lo hi body s) st (I hi).
Proof.
  intros Hle HI Hbody. unfold forRange.
  replace hi with (lo + Z.of_nat (Z.to_nat (hi - lo))) at 2 by lia.
  apply wp_forUp; [exact HI|]. intros. apply Hbody; [lia|assumption].
Qed.

Lemma post_forUp (I : Z -> S -> SortState -> Prop) (body : Z -> S -> M S) count :
  forall j s st,
    I j s st ->
    (forall j' s' st', j <= j' < j + Z.of_nat count -> I j' s' st' ->
                       post (body j' s') st' (I (j' + 1))) ->
    post (forUp count j body s) st (I (j + Z.of_nat count)).
Proof.
  induction count as [|c IH]; intros j s st HI Hbody; simpl forUp.
  - apply post_ret. now replace (j + Z.of_nat 0) with j by lia.
  - apply post_bind. eapply post_mono; [apply Hbody; [lia|exact HI]|].
    intros s' st' HI'. simpl.
    replace (j + Z.of_nat (Datatypes.S c)) with ((j + 1) + Z.of_nat c) by lia.
    apply IH; [exact HI'|]. intros. apply Hbody; [lia|assumption].
Qed.

End LoopRules.

Lemma wp_forDown (I : Z -> SortState -> Prop) (body : Z -> M unit) count :
  forall j st,
    I j st ->
    (forall j' st', j - Z.of_nat count < j' <= j -> I j' st' ->
                    wp (body j') st' (fun _ => I (j' - 1))) ->
    wp (forDown count j body) st (fun _ => I (j - Z.of_nat count)).
Proof.
  induction count as [|c IH]; intros j st HI Hbody; simpl forDown.
  - apply wp_ret. now replace (j - Z.of_nat 0) with j by lia.
  - apply wp_bind. eapply wp_mono; [apply Hbody; [lia|exact HI]|].
    intros u st' HI'. simpl.
    replace (j - Z.of_nat (S c)) with ((j - 1) - Z.of_nat c) by lia.
    apply IH; [exact HI'|]. intros. apply Hbody; [lia|assumption].
Qed.

Lemma post_forDown (I : Z -> SortState -> Prop) (body : Z -> M unit) count :
  forall j st,
    I j st ->
    (forall j' st', j - Z.of_nat count < j' <= j -> I j' st' ->
                    post (body j') st' (fun _ => I (j' - 1))) ->
    post (forDown count j body) st (fun _ => I (j - Z.of_nat count)).
Proof.
  induction count as [|c IH]; intros j st HI Hbody; simpl forDown.
  - apply post_ret. now replace (j - Z.of_nat 0) with j by lia.
  - apply post_bind. eapply post_mono; [apply Hbody; [lia|exact HI]|].
    intros u st' HI'. simpl.
    replace (j - Z.of_nat (S c)) with ((j - 1) - Z.of_nat c) by lia.
    apply IH; [exact HI'|]. intros. apply Hbody; [lia|assumption].
Qed.

Lemma wp_forRange_empty {S} (body : Z -> S -> M S) lo hi s st (Q : S -> SortState -> Prop) :
  hi <= lo -> Q s st -> wp (forRange lo hi body s) st Q.
Proof.
  intros Hle HQ. unfold forRange. replace (Z.to_nat (hi - lo)) with 0%nat by lia.
  now apply wp_ret.
Qed.

Ltac wp_step :=
  lazymatch goal with
  | |- wp (bind _ _) _ _ => apply wp_bind
  | |- wp (ret _) _ _ => apply wp_ret
  | |- wp (when_ false _) _ _ => apply wp_when_false
  | |- wp (when_ true _) _ _ => apply wp_when_true
  | |- wp incrComparisons _ _ => apply wp_incrComparisons
  | |- wp incrSwaps _ _ => apply wp_incrSwaps
  | |- wp enter _ _ => apply wp_enter
  | |- wp setArray _ _ => apply wp_setArray
  | |- wp (sleep _) _ _ => apply wp_sleep
  | |- wp (stamp _) _ _ => apply wp_stamp
  | |- wp getLength _ _ => apply wp_getLength
  | |- wp getArray _ _ => apply wp_getArray
  | |- wp (at_ _) _ _ => eapply wp_at; [cbn [workingArray]; eassumption|]
  | |- wp (elem _ _ _) _ _ => eapply wp_elem; [eassumption|]
  | |- wp (swapCells _ _) _ _ => eapply wp_swapCells; [cbn [workingArray]; eassumption|cbn [workingArray]; eassumption|]
  end.

Ltac wp_steps := cbn [negb andb workingArray]; repeat (wp_step; cbn [negb andb workingArray]).

Lemma bubbleInner_wp speed snd l0 m j st :
  0 <= j < m -> m < len l0 ->
  shuffled 0 (m + 1) l0 (workingArray st) ->
  (forall p, 0 <= p <= j -> val (workingArray st) p <= val (workingArray st) j) ->
  wp (bubbleInner speed snd true j tt) st
     (fun _ st' => shuffled 0 (m + 1) l0 (workingArray st') /\
                   forall p, 0 <= p <= j + 1 -> val (workingArray st') p <= val (workingArray st') (j + 1)).
Proof.
  intros Hj Hm Hsh Hmax.
  pose proof (shuffled_len _ _ _ _ Hsh) as Hlen.
  destruct (get_inside (workingArray st) j) as [a Ha]; [lia|].
  destruct (get_inside (workingArray st) (j + 1)) as [b Hb]; [lia|].
  unfold bubbleInner. wp_steps.
  rewrite <- (get_val _ _ _ Ha), <- (get_val _ _ _ Hb).
  destruct (Z.gtb_spec (val (workingArray st) j) (val (workingArray st) (j + 1))) as [Hgt|Hle].
  - wp_steps. split.
    + constructor; auto; lia.
    + intros p Hp. rewrite !(val_swap _ _ _ _ _ _ Ha Hb).
      rewrite Z.eqb_refl.
      destruct (Z.eqb_spec p (j + 1)); [lia|].
      destruct (Z.eqb_spec p j); [lia|].
      apply Hmax. lia.
  - wp_steps. split; [assumption|].
    intros p Hp. destruct (Z.eq_dec p (j + 1)) as [->|]; [lia|].
    specialize (Hmax p). lia.
Qed.

Lemma bubblePass_wp speed snd l0 n i st :
  len l0 = n -> 0 <= i < n - 1 ->
  shuffled 0 n l0 (workingArray st) ->
  tailOk (workingArray st) n i ->
  wp (bubblePass speed snd true n i tt) st
     (fun _ st' => shuffled 0 n l0 (workingArray st') /\ tailOk (workingArray st') n (i + 1)).
Proof.
  intros Hn Hi Hsh [Hsorted Hdom].
  pose proof (shuffled_len _ _ _ _ Hsh) as Hlen.
  unfold bubblePass. set (m := n - i - 1). wp_step.
  eapply wp_mono.
  - apply (wp_forRange
             (fun j (_ : unit) st' =>
                shuffled 0 (m + 1) (workingArray st) (workingArray st') /\
                forall p, 0 <= p <= j -> val (workingArray st') p <= val (workingArray st') j)).
    + lia.
    + split; [apply shuffled_refl|]. intros p Hp. replace p with 0 by lia. lia.
    + intros j [] st' Hj [Hsh' Hmax]. apply bubbleInner_wp; auto; lia.
  - intros [] st' [Hsh' Hmax]. cbn beta. wp_steps. split.
    + eapply shuffled_trans; [exact Hsh|]. eapply shuffled_mono; [exact Hsh'| |]; lia.
    + assert (Hout : forall q, m < q -> val (workingArray st') q = val (workingArray st) q).
      { intros q Hq. apply (shuffled_val_outside _ _ _ _ _ Hsh'). lia. }
      assert (Hpre : forall q, m < q < n -> forall p, 0 <= p < m + 1 ->
                               val (workingArray st') p <= val (workingArray st) q).
      { intros q Hq. apply (shuffled_all (fun v => v <= val (workingArray st) q) _ _ _ _ Hsh').
        intros p Hp. apply Hdom; lia. }
      split.
      * intros x y Hx Hxy Hy.
        destruct (Z.eq_dec y m) as [->|Hym].
        { replace x with m by lia. lia. }
        rewrite (Hout y) by lia.
        destruct (Z.eq_dec x m) as [->|Hxm].
        { apply Hpre; lia. }
        rewrite (Hout x) by lia. apply Hsorted; lia.
      * intros p q Hp Hq.
        destruct (Z.eq_dec q m) as [->|Hqm].
        { apply Hmax. lia. }
        rewrite (Hout q) by lia. apply Hpre; lia.
Qed.

Lemma bubbleBody_wp speed snd elapsed st :
  wp (bubbleBody speed snd elapsed true) st
     (fun _ st' => shuffled 0 (len (workingArray st)) (workingArray st) (workingArray st') /\
                   sortedIn (workingArray st') 0 (len (workingArray st'))).
Proof.
  unfold bubbleBody. wp_steps. set (n := len (workingArray st)).
  destruct (Z_le_gt_dec n 1) as [Hsmall|Hbig].
  - apply wp_forRange_empty; [lia|]. wp_steps. split; [apply shuffled_refl|].
    intros i j Hi Hij Hj. replace j with i by (fold n in Hj; lia). lia.
  - eapply wp_mono.
    + apply (wp_forRange
               (fun i (_ : unit) st' =>
                  shuffled 0 n (workingArray st) (workingArray st') /\
                  tailOk (workingArray st') n i)).
      * lia.
      * split; [apply shuffled_refl|]. split.
        { intros i j Hi Hij Hj. lia. }
        { intros p q Hp Hq. lia. }
      * intros i [] st' Hi [Hsh Htail]. apply bubblePass_wp; auto; lia.
    + intros [] st' [Hsh [Hsorted Hdom]]. cbn beta. wp_steps. split; [assumption|].
      rewrite (shuffled_len _ _ _ _ Hsh). fold n.
      intros i j Hi Hij Hj.
      destruct (Z.eq_dec i 0) as [->|Hi0].
      * destruct (Z.eq_dec j 0) as [->|Hj0]; [lia|]. apply Hdom; lia.
      * apply Hsorted; lia.
Qed.

Lemma partitionStep_wp speed snd l0 low high pivot j i st :
  0 <= low -> low <= j < high -> high < len l0 -> low - 1 <= i < j ->
  shuffled low high l0 (workingArray st) ->
  (forall k, low <= k <= i -> val (workingArray st) k < pivot) ->
  (forall k, i < k < j -> pivot <= val (workingArray st) k) ->
  wp (partitionStep speed snd true high pivot j i) st
     (fun i' st' =>
        low - 1 <= i' < j + 1 /\
        shuffled low high l0 (workingArray st') /\
        (forall k, low <= k <= i' -> val (workingArray st') k < pivot) /\
        (forall k, i' < k < j + 1 -> pivot <= val (workingArray st') k)).
Proof.
  intros Hlow Hj Hhigh Hi Hsh Hlt Hge.
  pose proof (shuffled_len _ _ _ _ Hsh) as Hlen.
  destruct (get_inside (workingArray st) j) as [a Ha]; [lia|].
  destruct (get_inside (workingArray st) (i + 1)) as [b Hb]; [lia|].
  unfold partitionStep. wp_steps.
  rewrite <- (get_val _ _ _ Ha).
  destruct (Z.ltb_spec (val (workingArray st) j) pivot) as [Hsmall|Hbig].
  - wp_steps. split; [lia|]. split; [|split].
    + constructor; auto; lia.
    + intros k Hk. rewrite (val_swap _ _ _ _ _ _ Hb Ha).
      destruct (Z.eqb_spec k j).
      * destruct (Z.eq_dec (i + 1) j) as [E|E]; [now rewrite E|].
        exfalso. lia.
      * destruct (Z.eqb_spec k (i + 1)); [assumption|]. apply Hlt. lia.
    + intros k Hk. rewrite (val_swap _ _ _ _ _ _ Hb Ha).
      destruct (Z.eqb_spec k j) as [->|].
      * apply Hge. lia.
      * destruct (Z.eqb_spec k (i + 1)); [lia|]. apply Hge. lia.
  - wp_steps. split; [lia|]. split; [assumption|]. split; [assumption|].
    intros k Hk. destruct (Z.eq_dec k j) as [->|]; [lia|]. apply Hge. lia.
Qed.

Lemma partition_wp speed snd low high st :
  0 <= low <= high -> high < len (workingArray st) ->
  wp (partition speed snd true low high) st
     (fun pi st' =>
        low <= pi <= high /\
        shuffled low (high + 1) (workingArray st) (workingArray st') /\
        (forall k, low <= k < pi -> val (workingArray st') k < val (workingArray st') pi) /\
        (forall k, pi < k <= high -> val (workingArray st') pi <= val (workingArray st') k)).
Proof.
  intros Hlow Hhigh.
  destruct (get_inside (workingArray st) high) as [p Hp]; [lia|].
  unfold partition. wp_steps.
  eapply wp_mono.
  - apply (wp_forRange
             (fun j i st' =>
                low - 1 <= i < j /\
                shuffled low high (workingArray st) (workingArray st') /\
                (forall k, low <= k <= i -> val (workingArray st') k < value p) /\
                (forall k, i < k < j -> value p <= val (workingArray st') k))).
    + lia.
    + cbn [workingArray]. split; [lia|]. split; [apply shuffled_refl|]. split; intros; lia.
    + intros j i st' Hj (Hi & Hsh & Hlt & Hge). apply (partitionStep_wp _ _ _ low); auto; lia.
  - intros i st' (Hi & Hsh & Hlt & Hge). cbn beta.
    pose proof (shuffled_len _ _ _ _ Hsh) as Hlen. cbn [workingArray] in *.
    assert (Hp' : get (workingArray st') high = Some p).
    { rewrite (shuffled_outside _ _ _ _ _ Hsh); [assumption|lia]. }
    destruct (get_inside (workingArray st') (i + 1)) as [b Hb]; [lia|].
    wp_steps. split; [lia|]. split; [|split].
    + constructor; [|lia|lia|assumption|assumption].
      eapply shuffled_mono; [exact Hsh| |]; lia.
    + intros k Hk. rewrite !(val_swap _ _ _ _ _ _ Hb Hp').
      pose proof (get_val _ _ _ Hp') as Vh.
      destruct (Z.eqb_spec k high); [lia|].
      destruct (Z.eqb_spec k (i + 1)); [lia|].
      destruct (Z.eqb_spec (i + 1) high) as [E|E].
      * rewrite E, Vh. apply Hlt. lia.
      * rewrite Z.eqb_refl, Vh. apply Hlt. lia.
    + intros k Hk. rewrite !(val_swap _ _ _ _ _ _ Hb Hp').
      pose proof (get_val _ _ _ Hp') as Vh.
      destruct (Z.eqb_spec (i + 1) high) as [E|E]; [lia|].
      rewrite Z.eqb_refl, Vh.
      destruct (Z.eqb_spec k high) as [->|].
      * apply Hge. lia.
      * destruct (Z.eqb_spec k (i + 1)); [lia|]. apply Hge. lia.
Qed.

Lemma quickSortHelper_wp speed snd fuel :
  forall low high st,
    0 <= low -> high < len (workingArray st) -> high - low <= Z.of_nat fuel ->
    wp (quickSortHelper speed snd fuel true low high) st
       (fun _ st' =>
          shuffled low (high + 1) (workingArray st) (workingArray st') /\
          sortedIn (workingArray st') low (high + 1)).
Proof.
  induction fuel as [|f IH]; intros low high st Hlow Hhigh Hfuel.
  - simpl. destruct (Z.ltb_spec low high) as [Hlt|Hge]; [lia|].
    wp_steps. split; [apply shuffled_refl|].
    intros i j Hi Hij Hj. replace j with i by lia. lia.
  - simpl. destruct (Z.ltb_spec low high) as [Hlt|Hge].
    2:{ wp_steps. split; [apply shuffled_refl|].
        intros i j Hi Hij Hj. replace j with i by lia. lia. }
    wp_step. eapply wp_mono; [apply partition_wp; lia|].
    intros pi st1 (Hpi & Hsh1 & Hlt1 & Hge1). cbn beta.
    pose proof (shuffled_len _ _ _ _ Hsh1) as Hlen1.
    wp_step. eapply wp_mono; [apply (IH low (pi - 1)); lia|].
    intros [] st2 (Hsh2 & Hsorted2). cbn beta.
    pose proof (shuffled_len _ _ _ _ Hsh2) as Hlen2.
    eapply wp_mono; [apply (IH (pi + 1) high); lia|].
    intros [] st3 (Hsh3 & Hsorted3). cbn beta.
    replace (pi - 1 + 1) with pi in * by lia.
    split.
    + eapply shuffled_trans; [exact Hsh1|].
      eapply shuffled_trans; (eapply shuffled_mono; [eassumption| |]); lia.
    + (* values around the pivot after both recursive calls *)
      assert (Hpiv2 : val (workingArray st2) pi = val (workingArray st1) pi)
        by (apply (shuffled_val_outside _ _ _ _ _ Hsh2); lia).
      assert (Hleft2 : forall k, low <= k < pi ->
                                 val (workingArray st2) k < val (workingArray st1) pi)
        by (apply (shuffled_all (fun v => v < val (workingArray st1) pi) _ _ _ _ Hsh2);
            assumption).
      assert (Hright2 : forall k, pi + 1 <= k < high + 1 ->
                                  val (workingArray st1) pi <= val (workingArray st2) k).
      { intros k Hk. rewrite (shuffled_val_outside _ _ _ _ _ Hsh2) by lia. apply Hge1. lia. }
      assert (Hright3 : forall k, pi + 1 <= k < high + 1 ->
                                  val (workingArray st1) pi <= val (workingArray st3) k)
        by (apply (shuffled_all (fun v => val (workingArray st1) pi <= v) _ _ _ _ Hsh3);
            assumption).
      assert (Hkeep3 : forall k, k <= pi -> val (workingArray st3) k = val (workingArray st2) k)
        by (intros k Hk; apply (shuffled_val_outside _ _ _ _ _ Hsh3); lia).
      intros i j Hi Hij Hj.
      destruct (Z_lt_le_dec pi i) as [Hi'|Hi'].
      * apply Hsorted3; lia.
      * rewrite (Hkeep3 i) by lia.
        destruct (Z_lt_le_dec pi j) as [Hj'|Hj'].
        { specialize (Hright3 j ltac:(lia)).
          destruct (Z.eq_dec i pi) as [->|]; [lia|].
          specialize (Hleft2 i ltac:(lia)). lia. }
        rewrite (Hkeep3 j) by lia.
        destruct (Z.eq_dec j pi) as [->|].
        { destruct (Z.eq_dec i pi) as [->|]; [lia|].
          specialize (Hleft2 i ltac:(lia)). lia. }
        apply Hsorted2; lia.
Qed.

Lemma quickBody_wp speed snd elapsed st :
  wp (quickBody speed snd elapsed true) st
     (fun _ st' => shuffled 0 (len (workingArray st)) (workingArray st) (workingArray st') /\
                   sortedIn (workingArray st') 0 (len (workingArray st'))).
Proof.
  unfold quickBody. wp_steps.
  eapply wp_mono; [apply quickSortHelper_wp; unfold len; lia|].
  intros [] st' (Hsh & Hsorted). cbn beta. wp_steps.
  replace (len (workingArray st) - 1 + 1) with (len (workingArray st)) in * by lia.
  split; [assumption|]. now rewrite (shuffled_len _ _ _ _ Hsh).
Qed.

Lemma pickLarger_wp n c largest st (Q : Z -> SortState -> Prop) :
  0 <= c -> n <= len (workingArray st) -> 0 <= largest < len (workingArray st) ->
  Q (larger (workingArray st) n c largest) st ->
  wp (pickLarger n c largest) st Q.
Proof.
  intros Hc Hn Hl HQ. unfold pickLarger, larger in *.
  destruct (Z.ltb_spec c n) as [Hlt|Hge]; cbn [andb] in HQ.
  - destruct (get_inside (workingArray st) c) as [a Ha]; [lia|].
    destruct (get_inside (workingArray st) largest) as [b Hb]; [lia|].
    wp_steps. now rewrite <- (get_val _ _ _ Ha), <- (get_val _ _ _ Hb).
  - now wp_steps.
Qed.

Lemma heapBut_done l lo n i :
  heapBut l lo n i -> heapAt l n i -> forall k, lo <= k < n -> heapAt l n k.
Proof.
  intros [Hall _] Hi k Hk. destruct (Z.eq_dec k i) as [->|]; auto.
Qed.

Lemma heapBut_sink l lo n i c a b :
  0 <= lo <= i -> c < n ->
  c = 2 * i + 1 \/ c = 2 * i + 2 ->
  heapBut l lo n i ->
  get l i = Some a -> get l c = Some b ->
  val l i < val l c ->
  (2 * i + 1 < n -> val l (2 * i + 1) <= val l c) ->
  (2 * i + 2 < n -> val l (2 * i + 2) <= val l c) ->
  heapBut (put (put l i b) c a) lo n c.
Proof.
  intros Hlo Hcn Hc [Hall Hpar] Ha Hb Hlt Hl Hr.
  assert (V : forall k, val (put (put l i b) c a) k =
                          if k =? c then val l i else if k =? i then val l c else val l k)
    by (intros; apply val_swap; assumption).
  split.
  - intros k Hk Hkc. unfold heapAt. rewrite !V.
    destruct (Z.eq_dec k i) as [->|Hki].
    + (* the node that received the larger child *)
      rewrite Z.eqb_refl.
      destruct (Z.eqb_spec i c); [lia|].
      destruct (Z.eqb_spec (2 * i + 1) i); [lia|].
      destruct (Z.eqb_spec (2 * i + 2) i); [lia|].
      destruct (Z.eqb_spec (2 * i + 1) c), (Z.eqb_spec (2 * i + 2) c); lia.
    + destruct (Z.eqb_spec k c); [lia|]. destruct (Z.eqb_spec k i); [lia|].
      destruct (Hall k Hk Hki) as [H1 H2].
      destruct (Z.eqb_spec (2 * k + 1) c); [lia|].
      destruct (Z.eqb_spec (2 * k + 2) c); [lia|].
      destruct (Z.eqb_spec (2 * k + 1) i) as [E1|E1];
        destruct (Z.eqb_spec (2 * k + 2) i) as [E2|E2]; try lia.
      * (* [k] is the parent of [i]: [i] is its left child *)
        destruct (Hpar k ltac:(lia) ltac:(lia)) as [P1 P2]. split; [|assumption].
        intros. destruct Hc as [->| ->]; [apply P1|apply P2]; lia.
      * destruct (Hpar k ltac:(lia) ltac:(lia)) as [P1 P2]. split; [assumption|].
        intros. destruct Hc as [->| ->]; [apply P1|apply P2]; lia.
  - intros p Hp Hpc. assert (p = i) as -> by lia.
    rewrite !V.
    destruct (Z.eqb_spec i c); [lia|]. rewrite Z.eqb_refl.
    destruct (Z.eqb_spec (2 * c + 1) c); [lia|].
    destruct (Z.eqb_spec (2 * c + 2) c); [lia|].
    destruct (Z.eqb_spec (2 * c + 1) i); [lia|].
    destruct (Z.eqb_spec (2 * c + 2) i); [lia|].
    apply Hall; lia.
Qed.

Lemma larger_spec l n i :
  0 <= i ->
  let lg := larger l n (2 * i + 2) (larger l n (2 * i + 1) i) in
  (lg = i \/ (lg = 2 * i + 1 /\ 2 * i + 1 < n) \/ (lg = 2 * i + 2 /\ 2 * i + 2 < n)) /\
  (lg <> i -> val l i < val l lg) /\
  (2 * i + 1 < n -> val l (2 * i + 1) <= val l lg) /\
  (2 * i + 2 < n -> val l (2 * i + 2) <= val l lg).
Proof.
  intros Hi. unfold larger.
  destruct (Z.ltb_spec (2 * i + 1) n) as [L|L]; cbn [andb].
  - destruct (Z.gtb_spec (val l (2 * i + 1)) (val l i)) as [G|G].
    + destruct (Z.ltb_spec (2 * i + 2) n) as [R|R]; cbn [andb].
      * destruct (Z.gtb_spec (val l (2 * i + 2)) (val l (2 * i + 1))); cbn zeta;
          repeat split; intros; lia.
      * cbn zeta. repeat split; intros; lia.
    + destruct (Z.ltb_spec (2 * i + 2) n) as [R|R]; cbn [andb].
      * destruct (Z.gtb_spec (val l (2 * i + 2)) (val l i)); cbn zeta;
          repeat split; intros; lia.
      * cbn zeta. repeat split; intros; lia.
  - destruct (Z.ltb_spec (2 * i + 2) n) as [R|R]; [lia|].
    cbn [andb]. cbn zeta. repeat split; intros; lia.
Qed.

Lemma heapifyBody_wp speed snd self lo n i st :
  0 <= lo <= i -> i < n <= len (workingArray st) ->
  heapBut (workingArray st) lo n i ->
  (forall c st1, i < c < n -> len (workingArray st1) = len (workingArray st) ->
                 heapBut (workingArray st1) lo n c ->
                 wp (self n c) st1 (fun _ => heapPost lo n c (workingArray st1))) ->
  wp (heapifyBody speed snd self true n i) st (fun _ => heapPost lo n i (workingArray st)).
Proof.
  intros Hlo Hn Hbut Hself.
  unfold heapifyBody. wp_steps.
  apply pickLarger_wp; cbn [workingArray]; [lia|lia|lia|]. wp_steps.
  pose proof (larger_spec (workingArray st) n i ltac:(lia)) as Hspec.
  apply pickLarger_wp; cbn [workingArray];
    [lia|lia| |].
  { unfold larger. destruct (Z.ltb_spec (2 * i + 1) n); cbn [andb];
      [destruct (_ >? _)|]; lia. }
  set (lg := larger _ n (2 * i + 2) _) in *.
  destruct Hspec as (Hwhich & Hgt & Hl & Hr).
  wp_step. destruct (Z.eqb_spec lg i) as [E|E]; cbn [negb].
  - wp_steps. split; [apply shuffled_refl|].
    apply (heapBut_done _ _ _ i); [assumption|]. rewrite E in *. split; assumption.
  - destruct (get_inside (workingArray st) i) as [a Ha]; [lia|].
    destruct (get_inside (workingArray st) lg) as [b Hb]; [lia|].
    wp_steps.
    eapply wp_mono.
    + apply Hself; cbn [workingArray]; [lia|apply len_swap|].
      apply heapBut_sink; auto; lia.
    + cbn [workingArray]. intros [] st' [Hsh Hheap]. wp_steps. split; [|assumption].
      eapply shuffled_trans; [apply shuffled_one; [| |exact Ha|exact Hb]; lia|].
      eapply shuffled_mono; [exact Hsh| |]; lia.
Qed.

Lemma heapify_wp speed snd fuel :
  forall lo n i st,
    0 <= lo <= i -> i < n <= len (workingArray st) ->
    n - i - 1 <= Z.of_nat fuel ->
    heapBut (workingArray st) lo n i ->
    wp (heapify speed snd fuel true n i) st (fun _ => heapPost lo n i (workingArray st)).
Proof.
  induction fuel as [|f IH]; intros lo n i st Hlo Hn Hfuel Hbut;
    cbn [heapify]; apply (heapifyBody_wp _ _ _ lo); auto.
  - intros c st1 Hc. lia.
  - intros c st1 Hc Hlen Hbut1. apply IH; auto; lia.
Qed.

(** The root of a heap holds a largest value. *)
Lemma heap_root_max l n :
  (forall k, 0 <= k < n -> heapAt l n k) ->
  forall k, 0 <= k < n -> val l k <= val l 0.
Proof.
  intros Hheap k Hk. destruct Hk as [Hk0 Hkn]. generalize Hk0. revert Hkn.
  pattern k. apply Z_lt_induction; [|exact Hk0].
  intros x IH Hx Hx0'. destruct (Z.eq_dec x 0) as [->|Hx0]; [lia|].
  assert (Hp : exists p, 0 <= p < x /\ (x = 2 * p + 1 \/ x = 2 * p + 2)).
  { exists ((x - 1) / 2). pose proof (Z.div_mod (x - 1) 2 ltac:(lia)).
    pose proof (Z.mod_pos_bound (x - 1) 2 ltac:(lia)). lia. }
  destruct Hp as (p & Hp & Hxp).
  specialize (IH p Hp ltac:(lia) ltac:(lia)).
  destruct (Hheap p ltac:(lia)) as [H1 H2].
  destruct Hxp as [->| ->]; [specialize (H1 Hx)|specialize (H2 Hx)]; lia.
Qed.

Lemma build_wp speed snd st :
  let n := len (workingArray st) in
  wp (forDown (Z.to_nat (n / 2)) (n / 2 - 1) (heapify speed snd (Z.to_nat n) true n)) st
     (fun _ st' => shuffled 0 n (workingArray st) (workingArray st') /\
                   forall k, 0 <= k < n -> heapAt (workingArray st') n k).
Proof.
  intros n. assert (Hn : 0 <= n) by (unfold n, len; lia).
  pose proof (Z.div_mod n 2 ltac:(lia)) as Hdiv.
  pose proof (Z.mod_pos_bound n 2 ltac:(lia)) as Hmod.
  eapply wp_mono.
  - apply (wp_forDown
             (fun i st' => shuffled 0 n (workingArray st) (workingArray st') /\
                           forall k, i < k < n -> heapAt (workingArray st') n k)).
    + split; [apply shuffled_refl|]. intros k Hk. split; intros; lia.
    + intros i st' Hi [Hsh Hheap].
      pose proof (shuffled_len _ _ _ _ Hsh) as Hlen.
      eapply wp_mono.
      * apply (heapify_wp _ _ _ i); [lia|fold n in Hlen; lia|lia|].
        split; [intros k Hk Hki; apply Hheap; lia|intros; lia].
      * intros [] st2 [Hsh2 Hheap2]. cbn beta. split.
        { eapply shuffled_trans; [exact Hsh|]. eapply shuffled_mono; [exact Hsh2| |]; lia. }
        { intros k Hk. apply Hheap2. lia. }
  - intros [] st' [Hsh Hheap]. cbn beta. split; [assumption|].
    intros k Hk. apply Hheap. lia.
Qed.

Lemma extractStep_wp speed snd l0 n i st :
  len l0 = n -> 0 < i < n ->
  extractInv l0 n i st ->
  wp (extractStep speed snd (Z.to_nat n) true i) st (fun _ => extractInv l0 n (i - 1)).
Proof.
  intros Hn Hi (Hsh & Hheap & Hsorted & Hdom).
  pose proof (shuffled_len _ _ _ _ Hsh) as Hlen.
  destruct (get_inside (workingArray st) 0) as [a Ha]; [lia|].
  destruct (get_inside (workingArray st) i) as [b Hb]; [lia|].
  pose proof (heap_root_max _ _ Hheap) as Hmax.
  unfold extractStep. wp_steps.
  set (l1 := put (put (workingArray st) 0 b) i a).
  assert (V : forall k, val l1 k =
                          if k =? i then val (workingArray st) 0
                          else if k =? 0 then val (workingArray st) i
                               else val (workingArray st) k)
    by (intros; apply val_swap; assumption).
  eapply wp_mono.
  - apply (heapify_wp _ _ _ 0); cbn [workingArray]; fold l1.
    + lia.
    + unfold l1. rewrite len_swap. lia.
    + lia.
    + split; [|intros; lia].
      intros k Hk Hk0. destruct (Hheap k ltac:(lia)) as [H1 H2].
      unfold heapAt. rewrite !V.
      destruct (Z.eqb_spec k i); [lia|]. destruct (Z.eqb_spec k 0); [lia|].
      destruct (Z.eqb_spec (2 * k + 1) 0); [lia|].
      destruct (Z.eqb_spec (2 * k + 2) 0); [lia|].
      destruct (Z.eqb_spec (2 * k + 1) i), (Z.eqb_spec (2 * k + 2) i); lia.
  - cbn [workingArray]; fold l1. intros [] st2 [Hsh2 Hheap2].
    assert (Hout : forall k, i <= k -> val (workingArray st2) k = val l1 k)
      by (intros k Hk; apply (shuffled_val_outside _ _ _ _ _ Hsh2); lia).
    assert (Hin : forall q, i <= q < n -> forall p, 0 <= p < i ->
                            val (workingArray st2) p <= val l1 q).
    { intros q Hq. apply (shuffled_all (fun v => v <= val l1 q) _ _ _ _ Hsh2).
      intros p Hp. rewrite !V.
      destruct (Z.eqb_spec p i); [lia|].
      destruct (Z.eqb_spec q i) as [->|Hqi].
      - destruct (Z.eqb_spec p 0); apply Hmax; lia.
      - destruct (Z.eqb_spec q 0); [lia|].
        destruct (Z.eqb_spec p 0); apply Hdom; lia. }
    split; [|split; [|split]].
    + eapply shuffled_trans; [exact Hsh|].
      eapply shuffled_trans; [apply shuffled_one; [| |exact Ha|exact Hb]; lia|].
      eapply shuffled_mono; [exact Hsh2| |]; lia.
    + replace (i - 1 + 1) with i by lia. assumption.
    + replace (i - 1 + 1) with i by lia.
      intros x y Hx Hxy Hy. rewrite (Hout x), (Hout y) by lia. rewrite !V.
      destruct (Z.eqb_spec y 0); [lia|]. destruct (Z.eqb_spec x 0); [lia|].
      destruct (Z.eqb_spec x i) as [->|Hxi].
      * destruct (Z.eqb_spec y i); [lia|]. apply Hdom; lia.
      * destruct (Z.eqb_spec y i); [lia|]. apply Hsorted; lia.
    + intros p q Hp Hq. rewrite (Hout q) by lia. apply Hin; lia.
Qed.

Lemma heapBody_wp speed snd elapsed st :
  wp (heapBody speed snd elapsed true) st
     (fun _ st' => shuffled 0 (len (workingArray st)) (workingArray st) (workingArray st') /\
                   sortedIn (workingArray st') 0 (len (workingArray st'))).
Proof.
  unfold heapBody. wp_steps. set (n := len (workingArray st)).
  assert (Hn : 0 <= n) by (unfold n, len; lia).
  eapply wp_mono; [apply build_wp|]. fold n.
  intros [] st1 [Hsh1 Hheap1]. cbn beta.
  pose proof (shuffled_len _ _ _ _ Hsh1) as Hlen1. fold n in Hlen1.
  wp_step. eapply wp_mono.
  - apply (wp_forDown (fun i st' => extractInv (workingArray st) n i st')).
    + split; [assumption|]. split; [|split].
      * replace (n - 1 + 1) with n by lia. assumption.
      * intros i j Hi Hij Hj. lia.
      * intros p q Hp Hq. lia.
    + intros i st' Hi Hinv. apply extractStep_wp; [reflexivity|lia|assumption].
  - intros [] st2 (Hsh2 & _ & Hsorted & Hdom). cbn beta. wp_steps.
    split; [assumption|]. rewrite (shuffled_len _ _ _ _ Hsh2). fold n.
    intros i j Hi Hij Hj.
    destruct (Z.eq_dec n 0) as [Hn0|Hn0]; [lia|].
    replace (n - 1 - Z.of_nat (Z.to_nat (n - 1))) with 0 in * by lia.
    destruct (Z.eq_dec i 0) as [->|Hi0].
    + destruct (Z.eq_dec j 0) as [->|Hj0]; [lia|]. apply Hdom; lia.
    + apply Hsorted; lia.
Qed.

Section Merging.

(** The array [l] on entry of [merge], the bounds, and the two copies. *)
Variables (l : list ArrayBar) (left n1 n2 : Z) (L R : list ArrayBar).

Hypothesis Hleft : 0 <= left.
Hypothesis Hn1 : 0 <= n1.
Hypothesis Hn2 : 0 <= n2.
Hypothesis Hfit : left + n1 + n2 <= len l.
Hypothesis HL : sortedIn L 0 n1.
Hypothesis HR : sortedIn R 0 n2.

Local Abbreviation Inv := (mergeInv l left n1 n2 L R).

Lemma mergeInv_start : Inv 0 0 left l.
Proof.
  unfold mergeInv, sortedIn. repeat split; try lia; try (intros; lia).
  now rewrite !seg_empty.
Qed.

Lemma mergeInv_left i j k l' a a' :
  Inv i j k l' -> i < n1 -> get L i = Some a -> value a' = value a ->
  (forall y, j <= y < n2 -> value a <= val R y) ->
  Inv (i + 1) j (k + 1) (put l' k a').
Proof.
  intros (Hi & Hj & Hk & Hlen & Hout & Hsorted & HbL & HbR & Hperm) Hin Ha Hv Hle.
  assert (Ik : 0 <= k < len l') by lia.
  assert (V : forall x, val (put l' k a') x = if x =? k then value a else val l' x)
    by (intros; rewrite val_put by assumption; now rewrite Hv).
  pose proof (get_val _ _ _ Ha) as Va.
  unfold mergeInv. repeat split; try lia.
  - now rewrite len_put.
  - intros x Hx. rewrite get_put by assumption.
    destruct (Z.eqb_spec x k); [lia|]. apply Hout. lia.
  - intros x y Hx Hxy Hy. rewrite !V.
    destruct (Z.eqb_spec y k) as [->|Hyk].
    + destruct (Z.eqb_spec x k); [lia|]. rewrite <- Va. apply HbL; lia.
    + destruct (Z.eqb_spec x k); [lia|]. apply Hsorted; lia.
  - intros x y Hx Hy. rewrite V. destruct (Z.eqb_spec x k).
    + rewrite <- Va. apply HL; lia.
    + apply HbL; lia.
  - intros x y Hx Hy. rewrite V. destruct (Z.eqb_spec x k).
    + apply Hle. lia.
    + apply HbR; lia.
  - rewrite (seg_snoc _ _ _ a') by (try lia; rewrite get_put, Z.eqb_refl by lia; reflexivity).
    rewrite seg_put_before by lia.
    rewrite (seg_snoc L 0 i a) by (try lia; assumption).
    rewrite !values_app, Hperm. cbn [values map]. rewrite Hv.
    rewrite <- !app_assoc. apply Permutation_app_head. apply Permutation_app_comm.
Qed.

Lemma mergeInv_right i j k l' b b' :
  Inv i j k l' -> j < n2 -> get R j = Some b -> value b' = value b ->
  (forall y, i <= y < n1 -> value b <= val L y) ->
  Inv i (j + 1) (k + 1) (put l' k b').
Proof.
  intros (Hi & Hj & Hk & Hlen & Hout & Hsorted & HbL & HbR & Hperm) Hin Hb Hv Hle.
  assert (Ik : 0 <= k < len l') by lia.
  assert (V : forall x, val (put l' k b') x = if x =? k then value b else val l' x)
    by (intros; rewrite val_put by assumption; now rewrite Hv).
  pose proof (get_val _ _ _ Hb) as Vb.
  unfold mergeInv. repeat split; try lia.
  - now rewrite len_put.
  - intros x Hx. rewrite get_put by assumption.
    destruct (Z.eqb_spec x k); [lia|]. apply Hout. lia.
  - intros x y Hx Hxy Hy. rewrite !V.
    destruct (Z.eqb_spec y k) as [->|Hyk].
    + destruct (Z.eqb_spec x k); [lia|]. rewrite <- Vb. apply HbR; lia.
    + destruct (Z.eqb_spec x k); [lia|]. apply Hsorted; lia.
  - intros x y Hx Hy. rewrite V. destruct (Z.eqb_spec x k).
    + apply Hle. lia.
    + apply HbL; lia.
  - intros x y Hx Hy. rewrite V. destruct (Z.eqb_spec x k).
    + rewrite <- Vb. apply HR; lia.
    + apply HbR; lia.
  - rewrite (seg_snoc _ _ _ b') by (try lia; rewrite get_put, Z.eqb_refl by lia; reflexivity).
    rewrite seg_put_before by lia.
    rewrite (seg_snoc R 0 j b) by (try lia; assumption).
    rewrite !values_app, Hperm. cbn [values map]. rewrite Hv.
    now rewrite <- !app_assoc.
Qed.

End Merging.

Section MergeRun.

Variables (speed : Z) (snd : bool).
Variables (l : list ArrayBar) (left n1 n2 : Z) (L R : list ArrayBar).

Hypothesis Hleft : 0 <= left.
Hypothesis Hn1 : 0 <= n1.
Hypothesis Hn2 : 0 <= n2.
Hypothesis Hfit : left + n1 + n2 <= len l.
Hypothesis HL : sortedIn L 0 n1.
Hypothesis HR : sortedIn R 0 n2.
Hypothesis HlenL : len L = n1.
Hypothesis HlenR : len R = n2.

Local Abbreviation Inv := (mergeInv l left n1 n2 L R).

Lemma mergeLoop_wp fuel :
  forall i j k st,
    Inv i j k (workingArray st) ->
    (n1 - i) + (n2 - j) <= Z.of_nat fuel ->
    wp (mergeLoop speed snd fuel true L R n1 n2 i j k) st
       (fun ijk st' =>
          Inv (fst (fst ijk)) (Datatypes.snd (fst ijk)) (Datatypes.snd ijk) (workingArray st') /\
          (fst (fst ijk) = n1 \/ Datatypes.snd (fst ijk) = n2)).
Proof.
  induction fuel as [|f IH]; intros i j k st HI Hfuel;
    pose proof HI as (Hi & Hj & Hk & Hlen & _); cbn [mergeLoop].
  - destruct (Z.ltb_spec i n1), (Z.ltb_spec j n2); cbn [andb];
      try lia; wp_steps; cbn [fst Datatypes.snd]; split; auto; lia.
  - destruct (Z.ltb_spec i n1) as [Hin|Hin], (Z.ltb_spec j n2) as [Hjn|Hjn]; cbn [andb];
      try (wp_steps; cbn [fst Datatypes.snd]; split; auto; lia).
    destruct (get_inside L i) as [a Ha]; [lia|].
    destruct (get_inside R j) as [b Hb]; [lia|].
    pose proof (get_val _ _ _ Ha) as Va. pose proof (get_val _ _ _ Hb) as Vb.
    wp_steps.
    destruct (Z.leb_spec (value a) (value b)) as [Hle|Hgt].
    + wp_step. eapply wp_store; [cbn [workingArray]; lia|]. wp_steps.
      cbn [fst Datatypes.snd]. apply IH; cbn [workingArray]; [|lia].
      apply (mergeInv_left l left n1 n2 L R Hleft Hfit HL) with (a := a); auto.
      intros y Hy. specialize (HR j y). lia.
    + wp_step. eapply wp_store; [cbn [workingArray]; lia|]. wp_steps.
      cbn [fst Datatypes.snd]. apply IH; cbn [workingArray]; [|lia].
      apply (mergeInv_right l left n1 n2 L R Hleft Hfit HR) with (b := b); auto.
      intros y Hy. specialize (HL i y). lia.
Qed.

Lemma drainLeft_wp i k st :
  Inv i n2 k (workingArray st) ->
  wp (forRange i n1 (drainStep speed true L) k) st
     (fun k' st' => Inv n1 n2 k' (workingArray st')).
Proof.
  intros HI. pose proof HI as (Hi & _).
  apply (wp_forRange (fun i' k' st' => Inv i' n2 k' (workingArray st'))); [lia|assumption|].
  intros i' k' st' Hi' HI'. pose proof HI' as (_ & _ & Hk & Hlen & _).
  destruct (get_inside L i') as [a Ha]; [lia|].
  unfold drainStep. wp_steps. eapply wp_store; [cbn [workingArray]; lia|]. wp_steps.
  apply (mergeInv_left l left n1 n2 L R Hleft Hfit HL) with (a := a); auto; [lia|].
  intros; lia.
Qed.

Lemma drainRight_wp j k st :
  Inv n1 j k (workingArray st) ->
  wp (forRange j n2 (drainStep speed true R) k) st
     (fun k' st' => Inv n1 n2 k' (workingArray st')).
Proof.
  intros HI. pose proof HI as (_ & Hj & _).
  apply (wp_forRange (fun j' k' st' => Inv n1 j' k' (workingArray st'))); [lia|assumption|].
  intros j' k' st' Hj' HI'. pose proof HI' as (_ & _ & Hk & Hlen & _).
  destruct (get_inside R j') as [b Hb]; [lia|].
  unfold drainStep. wp_steps. eapply wp_store; [cbn [workingArray]; lia|]. wp_steps.
  apply (mergeInv_right l left n1 n2 L R Hleft Hfit HR) with (b := b); auto; [lia|].
  intros; lia.
Qed.

End MergeRun.

Lemma sortedIn_seg l a b :
  0 <= a <= b -> b <= len l -> sortedIn l a b -> sortedIn (seg l a b) 0 (b - a).
Proof.
  intros Ha Hb Hs i j Hi Hij Hj. rewrite !val_seg by lia. apply Hs; lia.
Qed.

Lemma mergeInv_finish l left mid right k l' :
  0 <= left <= mid -> mid < right < len l ->
  mergeInv l left (mid - left + 1) (right - mid)
           (seg l left (mid + 1)) (seg l (mid + 1) (right + 1))
           (mid - left + 1) (right - mid) k l' ->
  mergedPost l left right l'.
Proof.
  intros Hleft Hright (_ & _ & Hk & Hlen & Hout & Hsorted & _ & _ & Hperm).
  replace k with (right + 1) in * by lia.
  split; [assumption|]. split; [|split; [assumption|]].
  - intros x Hx. apply Hout. lia.
  - replace (mid - left + 1) with (len (seg l left (mid + 1))) in Hperm
      by (rewrite len_seg; lia).
    replace (right - mid) with (len (seg l (mid + 1) (right + 1))) in Hperm
      by (rewrite len_seg; lia).
    rewrite !seg_all, <- values_app, seg_app in Hperm by lia.
    rewrite (seg_split l left (right + 1)) by lia.
    rewrite (seg_split l' left (right + 1)) by lia.
    rewrite !values_app, Hperm, Hlen.
    rewrite (seg_ext l l' 0 left) by (try lia; intros; apply Hout; lia).
    rewrite (seg_ext l l' (right + 1) (len l)) by (try lia; intros; apply Hout; lia).
    reflexivity.
Qed.

Lemma merge_wp speed snd left mid right st :
  0 <= left <= mid -> mid < right < len (workingArray st) ->
  sortedIn (workingArray st) left (mid + 1) ->
  sortedIn (workingArray st) (mid + 1) (right + 1) ->
  wp (merge speed snd true left mid right) st
     (fun _ st' => mergedPost (workingArray st) left right (workingArray st')).
Proof.
  intros Hleft Hright HsL HsR. set (l := workingArray st) in *.
  unfold merge. wp_steps. fold l.
  rewrite !slice_seg by lia.
  set (L := seg l left (mid + 1)). set (R := seg l (mid + 1) (right + 1)).
  set (n1 := mid - left + 1). set (n2 := right - mid).
  assert (HlenL : len L = n1) by (unfold L; rewrite len_seg; lia).
  assert (HlenR : len R = n2) by (unfold R; rewrite len_seg; lia).
  assert (HL : sortedIn L 0 n1).
  { replace n1 with (mid + 1 - left) by lia. apply sortedIn_seg; auto; lia. }
  assert (HR : sortedIn R 0 n2).
  { replace n2 with (right + 1 - (mid + 1)) by lia. apply sortedIn_seg; auto; lia. }
  assert (Hfit : left + n1 + n2 <= len l) by lia.
  eapply wp_mono.
  - apply (mergeLoop_wp speed snd l left n1 n2 L R); auto; try lia.
    cbn [workingArray]. apply mergeInv_start; lia.
  - intros [[i j] k] st1 [HI Hend]. cbn [fst Datatypes.snd] in *.
    pose proof HI as (Hi & Hj & _).
    wp_step.
    apply (wp_mono _ _ (fun k1 st2 => mergeInv l left n1 n2 L R n1 j k1 (workingArray st2))).
    + destruct Hend as [->| ->].
      * apply wp_forRange_empty; [lia|exact HI].
      * apply (drainLeft_wp speed l left n1 n2 L R); auto; lia.
    + intros k1 st2 HI2. wp_step. eapply wp_mono;
        [apply (drainRight_wp speed l left n1 n2 L R); auto; lia|].
      intros k2 st3 HI3. cbn beta. wp_steps.
      apply (mergeInv_finish l left mid right k2); auto.
Qed.

Lemma mergeSortHelper_wp speed snd fuel :
  forall left right st,
    0 <= left -> right < len (workingArray st) -> right - left <= Z.of_nat fuel ->
    wp (mergeSortHelper speed snd fuel true left right) st
       (fun _ st' => mergedPost (workingArray st) left right (workingArray st')).
Proof.
  assert (Hbase : forall left right st, right <= left ->
            wp (ret tt) st (fun _ st' => mergedPost (workingArray st) left right (workingArray st'))).
  { intros left right st Hle. apply wp_ret. repeat split; auto.
    intros i j Hi Hij Hj. replace j with i by lia. lia. }
  induction fuel as [|f IH]; intros left right st Hleft Hright Hfuel; cbn [mergeSortHelper].
  - destruct (Z.ltb_spec left right); [lia|]. now apply Hbase.
  - destruct (Z.ltb_spec left right) as [Hlt|Hge]; [|now apply Hbase].
    set (mid := (left + right) / 2).
    assert (Hmid : left <= mid < right).
    { unfold mid. pose proof (Z.div_mod (left + right) 2 ltac:(lia)).
      pose proof (Z.mod_pos_bound (left + right) 2 ltac:(lia)). lia. }
    cbn zeta. wp_step. eapply wp_mono; [apply (IH left mid); lia|].
    intros [] st1 (Hlen1 & Hout1 & Hs1 & Hp1). cbn beta.
    wp_step. eapply wp_mono; [apply (IH (mid + 1) right); lia|].
    intros [] st2 (Hlen2 & Hout2 & Hs2 & Hp2). cbn beta.
    eapply wp_mono.
    + apply merge_wp; try lia; [|assumption].
      intros i j Hi Hij Hj. unfold val. rewrite !Hout2 by lia. apply Hs1; lia.
    + intros [] st3 (Hlen3 & Hout3 & Hs3 & Hp3). cbn beta. repeat split.
      * lia.
      * intros x Hx. rewrite Hout3, Hout2, Hout1 by lia. reflexivity.
      * assumption.
      * now rewrite Hp3, Hp2.
Qed.

Lemma mergeBody_wp speed snd elapsed st :
  wp (mergeBody speed snd elapsed true) st
     (fun _ st' => Permutation (values (workingArray st')) (values (workingArray st)) /\
                   sortedIn (workingArray st') 0 (len (workingArray st'))).
Proof.
  unfold mergeBody. wp_steps.
  eapply wp_mono; [apply mergeSortHelper_wp; unfold len; lia|].
  intros [] st' (Hlen & _ & Hsorted & Hperm). cbn beta. wp_steps.
  split; [assumption|]. rewrite Hlen.
  now replace (len (workingArray st) - 1 + 1) with (len (workingArray st)) in Hsorted by lia.
Qed.

(** ** What a run that returns has done to the counters *)

Section PostRules.

Implicit Types (st : SortState) (Q : unit -> SortState -> Prop).

Lemma post_when c (m : M unit) st Q :
  (c = true -> post m st Q) -> (c = false -> Q tt st) -> post (when_ c m) st Q.
Proof. destruct c; intros Ht Hf; [apply Ht|apply post_ret, Hf]; reflexivity. Qed.

Lemma post_throw {A} f st (Q : A -> SortState -> Prop) : post (throw f) st Q.
Proof. intros a st' E. discriminate. Qed.

Lemma post_at k st (Q : ArrayBar -> SortState -> Prop) :
  (forall a, get (workingArray st) k = Some a -> Q a st) -> post (at_ k) st Q.
Proof.
  intros HQ a st' E. unfold at_ in E.
  destruct (get (workingArray st) k) as [x|] eqn:G; inversion E; subst. auto.
Qed.

Lemma post_elem f X k st (Q : ArrayBar -> SortState -> Prop) :
  (forall a, get X k = Some a -> Q a st) -> post (elem f X k) st Q.
Proof.
  intros HQ a st' E. unfold elem in E.
  destruct (get X k) as [x|] eqn:G; inversion E; subst. auto.
Qed.

Lemma post_store k a st Q :
  (0 <= k < len (workingArray st) ->
   Q tt (mkState (put (workingArray st) k a) (currentStats st)
                 (frames st) (naps st) (calls st))) ->
  post (store k a) st Q.
Proof.
  intros HQ u st' E. unfold store, inside in E.
  destruct (Z.leb_spec 0 k), (Z.ltb_spec k (len (workingArray st)));
    cbn [andb] in E; inversion E; subst. apply HQ. lia.
Qed.

Lemma post_swapCells i j st Q :
  (forall a b, get (workingArray st) i = Some a -> get (workingArray st) j = Some b ->
               Q tt (mkState (put (put (workingArray st) i b) j a) (currentStats st)
                             (frames st) (naps st) (calls st))) ->
  post (swapCells i j) st Q.
Proof.
  intros HQ u st' E. unfold swapCells in E.
  destruct (get (workingArray st) i) as [a|] eqn:Gi; [|discriminate].
  destruct (get (workingArray st) j) as [b|] eqn:Gj; [|discriminate].
  inversion E; subst. auto.
Qed.

Lemma post_modify k f st Q :
  (forall a, get (workingArray st) k = Some a ->
             Q tt (mkState (put (workingArray st) k (f a)) (currentStats st)
                           (frames st) (naps st) (calls st))) ->
  post (modify k f) st Q.
Proof.
  intros HQ u st' E. unfold modify in E.
  destruct (get (workingArray st) k) as [a|] eqn:G; inversion E; subst.
  auto.
Qed.

Lemma post_setSwappingIfPresent i b st Q :
  (forall a, get (workingArray st) i = Some a ->
             Q tt (mkState (put (workingArray st) i (withSwapping b a)) (currentStats st)
                           (frames st) (naps st) (calls st))) ->
  (get (workingArray st) i = None -> Q tt st) ->
  post (setSwappingIfPresent i b) st Q.
Proof.
  intros HS HN u st' E. unfold setSwappingIfPresent in E.
  destruct (get (workingArray st) i) as [a|] eqn:G.
  - revert u st' E. apply post_modify. intros a' Ha'. rewrite G in Ha'.
    inversion Ha'; subst. auto.
  - inversion E; subst. auto.
Qed.

Lemma post_total {A} (m : M A) st (Q : A -> SortState -> Prop) a st' :
  m st = Ok (a, st') -> Q a st' -> post m st Q.
Proof. intros E HQ a' st'' E'. rewrite E in E'. now inversion E'; subst. Qed.

Lemma post_pickLarger n c largest st (Q : Z -> SortState -> Prop) :
  (forall lg, lg = largest \/ (lg = c /\ c < n) -> Q lg st) ->
  post (pickLarger n c largest) st Q.
Proof.
  intros HQ. unfold pickLarger. destruct (Z.ltb_spec c n) as [Hc|Hc].
  - apply post_bind, post_at. intros a _. apply post_bind, post_at. intros b _.
    apply post_ret. apply HQ. destruct (value a >? value b); auto.
  - apply post_ret. auto.
Qed.

End PostRules.

Section Silent.

Implicit Types (m : M unit).

Lemma silent_ret : silent (ret tt).
Proof. intros st u st' E. inversion E; subst. repeat split. Qed.

Lemma silent_seq m (k : M unit) : silent m -> silent k -> silent (m ;; k).
Proof.
  intros Hm Hk st u st' E. unfold bind in E.
  destruct (m st) as [[u1 st1]|] eqn:E1; [|discriminate].
  destruct (Hm _ _ _ E1) as (A & B & C), (Hk _ _ _ E) as (A' & B' & C').
  repeat split; congruence.
Qed.

Lemma silent_when c m : silent m -> silent (when_ c m).
Proof. destruct c; [auto|intros _; apply silent_ret]. Qed.

Lemma silent_modify k f : (forall a, value (f a) = value a) -> silent (modify k f).
Proof.
  intros Hf st. apply post_modify. intros a Ha. repeat split.
  cbn [workingArray]. now apply values_put_same with (a := a).
Qed.

Lemma silent_setArray : silent setArray.
Proof. intros st u st' E. inversion E; subst. repeat split. Qed.

Lemma silent_sleep ms : silent (sleep ms).
Proof. intros st u st' E. inversion E; subst. repeat split. Qed.

Lemma silent_playNoteAt k : silent (playNoteAt k).
Proof.
  intros st. unfold playNoteAt. apply post_bind, post_at. intros a _.
  apply post_ret. repeat split.
Qed.

Lemma silent_setSwappingIfPresent i b : silent (setSwappingIfPresent i b).
Proof.
  intros st. apply post_setSwappingIfPresent.
  - intros a Ha. repeat split. cbn [workingArray]. now apply values_put_same with (a := a).
  - intros _. repeat split.
Qed.

Lemma silent_markAllSorted : silent markAllSorted.
Proof.
  intros st u st' E. inversion E; subst. repeat split. cbn [workingArray].
  unfold values. now rewrite map_map.
Qed.

Lemma post_silent_bind {A} m (k : M A) st (Q : A -> SortState -> Prop) :
  silent m -> (forall st', agree st' st -> post k st' Q) -> post (m ;; k) st Q.
Proof.
  intros Hm Hk. apply post_bind. intros u st' E. apply Hk. exact (Hm _ _ _ E).
Qed.

Lemma post_silent_end m st (Q : unit -> SortState -> Prop) :
  silent m -> (forall st', agree st' st -> Q tt st') -> post m st Q.
Proof. intros Hm HQ [] st' E. apply HQ. exact (Hm _ _ _ E). Qed.

End Silent.

Ltac silent_tac :=
  lazymatch goal with
  | |- silent (ret tt) => apply silent_ret
  | |- silent (bind _ _) => apply silent_seq; silent_tac
  | |- silent (when_ _ _) => apply silent_when; silent_tac
  | |- silent (setComparing _ _) => apply silent_modify; reflexivity
  | |- silent (setSorted _ _) => apply silent_modify; reflexivity
  | |- silent (setSwapping _ _) => apply silent_modify; reflexivity
  | |- silent setArray => apply silent_setArray
  | |- silent (sleep _) => apply silent_sleep
  | |- silent (playNoteAt _) => apply silent_playNoteAt
  | |- silent (setSwappingIfPresent _ _) => apply silent_setSwappingIfPresent
  | |- silent markAllSorted => apply silent_markAllSorted
  end.

Ltac post_step :=
  lazymatch goal with
  | |- post (bind (when_ _ _) _) _ _ =>
      first [ apply post_silent_bind; [solve [silent_tac]|intros ? ?]
            | apply post_bind ]
  | |- post (bind _ _) _ _ => apply post_bind
  | |- post (ret _) _ _ => apply post_ret
  | |- post (throw _) _ _ => apply post_throw
  | |- post (when_ true _) _ _ => unfold when_ at 1
  | |- post (when_ false _) _ _ => apply post_ret
  | |- post (when_ ?c _) _ _ =>
      first [ apply post_silent_end; [solve [silent_tac]|intros ? ?]
            | apply post_when; intros ? ]
  | |- post incrComparisons _ _ => eapply post_total; [reflexivity|]
  | |- post incrSwaps _ _ => eapply post_total; [reflexivity|]
  | |- post enter _ _ => eapply post_total; [reflexivity|]
  | |- post setArray _ _ => eapply post_total; [reflexivity|]
  | |- post (sleep _) _ _ => eapply post_total; [reflexivity|]
  | |- post (stamp _) _ _ => eapply post_total; [reflexivity|]
  | |- post getLength _ _ => eapply post_total; [reflexivity|]
  | |- post getArray _ _ => eapply post_total; [reflexivity|]
  | |- post markAllSorted _ _ => eapply post_total; [reflexivity|]
  | |- post (at_ _) _ _ => apply post_at; intros ? ?
  | |- post (playNoteAt _) _ _ => unfold playNoteAt
  | |- post (elem _ _ _) _ _ => apply post_elem; intros ? ?
  | |- post (store _ _) _ _ => apply post_store; intros ?
  | |- post (swapCells _ _) _ _ => apply post_swapCells; intros ? ? ? ?
  | |- post (modify _ _) _ _ => apply post_modify; intros ? ?
  | |- post (setComparing _ _) _ _ => apply post_modify; intros ? ?
  | |- post (setSorted _ _) _ _ => apply post_modify; intros ? ?
  | |- post (setSwapping _ _) _ _ => apply post_modify; intros ? ?
  | |- post (setSwappingIfPresent _ _) _ _ => apply post_setSwappingIfPresent; [intros ? ?|intros ?]
  | |- post (pickLarger _ _ _) _ _ => apply post_pickLarger; intros ? ?
  end.

Ltac post_steps :=
  cbn [negb andb workingArray currentStats frames naps calls];
  repeat (post_step; cbn [negb andb workingArray currentStats frames naps calls]).

Ltac counters :=
  repeat match goal with
         | H : agree _ _ |- _ =>
             let E1 := fresh "Ev" in
             let E2 := fresh "Es" in
             let E3 := fresh "Ec" in
             destruct H as (E1 & E2 & E3)
         end;
  unfold cmp, swp in *;
  cbn [calls currentStats comparisons swaps workingArray] in *;
  repeat match goal with
         | H : currentStats ?a = _ |- _ => is_var a; rewrite H in *; clear H
         | H : calls ?a = _ |- _ => is_var a; rewrite H in *; clear H
         end;
  cbn [calls currentStats comparisons swaps workingArray] in *.

Lemma partitionStep_count speed snd b high pivot j i st :
  post (partitionStep speed snd b high pivot j i) st
       (fun i' st' =>
          calls st' = calls st /\ cmp st' = S (cmp st) /\
          ((i' = i /\ swp st' = swp st) \/ (i' = i + 1 /\ swp st' = S (swp st)))).
Proof.
  unfold partitionStep. post_steps.
  all: match goal with |- post (if ?c then _ else _) _ _ => destruct c end.
  all: post_steps; counters; auto.
Qed.

Lemma partition_count speed snd b low high st :
  low <= high ->
  post (partition speed snd b low high) st
       (fun pi st' =>
          low <= pi <= high /\
          calls st' = S (calls st) /\
          Z.of_nat (cmp st') = Z.of_nat (cmp st) + (high - low) /\
          Z.of_nat (swp st) + 1 <= Z.of_nat (swp st') <= Z.of_nat (swp st) + 1 + (high - low)).
Proof.
  intros Hle. unfold partition. post_steps. counters.
  eapply post_mono.
  - unfold forRange.
    apply (post_forUp
             (fun j i st' =>
                low - 1 <= i < j /\
                calls st' = S (calls st) /\
                Z.of_nat (cmp st') = Z.of_nat (cmp st) + (j - low) /\
                Z.of_nat (swp st) <= Z.of_nat (swp st') <= Z.of_nat (swp st) + (j - low))).
    + counters. lia.
    + intros j i st' Hj (Hi & Hc & Hcmp & Hswp).
      eapply post_mono; [apply partitionStep_count|].
      cbn beta. intros i' st2 (Hc2 & Hcmp2 & Hcase). lia.
  - cbn beta. intros i st' (Hi & Hc & Hcmp & Hswp).
    post_steps. counters. lia.
Qed.

Lemma quickSortHelper_count speed snd b fuel :
  forall low high st,
    post (quickSortHelper speed snd fuel b low high) st
         (fun _ st' => quickCount (Z.max 0 (high - low)) st st').
Proof.
  assert (Hbase : forall low high st, high <= low ->
            post (ret tt) st (fun _ st' => quickCount (Z.max 0 (high - low)) st st')).
  { intros low high st Hle. apply post_ret. unfold quickCount.
    replace (Z.max 0 (high - low)) with 0 by lia. lia. }
  induction fuel as [|f IH]; intros low high st; cbn [quickSortHelper].
  - destruct (Z.ltb_spec low high); [apply post_throw|now apply Hbase].
  - destruct (Z.ltb_spec low high) as [Hlt|Hge]; [|now apply Hbase].
    post_step. eapply post_mono; [apply partition_count; lia|].
    cbn beta. intros pi st1 (Hpi & Hc1 & Hcmp1 & Hswp1).
    post_step. eapply post_mono; [apply IH|].
    cbn beta. intros [] st2 H2.
    eapply post_mono; [apply IH|].
    cbn beta. intros [] st3 H3.
    unfold quickCount in *.
    replace (Z.max 0 (high - low)) with (high - low) by lia.
    set (s1 := Z.max 0 (pi - 1 - low)) in *. set (s2 := Z.max 0 (high - (pi + 1))) in *.
    assert (Hs : 0 <= s1 /\ 0 <= s2 /\ s1 + s2 <= high - low - 1) by lia.
    destruct H2 as (A2 & B2 & C2 & D2 & _ & F2 & G2).
    destruct H3 as (A3 & B3 & C3 & D3 & _ & F3 & G3).
    repeat split; try lia; nia.
Qed.

Lemma heapifyBody_count speed snd self b n i st :
  (forall c st1, post (self n c) st1 (fun _ => heapCount st1)) ->
  post (heapifyBody speed snd self b n i) st
       (fun _ st' => heapCount st st' /\
                     (n <= 2 * i + 1 -> calls st' = S (calls st) /\
                                        values (workingArray st') = values (workingArray st))).
Proof.
  intros Hself. unfold heapifyBody. post_steps.
  - (* an exchange, then the recursive call *)
    eapply post_mono; [apply Hself|]. cbn beta. intros [] st2 (A & B & C).
    post_steps. unfold heapCount in *. counters.
    split; [lia|]. intros Hleaf. exfalso.
    match goal with H : negb (?x =? i) = true |- _ =>
      destruct (Z.eqb_spec x i); [discriminate|] end. lia.
  - (* the node stays *)
    post_steps. unfold heapCount. counters.
    split; [lia|]. intros _. split; [lia|congruence].
Qed.

Lemma heapify_count speed snd b fuel :
  forall n i st,
    post (heapify speed snd fuel b n i) st
         (fun _ st' => heapCount st st' /\
                       (n <= 2 * i + 1 -> calls st' = S (calls st) /\
                                          values (workingArray st') = values (workingArray st))).
Proof.
  induction fuel as [|f IH]; intros n i st; cbn [heapify]; apply heapifyBody_count.
  - intros c st1. apply post_throw.
  - intros c st1. eapply post_mono; [apply IH|]. cbn beta. intros [] st2 [H _]. exact H.
Qed.

Lemma heapBody_count speed snd elapsed b st :
  post (heapBody speed snd elapsed b) st
       (fun _ st' => heapSortCount (len (workingArray st)) st st').
Proof.
  unfold heapBody. post_steps. set (n := len (workingArray st)).
  assert (Hn : 0 <= n) by (unfold n, len; lia).
  pose proof (Z.div_mod n 2 ltac:(lia)) as Hdiv.
  pose proof (Z.mod_pos_bound n 2 ltac:(lia)) as Hmod.
  eapply post_mono.
  { apply (post_forDown
             (fun j st' =>
                Z.of_nat (cmp st') = Z.of_nat (cmp st) + 2 * (Z.of_nat (calls st') - Z.of_nat (calls st)) /\
                Z.of_nat (swp st') = Z.of_nat (swp st) + (Z.of_nat (calls st') - Z.of_nat (calls st))
                                     - (n / 2 - 1 - j))).
    - lia.
    - intros j st' Hj [Hc Hs]. eapply post_mono; [apply heapify_count|].
      cbn beta. intros [] st2 [(A & B & C) _]. lia. }
  cbn beta. intros [] st1 [Hc1 Hs1].
  replace (n / 2 - 1 - (n / 2 - 1 - Z.of_nat (Z.to_nat (n / 2)))) with (n / 2) in Hs1 by lia.
  post_step. eapply post_mono.
  { apply (post_forDown (fun (j : Z) st' => heapSortCount n st st')).
    - split; assumption.
    - intros j st' Hj [Hc Hs]. unfold extractStep. post_steps. counters.
      all: eapply post_mono; [apply heapify_count|]; cbn beta;
        intros [] st2 [(A & B & C) _]; unfold heapSortCount; counters; lia. }
  cbn beta. intros [] st2 [Hc2 Hs2]. post_steps.
  all: unfold heapSortCount; counters; split; assumption.
Qed.

Lemma drainStep_count speed b X i k st :
  post (drainStep speed b X i k) st
       (fun k' st' => k' = k + 1 /\ cmp st' = cmp st /\ swp st' = S (swp st) /\
                      calls st' = calls st).
Proof. unfold drainStep. post_steps. all: counters; auto. Qed.

Lemma drain_count speed b X i n k st :
  post (forRange i n (drainStep speed b X) k) st
       (fun k' st' => cmp st' = cmp st /\ calls st' = calls st /\
                      swp st' = (swp st + Z.to_nat (n - i))%nat /\
                      k' = k + Z.of_nat (Z.to_nat (n - i))).
Proof.
  unfold forRange. eapply post_mono.
  - apply (post_forUp
             (fun j k' st' => cmp st' = cmp st /\ calls st' = calls st /\
                              swp st' = (swp st + Z.to_nat (j - i))%nat /\
                              k' = k + (j - i))).
    + replace (i - i) with 0 by lia. cbn. repeat split; lia.
    + intros j k' st' Hj (Hc & Hcl & Hs & Hk).
      eapply post_mono; [apply drainStep_count|]. cbn beta.
      intros k2 st2 (Hk2 & Hc2 & Hs2 & Hcl2). repeat split; lia.
  - cbn beta. intros k' st' (Hc & Hcl & Hs & Hk). repeat split; lia.
Qed.

Lemma mergeLoop_count speed snd b L R n1 n2 fuel :
  forall i j k st,
    post (mergeLoop speed snd fuel b L R n1 n2 i j k) st
         (fun ijk st' =>
            let placed := (fst (fst ijk) - i) + (Datatypes.snd (fst ijk) - j) in
            i <= fst (fst ijk) /\ j <= Datatypes.snd (fst ijk) /\
            Datatypes.snd ijk = k + placed /\
            calls st' = calls st /\
            Z.of_nat (cmp st') = Z.of_nat (cmp st) + placed /\
            Z.of_nat (swp st') = Z.of_nat (swp st) + placed).
Proof.
  induction fuel as [|f IH]; intros i j k st; cbn [mergeLoop];
    destruct ((i <? n1) && (j <? n2)).
  1: apply post_throw.
  1, 3: apply post_ret; cbn [fst Datatypes.snd]; lia.
  post_steps.
  all: match goal with |- post (if ?c then _ else _) _ _ => destruct c end.
  all: post_steps; cbn [fst Datatypes.snd].
  all: (eapply post_mono; [apply IH|]); cbn beta zeta;
    intros [[i' j'] k'] stz; cbn [fst Datatypes.snd]; counters; lia.
Qed.

(** *** Bubble sort: comparisons *)

Lemma bubbleInner_count speed snd b j st :
  post (bubbleInner speed snd b j tt) st
       (fun _ st' => cmp st' = S (cmp st) /\ (swp st <= swp st' <= S (swp st))%nat).
Proof.
  unfold bubbleInner. post_steps.
  all: counters; lia.
Qed.

Lemma bubblePass_count speed snd b n i st :
  post (bubblePass speed snd b n i tt) st
       (fun _ st' => Z.of_nat (cmp st') = Z.of_nat (cmp st) + Z.max 0 (n - i - 1) /\
                     (swp st <= swp st')%nat).
Proof.
  unfold bubblePass. post_step. unfold forRange. eapply post_mono.
  - apply (post_forUp
             (fun j (_ : unit) st' =>
                Z.of_nat (cmp st') = Z.of_nat (cmp st) + j /\ (swp st <= swp st')%nat)).
    + lia.
    + intros j [] st' Hj [Hc Hs]. eapply post_mono; [apply bubbleInner_count|].
      cbn beta. intros [] st2 [Hc2 Hs2]. lia.
  - cbn beta. intros [] st' [Hc Hs]. post_steps. counters. lia.
Qed.

Lemma bubbleBody_count speed snd elapsed b st :
  post (bubbleBody speed snd elapsed b) st
       (fun _ st' =>
          let n := len (workingArray st) in
          2 * (Z.of_nat (cmp st') - Z.of_nat (cmp st)) = n * (n - 1) /\
          (swp st <= swp st')%nat).
Proof.
  unfold bubbleBody. post_steps. set (n := len (workingArray st)).
  assert (Hn : 0 <= n) by (unfold n, len; lia).
  unfold forRange. eapply post_mono.
  - apply (post_forUp
             (fun i (_ : unit) st' =>
                2 * (Z.of_nat (cmp st') - Z.of_nat (cmp st)) = i * (2 * n - i - 1) /\
                (swp st <= swp st')%nat)).
    + lia.
    + intros i [] st' Hi [Hc Hs]. eapply post_mono; [apply bubblePass_count|].
      cbn beta. intros [] st2 [Hc2 Hs2]. split; [|lia].
      replace (Z.max 0 (n - i - 1)) with (n - i - 1) in Hc2 by lia. nia.
  - cbn beta zeta. intros [] st' [Hc Hs]. post_steps. counters.
    split; [|lia]. destruct (Z.eq_dec n 0) as [E|E].
    + rewrite E in *. cbn in Hc. lia.
    + replace (Z.of_nat (Z.to_nat (n - 1 - 0))) with (n - 1) in Hc by lia. nia.
Qed.

(** ** Interactive mode against benchmark mode *)

Lemma len_values l : len l = Z.of_nat (length (values l)).
Proof. unfold len, values. now rewrite length_map. Qed.

Lemma values_len l1 l2 : values l1 = values l2 -> len l1 = len l2.
Proof. intros H. now rewrite !len_values, H. Qed.

Lemma values_get l1 l2 k a1 :
  values l1 = values l2 -> get l1 k = Some a1 ->
  exists a2, get l2 k = Some a2 /\ value a2 = value a1.
Proof.
  intros Hv Hg. pose proof (get_Some_inside _ _ _ Hg) as Ik.
  rewrite (values_len _ _ Hv) in Ik.
  destruct (get_inside l2 k Ik) as [a2 Ha2]. exists a2. split; [assumption|].
  unfold get in *. destruct (k <? 0); [discriminate|].
  assert (E : values l1 !! Z.to_nat k = values l2 !! Z.to_nat k) by now rewrite Hv.
  unfold values in E. rewrite !list_lookup_fmap, Hg, Ha2 in E. now inversion E.
Qed.

Lemma values_val l1 l2 k : values l1 = values l2 -> val l1 k = val l2 k.
Proof.
  intros Hv. unfold val. destruct (get l1 k) as [a1|] eqn:G1.
  - destruct (values_get _ _ _ _ Hv G1) as (a2 & -> & E). now rewrite E.
  - rewrite get_outside; [reflexivity|].
    intros Ik. rewrite <- (values_len _ _ Hv) in Ik.
    destruct (get_inside l1 k Ik) as [a Ha]. congruence.
Qed.

Lemma values_put l1 l2 k a1 a2 :
  values l1 = values l2 -> value a1 = value a2 ->
  values (put l1 k a1) = values (put l2 k a2).
Proof.
  intros Hv Ha. unfold values, put in *.
  change (map value) with (fmap (M := list) value) in *.
  rewrite !list_fmap_insert. now rewrite Hv, Ha.
Qed.

Lemma values_slice l1 l2 a b :
  values l1 = values l2 -> values (slice l1 a b) = values (slice l2 a b).
Proof.
  intros Hv. unfold slice. cbn zeta. rewrite (values_len _ _ Hv). unfold values in *.
  now rewrite <- !firstn_map, <- !skipn_map, Hv.
Qed.

Lemma agree_refl s : agree s s.
Proof. repeat split. Qed.

Lemma agree_trans s1 s2 s3 : agree s1 s2 -> agree s2 s3 -> agree s1 s3.
Proof. intros (A & B & C) (A' & B' & C'). repeat split; congruence. Qed.

Lemma agree_len s1 s2 : agree s1 s2 -> len (workingArray s1) = len (workingArray s2).
Proof. intros (A & _). now apply values_len. Qed.

Section Quiet.

Implicit Types (s : SortState) (m : M unit).

Lemma quiet_ret s : quiet (ret tt) s.
Proof. apply wp_ret, agree_refl. Qed.

Lemma quiet_seq m (k : M unit) s :
  quiet m s -> (forall s', agree s' s -> quiet k s') -> quiet (m ;; k) s.
Proof.
  intros Hm Hk. apply wp_bind. eapply wp_mono; [exact Hm|].
  intros [] s' Ha. eapply wp_mono; [apply Hk, Ha|].
  intros [] s'' Ha'. cbn beta. eapply agree_trans; eassumption.
Qed.

Lemma quiet_when c m s : (c = true -> quiet m s) -> quiet (when_ c m) s.
Proof. destruct c; intros H; [now apply H|apply quiet_ret]. Qed.

Lemma quiet_modify k f s :
  (forall a, value (f a) = value a) -> 0 <= k < len (workingArray s) ->
  quiet (modify k f) s.
Proof.
  intros Hf Hk. destruct (get_inside _ _ Hk) as [a Ha].
  eapply wp_modify; [exact Ha|]. repeat split. cbn [workingArray].
  now apply values_put_same with (a := a).
Qed.

Lemma quiet_setArray s : quiet setArray s.
Proof. apply wp_setArray. repeat split. Qed.

Lemma quiet_sleep ms s : quiet (sleep ms) s.
Proof. apply wp_sleep. repeat split. Qed.

Lemma quiet_playNoteAt k s : 0 <= k < len (workingArray s) -> quiet (playNoteAt k) s.
Proof.
  intros Hk. destruct (get_inside _ _ Hk) as [a Ha]. unfold playNoteAt.
  apply wp_bind. eapply wp_at; [exact Ha|]. apply wp_ret, agree_refl.
Qed.

Lemma quiet_setSwappingIfPresent i b s : quiet (setSwappingIfPresent i b) s.
Proof.
  unfold quiet, setSwappingIfPresent, wp.
  destruct (get (workingArray s) i) as [a|] eqn:G.
  - apply quiet_modify; [reflexivity|]. now apply get_Some_inside in G.
  - eexists _, _. split; [reflexivity|apply agree_refl].
Qed.

Lemma quiet_markAllSorted s : quiet markAllSorted s.
Proof.
  eexists _, _. split; [reflexivity|]. repeat split. cbn [workingArray].
  unfold values. rewrite map_map. reflexivity.
Qed.

End Quiet.

Ltac quiet_side :=
  repeat match goal with
         | H : agree _ _ |- _ => apply agree_len in H
         end;
  cbn [workingArray] in *; lia.

Ltac quiet_tac :=
  cbn [negb andb];
  lazymatch goal with
  | |- quiet (ret tt) _ => apply quiet_ret
  | |- quiet (bind _ _) _ => apply quiet_seq; [quiet_tac|intros ? ?; quiet_tac]
  | |- quiet (when_ _ _) _ => apply quiet_when; intros ?; quiet_tac
  | |- quiet (setComparing _ _) _ => apply quiet_modify; [reflexivity|quiet_side]
  | |- quiet (setSorted _ _) _ => apply quiet_modify; [reflexivity|quiet_side]
  | |- quiet (setSwapping _ _) _ => apply quiet_modify; [reflexivity|quiet_side]
  | |- quiet setArray _ => apply quiet_setArray
  | |- quiet (sleep _) _ => apply quiet_sleep
  | |- quiet (playNoteAt _) _ => apply quiet_playNoteAt; quiet_side
  | |- quiet (setSwappingIfPresent _ _) _ => apply quiet_setSwappingIfPresent
  | |- quiet markAllSorted _ => apply quiet_markAllSorted
  end.

Section SimRules.

Context {A B : Type}.

Lemma sim_ret (a : A) s1 s2 (Q : A -> SortState -> SortState -> Prop) :
  Q a s1 s2 -> sim (ret a) (ret a) s1 s2 Q.
Proof. intros. exists a, s1, s2. auto. Qed.

Lemma sim_bind (m1 m2 : M A) (k1 k2 : A -> M B) s1 s2
    (Q : B -> SortState -> SortState -> Prop) :
  sim m1 m2 s1 s2 (fun a s1' s2' => sim (k1 a) (k2 a) s1' s2' Q) ->
  sim (bind m1 k1) (bind m2 k2) s1 s2 Q.
Proof.
  intros (a & s1' & s2' & E1 & E2 & b & s1'' & s2'' & F1 & F2 & HQ).
  exists b, s1'', s2''. unfold bind. rewrite E1, E2. auto.
Qed.

Lemma sim_mono (m1 m2 : M A) s1 s2 (Q Q' : A -> SortState -> SortState -> Prop) :
  sim m1 m2 s1 s2 Q -> (forall a s1' s2', Q a s1' s2' -> Q' a s1' s2') ->
  sim m1 m2 s1 s2 Q'.
Proof. intros (a & s1' & s2' & E1 & E2 & HQ) H. exists a, s1', s2'. auto. Qed.

(** The interactive run makes a visual step that the benchmark run skips. *)
Lemma sim_quiet_l (m V : M unit) (k1 k2 : M A) s1 s2
    (Q : A -> SortState -> SortState -> Prop) :
  quiet m s1 ->
  (forall s1', agree s1' s1 -> sim k1 k2 s1' s2 Q) ->
  sim (m ;; k1) (when_ false V ;; k2) s1 s2 Q.
Proof.
  intros (u & s1' & E & Ha) Hk.
  destruct (Hk s1' Ha) as (a & s1'' & s2' & F1 & F2 & HQ).
  exists a, s1'', s2'. unfold bind. rewrite E. auto.
Qed.

Lemma sim_at_bind k (k1 k2 : ArrayBar -> M A) s1 s2
    (Q : A -> SortState -> SortState -> Prop) :
  agree s1 s2 -> 0 <= k < len (workingArray s1) ->
  (forall a1 a2, value a1 = value a2 -> val (workingArray s2) k = value a2 ->
                 sim (k1 a1) (k2 a2) s1 s2 Q) ->
  sim (bind (at_ k) k1) (bind (at_ k) k2) s1 s2 Q.
Proof.
  intros (Hv & _) Hk Hcont. destruct (get_inside _ _ Hk) as [a1 G1].
  destruct (values_get _ _ _ _ Hv G1) as (a2 & G2 & E).
  destruct (Hcont a1 a2 (eq_sym E) (get_val _ _ _ G2)) as (a & s1' & s2' & F1 & F2 & HQ).
  exists a, s1', s2'. unfold bind, at_. rewrite G1, G2. auto.
Qed.

Lemma sim_elem_bind f X1 X2 k (k1 k2 : ArrayBar -> M A) s1 s2
    (Q : A -> SortState -> SortState -> Prop) :
  values X1 = values X2 -> 0 <= k < len X1 ->
  (forall a1 a2, value a1 = value a2 -> sim (k1 a1) (k2 a2) s1 s2 Q) ->
  sim (bind (elem f X1 k) k1) (bind (elem f X2 k) k2) s1 s2 Q.
Proof.
  intros Hv Hk Hcont. destruct (get_inside _ _ Hk) as [a1 G1].
  destruct (values_get _ _ _ _ Hv G1) as (a2 & G2 & E).
  destruct (Hcont a1 a2 (eq_sym E)) as (a & s1' & s2' & F1 & F2 & HQ).
  exists a, s1', s2'. unfold bind, elem. rewrite G1, G2. auto.
Qed.

Lemma sim_getArray_bind (k1 k2 : list ArrayBar -> M A) s1 s2
    (Q : A -> SortState -> SortState -> Prop) :
  sim (k1 (workingArray s1)) (k2 (workingArray s2)) s1 s2 Q ->
  sim (bind getArray k1) (bind getArray k2) s1 s2 Q.
Proof. intros H. exact H. Qed.

End SimRules.

Section SimSteps.

Implicit Types (Q : unit -> SortState -> SortState -> Prop).

Lemma sim_quiet_end (m V : M unit) s1 s2 Q :
  quiet m s1 -> (forall s1', agree s1' s1 -> Q tt s1' s2) ->
  sim m (when_ false V) s1 s2 Q.
Proof. intros ([] & s1' & E & Ha) HQ. exists tt, s1', s2. auto. Qed.

Lemma sim_when c (m1 m2 : M unit) s1 s2 Q :
  (c = true -> sim m1 m2 s1 s2 Q) -> (c = false -> Q tt s1 s2) ->
  sim (when_ c m1) (when_ c m2) s1 s2 Q.
Proof. destruct c; intros Ht Hf; [apply Ht|apply sim_ret, Hf]; reflexivity. Qed.

Lemma sim_same (m : M unit) s1 s2 Q s1' s2' :
  m s1 = Ok (tt, s1') -> m s2 = Ok (tt, s2') -> Q tt s1' s2' -> sim m m s1 s2 Q.
Proof. intros. exists tt, s1', s2'. auto. Qed.

Lemma sim_incrComparisons s1 s2 Q :
  agree s1 s2 -> stepped s1 Q -> sim incrComparisons incrComparisons s1 s2 Q.
Proof.
  intros (Hv & Hs & Hc) HQ. eapply sim_same; [reflexivity..|].
  apply HQ; [|reflexivity].
  repeat split; cbn [workingArray currentStats calls]; first [assumption|now rewrite Hs|now rewrite Hc].
Qed.

Lemma sim_incrSwaps s1 s2 Q :
  agree s1 s2 -> stepped s1 Q -> sim incrSwaps incrSwaps s1 s2 Q.
Proof.
  intros (Hv & Hs & Hc) HQ. eapply sim_same; [reflexivity..|].
  apply HQ; [|reflexivity].
  repeat split; cbn [workingArray currentStats calls]; first [assumption|now rewrite Hs|now rewrite Hc].
Qed.

Lemma sim_enter s1 s2 Q : agree s1 s2 -> stepped s1 Q -> sim enter enter s1 s2 Q.
Proof.
  intros (Hv & Hs & Hc) HQ. eapply sim_same; [reflexivity..|].
  apply HQ; [|reflexivity].
  repeat split; cbn [workingArray currentStats calls]; first [assumption|now rewrite Hs|now rewrite Hc].
Qed.

Lemma sim_stamp elapsed s1 s2 Q :
  agree s1 s2 -> stepped s1 Q -> sim (stamp elapsed) (stamp elapsed) s1 s2 Q.
Proof.
  intros (Hv & Hs & Hc) HQ. eapply sim_same; [reflexivity..|].
  apply HQ; [|reflexivity].
  repeat split; cbn [workingArray currentStats calls]; first [assumption|now rewrite Hs|now rewrite Hc].
Qed.

Lemma sim_swapCells i j s1 s2 Q :
  agree s1 s2 -> 0 <= i < len (workingArray s1) -> 0 <= j < len (workingArray s1) ->
  stepped s1 Q -> sim (swapCells i j) (swapCells i j) s1 s2 Q.
Proof.
  intros (Hv & Hs & Hc) Hi Hj HQ.
  destruct (get_inside _ _ Hi) as [a1 Ga1], (get_inside _ _ Hj) as [b1 Gb1].
  destruct (values_get _ _ _ _ Hv Ga1) as (a2 & Ga2 & Ea).
  destruct (values_get _ _ _ _ Hv Gb1) as (b2 & Gb2 & Eb).
  eapply sim_same.
  - unfold swapCells. rewrite Ga1, Gb1. reflexivity.
  - unfold swapCells. rewrite Ga2, Gb2. reflexivity.
  - apply HQ; [|cbn [workingArray]; apply len_swap].
    repeat split; cbn [workingArray currentStats calls]; try assumption.
    apply values_put; [apply values_put|]; congruence.
Qed.

Lemma sim_store k a1 a2 s1 s2 Q :
  agree s1 s2 -> value a1 = value a2 -> 0 <= k < len (workingArray s1) ->
  stepped s1 Q -> sim (store k a1) (store k a2) s1 s2 Q.
Proof.
  intros Ha Hv Hk HQ. pose proof (agree_len _ _ Ha) as Hlen.
  destruct Ha as (Hvs & Hs & Hc).
  exists tt. eexists _, _. unfold store. rewrite !inside_true by lia.
  split; [reflexivity|]. split; [reflexivity|].
  apply HQ; [|cbn [workingArray]; apply len_put].
  repeat split; cbn [workingArray currentStats calls]; try assumption. now apply values_put.
Qed.

End SimSteps.

Lemma sim_getLength s1 s2 (Q : Z -> SortState -> SortState -> Prop) :
  agree s1 s2 -> Q (len (workingArray s1)) s1 s2 -> sim getLength getLength s1 s2 Q.
Proof.
  intros Ha HQ. exists (len (workingArray s1)), s1, s2. unfold getLength.
  rewrite (agree_len _ _ Ha). repeat split. now rewrite <- (agree_len _ _ Ha).
Qed.

Lemma sim_pickLarger n c largest s1 s2 (Q : Z -> SortState -> SortState -> Prop) :
  agree s1 s2 ->
  0 <= c -> n <= len (workingArray s1) -> 0 <= largest < len (workingArray s1) ->
  Q (larger (workingArray s2) n c largest) s1 s2 ->
  sim (pickLarger n c largest) (pickLarger n c largest) s1 s2 Q.
Proof.
  intros Ha Hc Hn Hl HQ. pose proof (agree_len _ _ Ha) as Hlen.
  destruct (pickLarger_wp n c largest s1 (fun lg s => lg = larger (workingArray s1) n c largest /\ s = s1))
    as (lg1 & s1' & E1 & -> & ->); [lia..|auto|].
  destruct (pickLarger_wp n c largest s2 (fun lg s => lg = larger (workingArray s2) n c largest /\ s = s2))
    as (lg2 & s2' & E2 & -> & ->); [lia..|auto|].
  exists (larger (workingArray s2) n c largest), s1, s2.
  split; [|auto]. rewrite E1. destruct Ha as (Hv & _).
  unfold larger. now rewrite !(values_val _ _ _ Hv).
Qed.

Section SimLoops.

Context {S : Type}.

Lemma sim_forUp (I : Z -> S -> SortState -> SortState -> Prop)
    (body1 body2 : Z -> S -> M S) count :
  forall j s s1 s2,
    I j s s1 s2 ->
    (forall j' s' s1' s2', j <= j' < j + Z.of_nat count -> I j' s' s1' s2' ->
                           sim (body1 j' s') (body2 j' s') s1' s2' (I (j' + 1))) ->
    sim (forUp count j body1 s) (forUp count j body2 s) s1 s2 (I (j + Z.of_nat count)).
Proof.
  induction count as [|c IH]; intros j s s1 s2 HI Hbody; cbn [forUp].
  - apply sim_ret. now replace (j + Z.of_nat 0) with j by lia.
  - apply sim_bind. eapply sim_mono; [apply Hbody; [lia|exact HI]|].
    intros s' s1' s2' HI'. cbn beta.
    replace (j + Z.of_nat (Datatypes.S c)) with ((j + 1) + Z.of_nat c) by lia.
    apply IH; [exact HI'|]. intros. apply Hbody; [lia|assumption].
Qed.

Lemma sim_forRange (I : Z -> S -> SortState -> SortState -> Prop)
    (body1 body2 : Z -> S -> M S) lo hi s s1 s2 :
  lo <= hi ->
  I lo s s1 s2 ->
  (forall j' s' s1' s2', lo <= j' < hi -> I j' s' s1' s2' ->
                         sim (body1 j' s') (body2 j' s') s1' s2' (I (j' + 1))) ->
  sim (forRange lo hi body1 s) (forRange lo hi body2 s) s1 s2 (I hi).
Proof.
  intros Hle HI Hbody. unfold forRange.
  replace hi with (lo + Z.of_nat (Z.to_nat (hi - lo))) at 3 by lia.
  apply sim_forUp; [exact HI|]. intros. apply Hbody; [lia|assumption].
Qed.

End SimLoops.

Lemma sim_forDown (I : Z -> SortState -> SortState -> Prop) (body1 body2 : Z -> M unit) count :
  forall j s1 s2,
    I j s1 s2 ->
    (forall j' s1' s2', j - Z.of_nat count < j' <= j -> I j' s1' s2' ->
                        sim (body1 j') (body2 j') s1' s2' (fun _ => I (j' - 1))) ->
    sim (forDown count j body1) (forDown count j body2) s1 s2
        (fun _ => I (j - Z.of_nat count)).
Proof.
  induction count as [|c IH]; intros j s1 s2 HI Hbody; cbn [forDown].
  - apply sim_ret. now replace (j - Z.of_nat 0) with j by lia.
  - apply sim_bind. eapply sim_mono; [apply Hbody; [lia|exact HI]|].
    intros u s1' s2' HI'. cbn beta.
    replace (j - Z.of_nat (S c)) with ((j - 1) - Z.of_nat c) by lia.
    apply IH; [exact HI'|]. intros. apply Hbody; [lia|assumption].
Qed.

Ltac lens :=
  repeat match goal with
         | H : agree ?a ?b |- _ =>
             lazymatch goal with
             | _ : len (workingArray a) = len (workingArray b) |- _ => fail
             | _ => pose proof (agree_len _ _ H)
             end
         end.

Ltac side := lens; cbn [workingArray] in *; lia.

Ltac agrees := eauto using agree_trans, agree_refl.

Ltac quiet_go := solve [quiet_tac].

Ltac sim_step :=
  cbn [negb andb];
  lazymatch goal with
  | |- sim (ret _) (ret _) _ _ _ => apply sim_ret
  | |- sim (bind (when_ _ _) _) (bind (when_ false _) _) _ _ _ =>
      apply sim_quiet_l; [quiet_go|intros ? ?]
  | |- sim (when_ _ _) (when_ false _) _ _ _ =>
      apply sim_quiet_end; [quiet_go|intros ? ?]
  | |- sim (bind (at_ _) _) (bind (at_ _) _) _ _ _ =>
      apply sim_at_bind; [agrees|side|intros ? ? ? ?]
  | |- sim (bind (elem _ _ _) _) (bind (elem _ _ _) _) _ _ _ =>
      apply sim_elem_bind; [assumption|side|intros ? ? ?]
  | |- sim (bind getArray _) (bind getArray _) _ _ _ => apply sim_getArray_bind
  | |- sim (bind _ _) (bind _ _) _ _ _ => apply sim_bind
  | |- sim incrComparisons incrComparisons _ _ _ =>
      apply sim_incrComparisons; [agrees|intros ? ? ? ?]
  | |- sim incrSwaps incrSwaps _ _ _ => apply sim_incrSwaps; [agrees|intros ? ? ? ?]
  | |- sim enter enter _ _ _ => apply sim_enter; [agrees|intros ? ? ? ?]
  | |- sim (stamp _) (stamp _) _ _ _ => apply sim_stamp; [agrees|intros ? ? ? ?]
  | |- sim (swapCells _ _) (swapCells _ _) _ _ _ =>
      apply sim_swapCells; [agrees|side|side|intros ? ? ? ?]
  | |- sim (store _ _) (store _ _) _ _ _ =>
      apply sim_store; [agrees|try reflexivity; try assumption|side|intros ? ? ? ?]
  | |- sim getLength getLength _ _ _ => apply sim_getLength; [agrees|]
  | |- sim (pickLarger _ _ _) (pickLarger _ _ _) _ _ _ =>
      apply sim_pickLarger; [agrees|side|side|side|]
  end.

Ltac sim_steps := repeat sim_step.

Lemma bubbleInner_sim speed snd n j s1 s2 :
  paired n s1 s2 -> 0 <= j -> j + 1 < n ->
  sim (bubbleInner speed snd false j tt) (bubbleInner speed snd true j tt) s1 s2
      (fun _ => paired n).
Proof.
  intros [Ha Hn] Hj Hj1. unfold bubbleInner. sim_steps.
  match goal with E1 : value _ = value _, E2 : value _ = value _ |- _ => rewrite E1, E2 end.
  apply sim_when; intros _; sim_steps; (split; [agrees|side]).
Qed.

Lemma bubblePass_sim speed snd n i s1 s2 :
  paired n s1 s2 -> 0 <= i < n - 1 ->
  sim (bubblePass speed snd false n i tt) (bubblePass speed snd true n i tt) s1 s2
      (fun _ => paired n).
Proof.
  intros Hp Hi. unfold bubblePass. sim_step.
  eapply sim_mono.
  - apply (sim_forRange (fun (_ : Z) (_ : unit) => paired n)); [lia|exact Hp|].
    intros j [] t1 t2 Hj Hp'. apply bubbleInner_sim; [assumption|lia..].
  - cbn beta. intros [] t1 t2 [Ha Hn]. sim_steps. split; [agrees|side].
Qed.

Lemma bubbleBody_sim speed snd elapsed s1 s2 :
  agree s1 s2 -> 1 <= len (workingArray s1) ->
  sim (bubbleBody speed snd elapsed false) (bubbleBody speed snd elapsed true) s1 s2
      (fun _ => agree).
Proof.
  intros Ha Hn. unfold bubbleBody. sim_steps. set (n := len (workingArray s1)) in *.
  eapply sim_mono.
  - apply (sim_forRange (fun (_ : Z) (_ : unit) => paired n)); [lia|split; auto|].
    intros i [] t1 t2 Hi Hp'. apply bubblePass_sim; [assumption|lia].
  - cbn beta. intros [] t1 t2 [Ha' Hn']. sim_steps. agrees.
Qed.

Lemma partitionStep_sim speed snd n low high pivot j i s1 s2 :
  paired n s1 s2 -> 0 <= low <= j -> j < high < n -> low - 1 <= i < j ->
  sim (partitionStep speed snd false high pivot j i)
      (partitionStep speed snd true high pivot j i) s1 s2
      (fun i' t1 t2 => paired n t1 t2 /\ low - 1 <= i' < j + 1).
Proof.
  intros [Ha Hn] Hlow Hhigh Hi. unfold partitionStep. sim_steps.
  match goal with E : value _ = value _ |- _ => rewrite E end.
  destruct (_ <? pivot); sim_steps; (split; [split; [agrees|side]|lia]).
Qed.

Lemma partition_sim speed snd n low high s1 s2 :
  paired n s1 s2 -> 0 <= low <= high -> high < n ->
  sim (partition speed snd false low high) (partition speed snd true low high) s1 s2
      (fun pi t1 t2 => paired n t1 t2 /\ low <= pi <= high).
Proof.
  intros [Ha Hn] Hlow Hhigh. unfold partition. sim_steps.
  match goal with E : value _ = value _ |- _ => rewrite E end.
  eapply sim_mono.
  - apply (sim_forRange (fun j i t1 t2 => paired n t1 t2 /\ low - 1 <= i < j)).
    + lia.
    + split; [split; [agrees|side]|lia].
    + intros j i t1 t2 Hj [Hp Hi].
      eapply sim_mono; [apply (partitionStep_sim _ _ n low); auto; lia|].
      cbn beta. intros i' v1 v2 [Hp' Hi']. split; [assumption|lia].
  - cbn beta. intros i t1 t2 [[Ha' Hn'] Hi]. sim_steps.
    split; [split; [agrees|side]|lia].
Qed.

Lemma quickSortHelper_sim speed snd n fuel :
  forall low high s1 s2,
    paired n s1 s2 -> 0 <= low -> high < n -> high - low <= Z.of_nat fuel ->
    sim (quickSortHelper speed snd fuel false low high)
        (quickSortHelper speed snd fuel true low high) s1 s2 (fun _ => paired n).
Proof.
  induction fuel as [|f IH]; intros low high s1 s2 Hp Hlow Hhigh Hfuel;
    cbn [quickSortHelper]; destruct (Z.ltb_spec low high) as [Hlt|Hge];
    try lia; try (now apply sim_ret).
  sim_step. eapply sim_mono; [apply (partition_sim _ _ n); auto; lia|].
  cbn beta. intros pi t1 t2 [Hp' Hpi].
  sim_step. eapply sim_mono; [apply IH; auto; lia|].
  cbn beta. intros [] v1 v2 Hp''. apply IH; auto; lia.
Qed.

Lemma quickBody_sim speed snd elapsed s1 s2 :
  agree s1 s2 ->
  sim (quickBody speed snd elapsed false) (quickBody speed snd elapsed true) s1 s2
      (fun _ => agree).
Proof.
  intros Ha. unfold quickBody. sim_steps. set (n := len (workingArray s1)) in *.
  eapply sim_mono.
  - apply (quickSortHelper_sim _ _ n); [split; auto|lia|lia|unfold n, len; lia].
  - cbn beta. intros [] t1 t2 [Ha' Hn']. sim_steps. agrees.
Qed.

Lemma larger_cases l n c lg :
  larger l n c lg = lg \/ (larger l n c lg = c /\ c < n).
Proof.
  unfold larger. destruct (Z.ltb_spec c n); cbn [andb]; [|auto].
  destruct (_ >? _); auto.
Qed.

Lemma heapifyBody_sim speed snd self1 self2 n0 n i s1 s2 :
  paired n0 s1 s2 -> 0 <= i < n -> n <= n0 ->
  (forall c t1 t2, paired n0 t1 t2 -> i < c < n ->
                   sim (self1 n c) (self2 n c) t1 t2 (fun _ => paired n0)) ->
  sim (heapifyBody speed snd self1 false n i) (heapifyBody speed snd self2 true n i) s1 s2
      (fun _ => paired n0).
Proof.
  intros [Ha Hn] Hi Hn0 Hself. unfold heapifyBody. sim_steps.
  match goal with |- context [larger ?l n (2 * i + 1) i] =>
    destruct (larger_cases l n (2 * i + 1) i) as [E1|[E1 C1]]; rewrite E1 end.
  all: sim_steps.
  all: match goal with |- context [larger ?l ?m (2 * ?x + 2) ?g] =>
         destruct (larger_cases l m (2 * x + 2) g) as [E2|[E2 C2]]; rewrite E2 end.
  all: match goal with |- sim (when_ (negb (?x =? ?y)) _) _ _ _ _ =>
         destruct (Z.eqb_spec x y) as [E|E]; cbn [negb]; try lia end.
  all: apply sim_when; intros Hc; try discriminate; sim_steps.
  all: try (split; [agrees|side]).
  all: (eapply sim_mono; [apply Hself; [split; [agrees|side]|lia]|]);
    cbn beta; intros [] t1 t2 [Ha' Hn']; sim_steps; (split; [agrees|side]).
Qed.

Lemma heapify_sim speed snd n0 fuel :
  forall n i s1 s2,
    paired n0 s1 s2 -> 0 <= i < n -> n <= n0 -> n - i - 1 <= Z.of_nat fuel ->
    sim (heapify speed snd fuel false n i) (heapify speed snd fuel true n i) s1 s2
        (fun _ => paired n0).
Proof.
  induction fuel as [|f IH]; intros n i s1 s2 Hp Hi Hn Hfuel; cbn [heapify];
    apply (heapifyBody_sim _ _ _ _ n0); auto.
  - intros c t1 t2 Hp' Hc. lia.
  - intros c t1 t2 Hp' Hc. apply IH; auto; lia.
Qed.

Lemma extractStep_sim speed snd n0 fuel i s1 s2 :
  paired n0 s1 s2 -> 0 < i < n0 -> i - 1 <= Z.of_nat fuel ->
  sim (extractStep speed snd fuel false i) (extractStep speed snd fuel true i) s1 s2
      (fun _ => paired n0).
Proof.
  intros [Ha Hn] Hi Hfuel. unfold extractStep. sim_steps.
  apply heapify_sim; [split; [agrees|side]|lia..].
Qed.

Lemma heapBody_sim speed snd elapsed s1 s2 :
  agree s1 s2 -> 1 <= len (workingArray s1) ->
  sim (heapBody speed snd elapsed false) (heapBody speed snd elapsed true) s1 s2
      (fun _ => agree).
Proof.
  intros Ha Hn. unfold heapBody. sim_steps. set (n := len (workingArray s1)) in *.
  pose proof (Z.div_mod n 2 ltac:(lia)) as Hdiv.
  pose proof (Z.mod_pos_bound n 2 ltac:(lia)) as Hmod.
  eapply sim_mono.
  - apply (sim_forDown (fun (_ : Z) => paired n)); [split; auto|].
    intros i t1 t2 Hi Hp. apply heapify_sim; auto; lia.
  - cbn beta. intros [] t1 t2 Hp. sim_step. eapply sim_mono.
    + apply (sim_forDown (fun (_ : Z) => paired n)); [assumption|].
      intros i v1 v2 Hi Hp'. apply extractStep_sim; auto; lia.
    + cbn beta. intros [] v1 v2 [Ha' Hn']. sim_steps. agrees.
Qed.

Section MergeSim.

Variables (speed : Z) (snd : bool) (n : Z).
Variables (L1 R1 L2 R2 : list ArrayBar) (left n1 n2 : Z).

Hypothesis HvL : values L1 = values L2.
Hypothesis HvR : values R1 = values R2.
Hypothesis HlenL : len L1 = n1.
Hypothesis HlenR : len R1 = n2.
Hypothesis Hleft : 0 <= left.
Hypothesis Hfit : left + n1 + n2 <= n.

Local Abbreviation cursors := (cursors n left n1 n2).

Lemma mergeLoop_sim fuel :
  forall i j k s1 s2,
    cursors (i, j, k) s1 s2 -> (n1 - i) + (n2 - j) <= Z.of_nat fuel ->
    sim (mergeLoop speed snd fuel false L1 R1 n1 n2 i j k)
        (mergeLoop speed snd fuel true L2 R2 n1 n2 i j k) s1 s2 cursors.
Proof.
  induction fuel as [|f IH]; intros i j k s1 s2 Hc Hfuel;
    pose proof Hc as ([Ha Hn] & Hi & Hj & Hk); cbn [fst Datatypes.snd] in *;
    cbn [mergeLoop];
    destruct (Z.ltb_spec i n1), (Z.ltb_spec j n2); cbn [andb];
    try lia; try (now apply sim_ret).
  sim_steps.
  match goal with E1 : value _ = value _, E2 : value _ = value _ |- _ => rewrite E1, E2 end.
  destruct (_ <=? _); sim_steps; cbn [fst Datatypes.snd];
    (apply IH; [|lia]); (split; [split; [agrees|side]|]); cbn [fst Datatypes.snd]; lia.
Qed.

Lemma drain_sim X1 X2 m i k s1 s2 :
  values X1 = values X2 -> len X1 = m ->
  paired n s1 s2 -> 0 <= i <= m -> 0 <= k -> k + (m - i) <= n ->
  sim (forRange i m (drainStep speed false X1) k) (forRange i m (drainStep speed true X2) k)
      s1 s2 (fun k' s1' s2' => paired n s1' s2' /\ k' = k + (m - i)).
Proof.
  intros Hv Hlen Hp Hi Hk Hfits.
  eapply sim_mono.
  - apply (sim_forRange (fun i' k' t1 t2 => paired n t1 t2 /\ k' = k + (i' - i)));
      [lia|split; [assumption|lia]|].
    intros i' k' t1 t2 Hi' [[Ha Hn] Hk']. unfold drainStep. sim_steps.
    cbn beta. split; [split; [agrees|side]|lia].
  - cbn beta. intros k' t1 t2 [Hp' Hk']. split; [assumption|lia].
Qed.

End MergeSim.

Lemma merge_sim speed snd n left mid right s1 s2 :
  paired n s1 s2 -> 0 <= left <= mid -> mid < right < n ->
  sim (merge speed snd false left mid right) (merge speed snd true left mid right) s1 s2
      (fun _ => paired n).
Proof.
  intros [Ha Hn] Hleft Hright. unfold merge. sim_steps.
  match goal with Hx : agree ?a ?b |- sim _ _ ?a ?b _ =>
    pose proof (agree_len _ _ Hx) as Hl; destruct Hx as (Hv & Hs & Hc) end.
  match goal with Hx : len (workingArray ?a) = len (workingArray s1) |- _ =>
    set (l1 := workingArray a) in *; assert (Hl1 : len l1 = n) by lia end.
  match goal with |- sim _ _ _ ?b _ => set (l2 := workingArray b) in * end.
  assert (Hl2 : len l2 = n) by lia.
  set (n1 := mid - left + 1). set (n2 := right - mid).
  eapply sim_mono.
  - apply (mergeLoop_sim speed snd n (slice l1 left (mid + 1)) (slice l1 (mid + 1) (right + 1))
             (slice l2 left (mid + 1)) (slice l2 (mid + 1) (right + 1)) left n1 n2).
    + now apply values_slice.
    + now apply values_slice.
    + rewrite slice_seg, len_seg by lia. lia.
    + rewrite slice_seg, len_seg by lia. lia.
    + lia.
    + lia.
    + split; [split; [repeat split; assumption|assumption]|].
      cbn [fst Datatypes.snd]. lia.
    + lia.
  - cbn beta. intros [[i j] k] t1 t2 (Hp & Hi & Hj & Hk). cbn [fst Datatypes.snd] in *.
    sim_step. eapply sim_mono.
    + apply (drain_sim speed n _ _ n1); auto; try lia.
      * now apply values_slice.
      * rewrite slice_seg, len_seg by lia. lia.
    + cbn beta. intros k1 v1 v2 [Hp1 Hk1]. sim_step. eapply sim_mono.
      * apply (drain_sim speed n _ _ n2); auto; try lia.
        -- now apply values_slice.
        -- rewrite slice_seg, len_seg by lia. lia.
      * cbn beta. intros k2 w1 w2 [Hp2 Hk2]. sim_steps. assumption.
Qed.

Lemma mergeSortHelper_sim speed snd n fuel :
  forall left right s1 s2,
    paired n s1 s2 -> 0 <= left -> right < n -> right - left <= Z.of_nat fuel ->
    sim (mergeSortHelper speed snd fuel false left right)
        (mergeSortHelper speed snd fuel true left right) s1 s2 (fun _ => paired n).
Proof.
  induction fuel as [|f IH]; intros left right s1 s2 Hp Hleft Hright Hfuel;
    cbn [mergeSortHelper]; destruct (Z.ltb_spec left right) as [Hlt|Hge];
    try lia; try (now apply sim_ret).
  cbn zeta. set (mid := (left + right) / 2).
  assert (Hmid : left <= mid < right).
  { unfold mid. pose proof (Z.div_mod (left + right) 2 ltac:(lia)).
    pose proof (Z.mod_pos_bound (left + right) 2 ltac:(lia)). lia. }
  sim_step. eapply sim_mono; [apply IH; auto; lia|].
  cbn beta. intros [] t1 t2 Hp1.
  sim_step. eapply sim_mono; [apply IH; auto; lia|].
  cbn beta. intros [] v1 v2 Hp2. apply (merge_sim _ _ n); auto; lia.
Qed.

Lemma mergeBody_sim speed snd elapsed s1 s2 :
  agree s1 s2 ->
  sim (mergeBody speed snd elapsed false) (mergeBody speed snd elapsed true) s1 s2
      (fun _ => agree).
Proof.
  intros Ha. unfold mergeBody. sim_steps. set (n := len (workingArray s1)) in *.
  eapply sim_mono.
  - apply (mergeSortHelper_sim _ _ n); [split; auto|lia|lia|unfold n, len; lia].
  - cbn beta. intros [] t1 t2 [Ha' Hn']. sim_steps. agrees.
Qed.

(** ** Results of whole engine calls *)

Lemma val_cons_succ a l k : 0 <= k -> val (a :: l) (k + 1) = val l k.
Proof.
  intros Hk. unfold val, get.
  destruct (Z.ltb_spec (k + 1) 0) as [?|_]; [lia|].
  destruct (Z.ltb_spec k 0) as [?|_]; [lia|].
  replace (Z.to_nat (k + 1)) with (S (Z.to_nat k)) by lia. reflexivity.
Qed.

Lemma len_cons a l : len (a :: l) = len l + 1.
Proof. unfold len. cbn [length]. lia. Qed.

Lemma sortedIn_Sorted l : sortedIn l 0 (len l) -> Sorted Z.le (values l).
Proof.
  induction l as [|a l IH]; intros Hs; cbn [values map]; constructor.
  - apply IH. intros i j Hi Hij Hj.
    rewrite <- (val_cons_succ a l i), <- (val_cons_succ a l j) by lia.
    apply Hs; rewrite ?len_cons; lia.
  - destruct l as [|b l]; constructor.
    change (value a) with (val (a :: b :: l) 0).
    change (value b) with (val (b :: l) 0).
    rewrite <- (val_cons_succ a (b :: l) 0) by lia. apply Hs; rewrite ?len_cons; try lia.
    unfold len. lia.
Qed.

Lemma run_wp arr stats (body : M unit) (Q : SortState -> Prop) :
  wp body (mkState arr stats 0 0 0) (fun _ => Q) ->
  exists st, run arr stats body = Ok st /\ Q st.
Proof. intros (u & st & E & HQ). exists st. unfold run. now rewrite E. Qed.

Lemma run_post arr stats (body : M unit) (Q : SortState -> Prop) st :
  post body (mkState arr stats 0 0 0) (fun _ => Q) ->
  run arr stats body = Ok st -> Q st.
Proof.
  intros HP E. unfold run in E.
  destruct (body _) as [[u st']|f] eqn:Eb; inversion E; subst. exact (HP _ _ Eb).
Qed.

Lemma run_sim arr stats (body1 body2 : M unit) :
  sim body1 body2 (mkState arr stats 0 0 0) (mkState arr stats 0 0 0) (fun _ => agree) ->
  modesAgree (run arr stats body1) (run arr stats body2).
Proof.
  intros (u & s1 & s2 & E1 & E2 & Ha). exists s1, s2. unfold run. now rewrite E1, E2.
Qed.

Lemma shuffled_sortedPermutation arr stats (body : M unit) :
  wp body (mkState arr stats 0 0 0)
     (fun _ st' => shuffled 0 (len arr) arr (workingArray st') /\
                   sortedIn (workingArray st') 0 (len (workingArray st'))) ->
  sortedPermutation (run arr stats body) arr.
Proof.
  intros H. destruct (run_wp _ _ _ _ H) as (st & E & Hsh & Hs).
  exists st. split; [exact E|]. split; [now apply sortedIn_Sorted|].
  unfold values. apply Permutation_map. now apply shuffled_Permutation in Hsh.
Qed.

(** C1. In silent (benchmark) mode each of the four engines returns, for
    every input array, an array holding the same multiset of values in
    non-decreasing order. *)
Theorem silent_mode_sorts speed soundEnabled elapsed arr stats :
  sortedPermutation (bubbleSort speed soundEnabled elapsed arr stats true) arr /\
  sortedPermutation (quickSort speed soundEnabled elapsed arr stats true) arr /\
  sortedPermutation (mergeSort speed soundEnabled elapsed arr stats true) arr /\
  sortedPermutation (heapSort speed soundEnabled elapsed arr stats true) arr.
Proof.
  repeat split.
  - apply shuffled_sortedPermutation, bubbleBody_wp.
  - apply shuffled_sortedPermutation, quickBody_wp.
  - destruct (run_wp _ _ _ _ (mergeBody_wp speed soundEnabled elapsed (mkState arr stats 0 0 0)))
      as (st & E & Hp & Hs).
    exists st. split; [exact E|]. split; [now apply sortedIn_Sorted|exact Hp].
  - apply shuffled_sortedPermutation, heapBody_wp.
Qed.

(** ** The two modes *)

(** X1. On every non-empty array the interactive run and the benchmark run of
    an engine both return, with the same values in the same order and the
    same comparison, swap and call counts; for quick sort and merge sort
    the array may be empty as well. *)
Theorem modes_agree_on_nonempty speed soundEnabled elapsed arr stats :
  (arr <> [] ->
   modesAgree (bubbleSort speed soundEnabled elapsed arr stats false)
              (bubbleSort speed soundEnabled elapsed arr stats true)) /\
  modesAgree (quickSort speed soundEnabled elapsed arr stats false)
             (quickSort speed soundEnabled elapsed arr stats true) /\
  modesAgree (mergeSort speed soundEnabled elapsed arr stats false)
             (mergeSort speed soundEnabled elapsed arr stats true) /\
  (arr <> [] ->
   modesAgree (heapSort speed soundEnabled elapsed arr stats false)
              (heapSort speed soundEnabled elapsed arr stats true)).
Proof.
  assert (Hne : arr <> [] -> 1 <= len arr).
  { destruct arr; [congruence|]. intros _. rewrite len_cons. unfold len. lia. }
  repeat split.
  - intros H. apply run_sim, bubbleBody_sim; [apply agree_refl|apply Hne, H].
  - apply run_sim, quickBody_sim, agree_refl.
  - apply run_sim, mergeBody_sim, agree_refl.
  - intros H. apply run_sim, heapBody_sim; [apply agree_refl|apply Hne, H].
Qed.

Lemma modes_agree_on_nonempty_witness :
  modesAgree (bubbleSort 50 true 0 [bar 2; bar 1] stats0 false)
             (bubbleSort 50 true 0 [bar 2; bar 1] stats0 true).
Proof.
  apply (modes_agree_on_nonempty 50 true 0%nat [bar 2; bar 1] stats0). discriminate.
Defined.

(** C2. On the empty array the two modes of bubble sort and of heap sort
    differ: the benchmark run returns the empty array with untouched
    counters, the interactive run throws on [workingArray[0].isSorted = true]. *)
Theorem modes_differ_on_empty speed soundEnabled elapsed stats :
  bubbleSort speed soundEnabled elapsed [] stats false = Fail TypeError /\
  summary (bubbleSort speed soundEnabled elapsed [] stats true)
    = Ok ([], comparisons stats, swaps stats) /\
  heapSort speed soundEnabled elapsed [] stats false = Fail TypeError /\
  summary (heapSort speed soundEnabled elapsed [] stats true)
    = Ok ([], comparisons stats, swaps stats).
Proof. repeat split. Qed.

(** C6. The outcome of every engine in both modes on the empty array:
    all benchmark runs, and the interactive runs of quick sort and merge
    sort, return the empty array with the counters they were given; the
    interactive runs of bubble sort and heap sort throw. *)
Theorem empty_array_outcomes speed soundEnabled elapsed stats :
  summary (bubbleSort speed soundEnabled elapsed [] stats true)
    = Ok ([], comparisons stats, swaps stats) /\
  summary (quickSort speed soundEnabled elapsed [] stats true)
    = Ok ([], comparisons stats, swaps stats) /\
  summary (mergeSort speed soundEnabled elapsed [] stats true)
    = Ok ([], comparisons stats, swaps stats) /\
  summary (heapSort speed soundEnabled elapsed [] stats true)
    = Ok ([], comparisons stats, swaps stats) /\
  summary (quickSort speed soundEnabled elapsed [] stats false)
    = Ok ([], comparisons stats, swaps stats) /\
  summary (mergeSort speed soundEnabled elapsed [] stats false)
    = Ok ([], comparisons stats, swaps stats) /\
  summary (bubbleSort speed soundEnabled elapsed [] stats false) = Fail TypeError /\
  summary (heapSort speed soundEnabled elapsed [] stats false) = Fail TypeError.
Proof. repeat split. Qed.

(** ** Random arrays *)


Lemma freshArray_length size min max random :
  length (freshArray size min max random) = size.
Proof. unfold freshArray. now rewrite length_map, length_seq. Qed.


(** ** The benchmark orchestrator *)

Lemma benchPair_fold attempt alg l :
  forall t c s,
    fold_left (benchPair attempt alg) l (t, c, s) =
      (t ++ omap (fun size => timeElapsed <$> attempt alg size) l,
       c ++ omap (fun size => comparisons <$> attempt alg size) l,
       s ++ omap (fun size => swaps <$> attempt alg size) l).
Proof.
  induction l as [|size l IH]; intros t c s; cbn [fold_left omap].
  - now rewrite !app_nil_r.
  - rewrite (surjective_pairing (benchPair attempt alg (t, c, s) size)).
    rewrite (surjective_pairing (benchPair attempt alg (t, c, s) size).1).
    rewrite IH. unfold benchPair. cbn [list_omap].
    destruct (attempt alg size) as [x|]; cbn; now rewrite <- ?app_assoc.
Qed.

(** The sequences of a result are the measurements of the pairs that did
    not throw, in the order of [sizes]. *)
Lemma benchAlgorithm_eq attempt alg :
  benchAlgorithm attempt alg =
    Bench.mk alg benchSizes
      (omap (fun size => timeElapsed <$> attempt alg size) benchSizes)
      (omap (fun size => comparisons <$> attempt alg size) benchSizes)
      (omap (fun size => swaps <$> attempt alg size) benchSizes).
Proof. unfold benchAlgorithm. now rewrite benchPair_fold. Qed.

Lemma omap_total {A B} (f : A -> option B) (g : A -> B) (l : list A) :
  (forall x, f x = Some (g x)) -> omap f l = map g l.
Proof.
  intros H. induction l as [|x l IH]; cbn; [reflexivity|]. now rewrite H, IH.
Qed.

Lemma dispatch_returns speed soundEnabled elapsed alg arr stats :
  exists st, dispatch speed soundEnabled elapsed alg arr stats = Ok st.
Proof.
  unfold dispatch.
  destruct (String.eqb alg "bubble").
  { destruct (run_wp _ _ _ _ (bubbleBody_wp speed soundEnabled elapsed (mkState arr stats 0 0 0)))
      as (st & E & _). eauto. }
  destruct (String.eqb alg "quick").
  { destruct (run_wp _ _ _ _ (quickBody_wp speed soundEnabled elapsed (mkState arr stats 0 0 0)))
      as (st & E & _). eauto. }
  destruct (String.eqb alg "merge").
  { destruct (run_wp _ _ _ _ (mergeBody_wp speed soundEnabled elapsed (mkState arr stats 0 0 0)))
      as (st & E & _). eauto. }
  destruct (String.eqb alg "heap").
  { destruct (run_wp _ _ _ _ (heapBody_wp speed soundEnabled elapsed (mkState arr stats 0 0 0)))
      as (st & E & _). eauto. }
  eauto.
Qed.

Lemma benchAttempt_returns speed soundEnabled clock random alg size :
  exists s, benchAttempt speed soundEnabled clock random alg size = Some s.
Proof.
  unfold benchAttempt.
  destruct (dispatch_returns speed soundEnabled (clock alg size) alg
              (freshArray size MIN_VALUE MAX_VALUE (random alg size)) stats0) as [st ->].
  eauto.
Qed.


(** ** Merge sort: comparisons and placements *)

Lemma drain_returns speed b X i n k st :
  0 <= i <= n -> n <= len X -> 0 <= k -> k + (n - i) <= len (workingArray st) ->
  wp (forRange i n (drainStep speed b X) k) st
     (fun _ st' => len (workingArray st') = len (workingArray st)).
Proof.
  intros Hi Hn Hk Hfit. eapply wp_mono.
  - apply (wp_forRange
             (fun j k' st' => len (workingArray st') = len (workingArray st) /\
                              k' = k + (j - i))); [lia|split; [reflexivity|lia]|].
    intros j k' st' Hj [Hlen Hk'].
    destruct (get_inside X j) as [a Ha]; [lia|].
    unfold drainStep. wp_steps. eapply wp_store; [cbn [workingArray]; lia|].
    destruct b; wp_steps; (split; [now rewrite len_put|lia]).
  - cbn beta. intros k' st' [Hlen _]. exact Hlen.
Qed.

(** C3. Merge sort makes exactly one comparison on [2,1]; on [1,1] it makes
    one comparison and two placements, takes the left run's element first
    (the two equal elements, told apart by a flag, keep their order) and
    returns [1,1]; and a draining loop that moves the elements [i .. n-1]
    of a run returns having added [n - i] to the swap counter and nothing
    to the comparison counter. *)
Theorem merge_counts speed soundEnabled elapsed :
  (forall isBenchmark,
     summary (mergeSort speed soundEnabled elapsed [bar 2; bar 1] stats0 isBenchmark)
       = Ok ([1; 2], 1%nat, 2%nat) /\
     summary (mergeSort speed soundEnabled elapsed [bar 1; bar 1] stats0 isBenchmark)
       = Ok ([1; 1], 1%nat, 2%nat)) /\
  (exists st,
     mergeSort speed soundEnabled elapsed
       [mkBar 1 false false true; mkBar 1 false false false] stats0 true = Ok st /\
     workingArray st = [mkBar 1 false false true; mkBar 1 false false false] /\
     cmp st = 1%nat /\ swp st = 2%nat) /\
  (forall isBenchmark X i n k st,
     0 <= i <= n -> n <= len X -> 0 <= k -> k + (n - i) <= len (workingArray st) ->
     exists k' st',
       forRange i n (drainStep speed isBenchmark X) k st = Ok (k', st') /\
       cmp st' = cmp st /\
       swp st' = (swp st + Z.to_nat (n - i))%nat).
Proof.
  split; [|split].
  - intros []; destruct soundEnabled; split; reflexivity.
  - exists (mkState [mkBar 1 false false true; mkBar 1 false false false]
              (mkStats 1 2 elapsed) 0 0 1).
    split; [vm_compute; reflexivity|]. repeat split.
  - intros b X i n k st Hi Hn Hk Hfit.
    destruct (wp_post _ _ _ _ (drain_returns speed b X i n k st Hi Hn Hk Hfit)
                (drain_count speed b X i n k st)) as (k' & st' & E & _ & Hc & _ & Hs & _).
    exists k', st'. auto.
Qed.

Lemma merge_counts_witness :
  exists k' st',
    forRange 0 2 (drainStep 50 true [bar 3; bar 4]) 1
      (mkState [bar 0; bar 0; bar 0] stats0 0 0 0) = Ok (k', st') /\
    cmp st' = 0%nat /\ swp st' = 2%nat.
Proof.
  apply (proj2 (proj2 (merge_counts 50 true 0%nat)) true [bar 3; bar 4] 0 2 1
           (mkState [bar 0; bar 0; bar 0] stats0 0 0 0));
    unfold len; cbn [length workingArray]; lia.
Defined.

(** ** Bubble sort on [5,3,8,1] *)

(** C4. Bubble sort on [5,3,8,1] returns [1,3,5,8] after 6 comparisons and
    4 swaps; 4 is the number of inversions of the input, and 6 is
    n(n-1)/2 for n = 4, the number of comparisons bubble sort makes on
    every array of n elements. *)
Theorem bubble_on_5381 speed soundEnabled elapsed :
  summary (bubbleSort speed soundEnabled elapsed (map bar [5; 3; 8; 1]) stats0 true)
    = Ok ([1; 3; 5; 8], 6%nat, 4%nat) /\
  inversions [5; 3; 8; 1] = 4%nat /\
  (forall arr stats,
      exists st, bubbleSort speed soundEnabled elapsed arr stats true = Ok st /\
                 2 * (Z.of_nat (cmp st) - Z.of_nat (comparisons stats))
                   = len arr * (len arr - 1)).
Proof.
  split; [reflexivity|]. split; [reflexivity|].
  intros arr stats.
  destruct (run_wp _ _ _ _ (bubbleBody_wp speed soundEnabled elapsed (mkState arr stats 0 0 0)))
    as (st & E & _).
  exists st. split; [exact E|].
  exact (proj1 (run_post _ _ _ _ _ (bubbleBody_count speed soundEnabled elapsed true _) E)).
Qed.

(** ** Quick sort and heap sort: counters *)

Lemma quickSort_counts speed soundEnabled elapsed arr stats :
  exists st,
    quickSort speed soundEnabled elapsed arr stats true = Ok st /\
    quickCount (Z.max 0 (len arr - 1)) (mkState arr stats 0 0 0) st.
Proof.
  destruct (run_wp _ _ _ _ (quickBody_wp speed soundEnabled elapsed (mkState arr stats 0 0 0)))
    as (st & E & _).
  exists st. split; [exact E|].
  refine (run_post _ _ _ _ _ _ E). unfold quickBody. post_steps.
  eapply post_mono; [apply quickSortHelper_count|]. cbn beta.
  intros [] st1 H1. post_steps. unfold quickCount in *. counters.
  replace (len arr - 1 - 0) with (len arr - 1) in H1 by lia. exact H1.
Qed.

Lemma half_bound a b : 2 * a <= b -> a <= b / 2.
Proof. intros H. apply Z.div_le_lower_bound; lia. Qed.

(** C5, as the code has it.  On [1,2,3,4,5] heap sort and quick sort
    return [1,2,3,4,5].  Quick sort counts 10 comparisons and 14 swaps
    there, which is its worst case for five elements, reached and not
    undercut: no array of n elements makes it count more than n(n-1)/2
    comparisons or n(n-1)/2 + n - 1 swaps.  Heap sort counts 24
    comparisons and 10 swaps, fewer than the 26 and 11 it counts on
    [2,3,1,5,4]. *)
Theorem sorted_input_counts speed soundEnabled elapsed :
  summary (heapSort speed soundEnabled elapsed (map bar [1; 2; 3; 4; 5]) stats0 true)
    = Ok ([1; 2; 3; 4; 5], 24%nat, 10%nat) /\
  summary (quickSort speed soundEnabled elapsed (map bar [1; 2; 3; 4; 5]) stats0 true)
    = Ok ([1; 2; 3; 4; 5], 10%nat, 14%nat) /\
  quickWorstComparisons 5 = 10 /\ quickWorstSwaps 5 = 14 /\
  (forall arr stats,
      exists st, quickSort speed soundEnabled elapsed arr stats true = Ok st /\
                 Z.of_nat (cmp st) - Z.of_nat (comparisons stats)
                   <= quickWorstComparisons (len arr) /\
                 Z.of_nat (swp st) - Z.of_nat (swaps stats)
                   <= quickWorstSwaps (len arr)) /\
  summary (heapSort speed soundEnabled elapsed (map bar [2; 3; 1; 5; 4]) stats0 true)
    = Ok ([1; 2; 3; 4; 5], 26%nat, 11%nat).
Proof.
  repeat split.
  intros arr stats.
  destruct (quickSort_counts speed soundEnabled elapsed arr stats)
    as (st & E & _ & _ & _ & _ & _ & Hc & Hs).
  exists st. split; [exact E|]. unfold quickWorstComparisons, quickWorstSwaps.
  cbn zeta. split; apply half_bound; assumption.
Qed.

(** C5, as the claim words it, fails for quick sort: on [1,2,3,4,5] its
    counts are not strictly below the worst case for five elements. *)
Lemma sorted_input_is_quick_worst_case :
  exists st,
    quickSort 50 true 0 (map bar [1; 2; 3; 4; 5]) stats0 true = Ok st /\
    ~ (Z.of_nat (cmp st) < quickWorstComparisons 5) /\
    ~ (Z.of_nat (swp st) < quickWorstSwaps 5).
Proof.
  exists (mkState (map bar [1; 2; 3; 4; 5]) (mkStats 10 14 0) 0 0 4).
  split; [vm_compute; reflexivity|]. split; vm_compute; discriminate.
Qed.

(** C9. Every [partition] call that returns has counted at least one swap,
    the placement of the pivot, also when the pivot stays where it is: on
    [1,2] the call for the whole range returns the pivot index 1 and the
    unchanged array with two swaps counted.  So a quick sort counts at
    least as many swaps as it made [partition] calls, and it makes at
    least one on every array of two or more elements: 4 calls and 14 swaps
    on [1,2,3,4,5]. *)
Theorem partition_counts_pivot_swap speed soundEnabled elapsed :
  (forall isBenchmark low high st pi st',
      low <= high ->
      partition speed soundEnabled isBenchmark low high st = Ok (pi, st') ->
      calls st' = S (calls st) /\ (swp st < swp st')%nat) /\
  partition speed soundEnabled true 0 1 (mkState [bar 1; bar 2] stats0 0 0 0)
    = Ok (1, mkState [bar 1; bar 2] (mkStats 1 2 0) 0 0 1) /\
  (forall arr stats,
      exists st, quickSort speed soundEnabled elapsed arr stats true = Ok st /\
                 (swaps stats + calls st <= swp st)%nat /\
                 (2 <= len arr -> (1 <= calls st)%nat)) /\
  (exists st, quickSort speed soundEnabled elapsed (map bar [1; 2; 3; 4; 5]) stats0 true = Ok st /\
              calls st = 4%nat /\ swp st = 14%nat).
Proof.
  split; [|split; [reflexivity|split]].
  - intros b low high st pi st' Hle E.
    destruct (partition_count speed soundEnabled b low high st Hle _ _ E)
      as (_ & Hc & _ & Hs). split; [exact Hc|lia].
  - intros arr stats.
    destruct (quickSort_counts speed soundEnabled elapsed arr stats)
      as (st & E & Hcl & _ & _ & Hcs & Hpos & _).
    exists st. split; [exact E|]. unfold cmp, swp in *. cbn in *. split; [lia|].
    intros H2. specialize (Hpos ltac:(lia)). lia.
  - exists (mkState (map bar [1; 2; 3; 4; 5]) (mkStats 10 14 elapsed) 0 0 4).
    split; [vm_compute; reflexivity|]. split; reflexivity.
Qed.

Lemma partition_counts_pivot_swap_witness :
  calls (mkState [bar 1; bar 2] (mkStats 1 2 0) 0 0 1) = 1%nat /\
  (swp (mkState [bar 1; bar 2] stats0 0 0 0)
   < swp (mkState [bar 1; bar 2] (mkStats 1 2 0) 0 0 1))%nat.
Proof.
  apply (proj1 (partition_counts_pivot_swap 50 true 0%nat) true 0 1
           (mkState [bar 1; bar 2] stats0 0 0 0) 1); [lia|reflexivity].
Defined.

Lemma heapify_leaf speed soundEnabled fuel n i st :
  n <= 2 * i + 1 ->
  heapify speed soundEnabled fuel true n i st
    = Ok (tt, mkState (workingArray st)
                (mkStats (S (S (cmp st))) (swp st) (timeElapsed (currentStats st)))
                (frames st) (naps st) (S (calls st))).
Proof.
  intros Hleaf. destruct fuel; cbn [heapify]; unfold heapifyBody, pickLarger;
    cbn [negb andb when_];
    destruct (Z.ltb_spec (2 * i + 1) n); try lia;
    destruct (Z.ltb_spec (2 * i + 2) n); try lia;
    unfold bind, enter, ret, incrComparisons; cbn;
    rewrite Z.eqb_refl; reflexivity.
Qed.

(** C10. Every [heapify] invocation counts two comparisons: a call that
    returns has added to the comparison counter twice the number of
    invocations it made, itself and the recursive ones.  On a node with no
    child inside the heap ([n <= 2i + 1]) the call returns after one
    invocation, with two comparisons counted, no swap and the array as it
    was.  A whole heap sort therefore reports twice as many comparisons as
    it made [heapify] invocations. *)
Theorem heapify_counts_two speed soundEnabled elapsed :
  (forall fuel isBenchmark n i st st',
      heapify speed soundEnabled fuel isBenchmark n i st = Ok (tt, st') ->
      (calls st < calls st')%nat /\
      cmp st' = (cmp st + 2 * (calls st' - calls st))%nat) /\
  (forall fuel n i st,
      n <= 2 * i + 1 ->
      exists st',
        heapify speed soundEnabled fuel true n i st = Ok (tt, st') /\
        calls st' = S (calls st) /\
        cmp st' = (cmp st + 2)%nat /\
        swp st' = swp st /\
        workingArray st' = workingArray st) /\
  (forall arr stats,
      exists st, heapSort speed soundEnabled elapsed arr stats true = Ok st /\
                 cmp st = (comparisons stats + 2 * calls st)%nat).
Proof.
  split; [|split].
  - intros fuel b n i st st' E.
    destruct (heapify_count speed soundEnabled b fuel n i st _ _ E) as [(A & B & _) _].
    auto.
  - intros fuel n i st Hleaf. eexists. split; [apply heapify_leaf, Hleaf|].
    unfold cmp, swp. cbn. repeat split; lia.
  - intros arr stats.
    destruct (run_wp _ _ _ _ (heapBody_wp speed soundEnabled elapsed (mkState arr stats 0 0 0)))
      as (st & E & _).
    exists st. split; [exact E|].
    destruct (run_post _ _ _ _ _ (heapBody_count speed soundEnabled elapsed true _) E)
      as [Hc _]. unfold cmp in *. cbn in Hc. lia.
Qed.

Lemma heapify_counts_two_witness :
  exists st',
    heapify 50 true 0 true 1 0 (mkState [bar 7] stats0 0 0 0) = Ok (tt, st') /\
    calls st' = 1%nat /\ cmp st' = 2%nat /\ swp st' = 0%nat /\ workingArray st' = [bar 7].
Proof.
  apply (proj1 (proj2 (heapify_counts_two 50 true 0%nat)) 0%nat 1 0
           (mkState [bar 7] stats0 0 0 0)). lia.
Defined.

(** ** Claims on the orchestrator and the generator *)






(** ** Both modes of every engine *)

Lemma nonempty_len (arr : list ArrayBar) : arr <> [] -> 1 <= len arr.
Proof. destruct arr; [congruence|]. intros _. rewrite len_cons. unfold len. lia. Qed.

Lemma sortedPermutation_agree r1 r2 arr :
  modesAgree r1 r2 -> sortedPermutation r2 arr -> sortedPermutation r1 arr.
Proof.
  intros (s1 & s2 & -> & -> & Hv & _) (st & E & Hs & Hp). inversion E; subst.
  exists s1. rewrite Hv. auto.
Qed.

Lemma mergeBody_sortedPermutation speed snd elapsed arr stats :
  sortedPermutation (run arr stats (mergeBody speed snd elapsed true)) arr.
Proof.
  destruct (run_wp _ _ _ _ (mergeBody_wp speed snd elapsed (mkState arr stats 0 0 0)))
    as (st & E & Hp & Hs).
  exists st. split; [exact E|]. split; [now apply sortedIn_Sorted|exact Hp].
Qed.

Lemma bubbleSort_sorts speed snd elapsed arr stats b :
  (b = false -> arr <> []) ->
  sortedPermutation (bubbleSort speed snd elapsed arr stats b) arr.
Proof.
  intros Hne. assert (Hb : sortedPermutation (bubbleSort speed snd elapsed arr stats true) arr)
    by apply shuffled_sortedPermutation, bubbleBody_wp.
  destruct b; [exact Hb|]. eapply sortedPermutation_agree; [|exact Hb].
  apply run_sim, bubbleBody_sim; [apply agree_refl|apply nonempty_len; auto].
Qed.

Lemma quickSort_sorts speed snd elapsed arr stats b :
  sortedPermutation (quickSort speed snd elapsed arr stats b) arr.
Proof.
  assert (Hb : sortedPermutation (quickSort speed snd elapsed arr stats true) arr)
    by apply shuffled_sortedPermutation, quickBody_wp.
  destruct b; [exact Hb|]. eapply sortedPermutation_agree; [|exact Hb].
  apply run_sim, quickBody_sim, agree_refl.
Qed.

Lemma mergeSort_sorts speed snd elapsed arr stats b :
  sortedPermutation (mergeSort speed snd elapsed arr stats b) arr.
Proof.
  assert (Hb : sortedPermutation (mergeSort speed snd elapsed arr stats true) arr)
    by apply mergeBody_sortedPermutation.
  destruct b; [exact Hb|]. eapply sortedPermutation_agree; [|exact Hb].
  apply run_sim, mergeBody_sim, agree_refl.
Qed.

Lemma heapSort_sorts speed snd elapsed arr stats b :
  (b = false -> arr <> []) ->
  sortedPermutation (heapSort speed snd elapsed arr stats b) arr.
Proof.
  intros Hne. assert (Hb : sortedPermutation (heapSort speed snd elapsed arr stats true) arr)
    by apply shuffled_sortedPermutation, heapBody_wp.
  destruct b; [exact Hb|]. eapply sortedPermutation_agree; [|exact Hb].
  apply run_sim, heapBody_sim; [apply agree_refl|apply nonempty_len; auto].
Qed.

(** X2. Interactive mode sorts.  On every non-empty array each of the four
    engines, called with [isBenchmark = false], returns, and the array it
    returns holds the values of its argument in non-decreasing order. *)
Theorem interactive_mode_sorts speed soundEnabled elapsed arr stats :
  arr <> [] ->
  sortedPermutation (bubbleSort speed soundEnabled elapsed arr stats false) arr /\
  sortedPermutation (quickSort speed soundEnabled elapsed arr stats false) arr /\
  sortedPermutation (mergeSort speed soundEnabled elapsed arr stats false) arr /\
  sortedPermutation (heapSort speed soundEnabled elapsed arr stats false) arr.
Proof.
  intros Hne. repeat split.
  - apply bubbleSort_sorts. auto.
  - apply quickSort_sorts.
  - apply mergeSort_sorts.
  - apply heapSort_sorts. auto.
Qed.

Lemma interactive_mode_sorts_witness :
  sortedPermutation (bubbleSort 50 true 0 [bar 2; bar 1] stats0 false) [bar 2; bar 1] /\
  sortedPermutation (quickSort 50 true 0 [bar 2; bar 1] stats0 false) [bar 2; bar 1] /\
  sortedPermutation (mergeSort 50 true 0 [bar 2; bar 1] stats0 false) [bar 2; bar 1] /\
  sortedPermutation (heapSort 50 true 0 [bar 2; bar 1] stats0 false) [bar 2; bar 1].
Proof. apply (interactive_mode_sorts 50 true 0%nat [bar 2; bar 1] stats0). discriminate. Defined.

(** ** One output for all engines *)

Lemma Sorted_le_unique (l1 l2 : list Z) :
  Sorted Z.le l1 -> Sorted Z.le l2 -> Permutation l1 l2 -> l1 = l2.
Proof.
  intros S1 S2.
  apply Sorted_StronglySorted in S1; [|intros x y z; lia].
  apply Sorted_StronglySorted in S2; [|intros x y z; lia].
  revert l2 S2. induction S1 as [|x l1 S1 IH Hx]; intros l2 S2 HP.
  - now apply Permutation_nil in HP.
  - destruct S2 as [|y l2 S2 Hy].
    + apply Permutation_sym, Permutation_nil in HP. discriminate.
    + rewrite Forall_forall in Hx, Hy.
      assert (Hxy : x = y).
      { assert (Hx' : x ∈ y :: l2) by (rewrite <- HP; left).
        assert (Hy' : y ∈ x :: l1) by (rewrite HP; left).
        apply elem_of_cons in Hx' as [?|Hx']; [assumption|].
        apply elem_of_cons in Hy' as [?|Hy']; [congruence|].
        specialize (Hx _ Hy'). specialize (Hy _ Hx'). lia. }
      subst y. f_equal. apply IH; [exact S2|].
      now apply Permutation_cons_inv in HP.
Qed.

Lemma sortedPermutation_output r1 r2 arr :
  sortedPermutation r1 arr -> sortedPermutation r2 arr -> output r2 = output r1.
Proof.
  intros (s1 & -> & S1 & P1) (s2 & -> & S2 & P2). cbn. f_equal.
  apply Sorted_le_unique; [assumption..|]. now rewrite P1, P2.
Qed.

(** X3. The four engines return the same values.  For every array there is
    one non-decreasing arrangement [vs] of its values that quick sort and
    merge sort return in both modes, and that bubble sort and heap sort
    return in benchmark mode and, when the array is not empty, in
    interactive mode. *)
Theorem engines_return_the_same_values speed soundEnabled elapsed arr stats :
  exists vs,
    Sorted Z.le vs /\ Permutation vs (values arr) /\
    (forall isBenchmark,
        output (quickSort speed soundEnabled elapsed arr stats isBenchmark) = Ok vs /\
        output (mergeSort speed soundEnabled elapsed arr stats isBenchmark) = Ok vs) /\
    (forall isBenchmark,
        (isBenchmark = false -> arr <> []) ->
        output (bubbleSort speed soundEnabled elapsed arr stats isBenchmark) = Ok vs /\
        output (heapSort speed soundEnabled elapsed arr stats isBenchmark) = Ok vs).
Proof.
  destruct (quickSort_sorts speed soundEnabled elapsed arr stats true) as (st & E & Hs & Hp).
  assert (Hq : sortedPermutation (quickSort speed soundEnabled elapsed arr stats true) arr)
    by (exists st; auto).
  assert (Ho : output (quickSort speed soundEnabled elapsed arr stats true)
               = Ok (values (workingArray st))) by now rewrite E.
  exists (values (workingArray st)). split; [exact Hs|]. split; [exact Hp|].
  split; intros b; [|intros Hne]; split; rewrite <- Ho;
    apply (sortedPermutation_output _ _ arr); try exact Hq.
  - apply quickSort_sorts.
  - apply mergeSort_sorts.
  - now apply bubbleSort_sorts.
  - now apply heapSort_sorts.
Qed.

Lemma engines_return_the_same_values_witness :
  output (bubbleSort 50 true 0 [bar 2; bar 1] stats0 false) = Ok [1; 2] /\
  output (heapSort 50 true 0 [bar 2; bar 1] stats0 false) = Ok [1; 2].
Proof.
  destruct (engines_return_the_same_values 50 true 0%nat [bar 2; bar 1] stats0)
    as (vs & _ & _ & Hqm & Hbh).
  destruct (Hqm true) as [Hq _]. vm_compute in Hq. inversion Hq; subst vs.
  apply (Hbh false). discriminate.
Defined.

(** ** Counters of whole runs *)

(** *** Bubble sort: swaps and inversions *)

Lemma inversions_swap (l1 l2 : list Z) a b :
  b < a -> inversions (l1 ++ a :: b :: l2) = S (inversions (l1 ++ b :: a :: l2)).
Proof.
  intros Hba. induction l1 as [|x l1 IH]; cbn [app inversions].
  - cbn [List.filter].
    destruct (Z.ltb_spec b a) as [_|?]; [|lia].
    destruct (Z.ltb_spec a b) as [?|_]; [lia|]. cbn [length]. lia.
  - rewrite IH. rewrite !List.filter_app, !length_app. cbn [List.filter].
    destruct (a <? x), (b <? x); cbn [length]; lia.
Qed.

Lemma inversions_sorted (l : list Z) : Sorted Z.le l -> inversions l = 0%nat.
Proof.
  intros Hs. apply Sorted_StronglySorted in Hs; [|intros x y z; lia].
  induction Hs as [|x l Hs IH Hx]; cbn [inversions]; [reflexivity|].
  rewrite IH, Nat.add_0_r. clear IH Hs.
  induction Hx as [|y l Hy Hx IH]; cbn [List.filter]; [reflexivity|].
  destruct (Z.ltb_spec y x); [lia|exact IH].
Qed.

Lemma adjacent_split (l : list ArrayBar) j a b :
  get l j = Some a -> get l (j + 1) = Some b ->
  exists l1 l2, l = l1 ++ a :: b :: l2 /\ put (put l j b) (j + 1) a = l1 ++ b :: a :: l2.
Proof.
  unfold get, put. destruct (Z.ltb_spec j 0) as [?|Hj]; [discriminate|].
  destruct (Z.ltb_spec (j + 1) 0) as [?|_]; [lia|].
  replace (Z.to_nat (j + 1)) with (S (Z.to_nat j)) by lia.
  generalize (Z.to_nat j). clear j Hj. intros i Ha Hb.
  assert (Hl : l = take i l ++ a :: b :: drop (S (S i)) l).
  { rewrite <- (take_drop i l) at 1. f_equal.
    rewrite (drop_S _ _ _ Ha). f_equal. apply drop_S, Hb. }
  assert (Hi : length (take i l) = i).
  { apply length_take_le. apply lookup_lt_Some in Ha. lia. }
  exists (take i l), (drop (S (S i)) l). split; [exact Hl|].
  revert Hi. generalize (take i l) (drop (S (S i)) l) Hl. clear.
  intros l1 l2 -> <-.
  rewrite insert_app_r_alt by lia. rewrite Nat.sub_diag. cbn [insert list_insert].
  rewrite insert_app_r_alt by lia.
  replace (S (length l1) - length l1)%nat with 1%nat by lia. reflexivity.
Qed.

Lemma swap_inversions (l : list ArrayBar) j a b :
  get l j = Some a -> get l (j + 1) = Some b -> value b < value a ->
  inversions (values l) = S (inversions (values (put (put l j b) (j + 1) a))).
Proof.
  intros Ha Hb Hlt. destruct (adjacent_split l j a b Ha Hb) as (l1 & l2 & -> & ->).
  unfold values. rewrite !map_app. cbn [map]. now apply inversions_swap.
Qed.

Lemma bubbleInner_inversions speed sound b j st :
  post (bubbleInner speed sound b j tt) st
       (fun _ st' =>
          (swp st' + inversions (values (workingArray st'))
           = swp st + inversions (values (workingArray st)))%nat).
Proof.
  unfold bubbleInner. post_steps.
  all: counters.
  - assert (Hlt : value b0 < value a1).
    { rewrite <- (get_val _ _ _ H4), <- (get_val _ _ _ H5), !(values_val _ _ _ Ev1).
      rewrite (get_val _ _ _ H0), (get_val _ _ _ H1). lia. }
    rewrite Ev, Ev0, <- Ev2, <- Ev1, (swap_inversions _ _ _ _ H4 H5 Hlt). lia.
  - now rewrite Ev, Ev0.
Qed.

Lemma bubblePass_inversions speed sound b n i st :
  post (bubblePass speed sound b n i tt) st
       (fun _ st' =>
          (swp st' + inversions (values (workingArray st'))
           = swp st + inversions (values (workingArray st)))%nat).
Proof.
  unfold bubblePass. post_step. unfold forRange. eapply post_mono.
  - apply (post_forUp
             (fun (_ : Z) (_ : unit) st' =>
                (swp st' + inversions (values (workingArray st'))
                 = swp st + inversions (values (workingArray st)))%nat)).
    + reflexivity.
    + intros j [] st' _ Hinv. eapply post_mono; [apply bubbleInner_inversions|].
      cbn beta. intros [] st2 H2. lia.
  - cbn beta. intros [] st' Hinv. post_steps. counters. now rewrite Ev.
Qed.

Lemma bubbleBody_inversions speed sound elapsed b st :
  post (bubbleBody speed sound elapsed b) st
       (fun _ st' =>
          (swp st' + inversions (values (workingArray st'))
           = swp st + inversions (values (workingArray st)))%nat).
Proof.
  unfold bubbleBody. post_steps. unfold forRange. eapply post_mono.
  - apply (post_forUp
             (fun (_ : Z) (_ : unit) st' =>
                (swp st' + inversions (values (workingArray st'))
                 = swp st + inversions (values (workingArray st)))%nat)).
    + reflexivity.
    + intros i [] st' _ Hinv. eapply post_mono; [apply bubblePass_inversions|].
      cbn beta. intros [] st2 H2. lia.
  - cbn beta. intros [] st' Hinv. post_steps. counters. now rewrite Ev.
Qed.

(** X4. Bubble sort counts one swap for each inversion.  A call in benchmark
    mode, or on a non-empty array, returns with [currentStats.swaps] raised
    by the number of pairs of bars of its argument that stand in the wrong
    order. *)
Theorem bubble_swaps_are_inversions speed soundEnabled elapsed arr stats isBenchmark :
  (isBenchmark = false -> arr <> []) ->
  exists st,
    bubbleSort speed soundEnabled elapsed arr stats isBenchmark = Ok st /\
    swp st = (swaps stats + inversions (values arr))%nat.
Proof.
  intros Hne.
  destruct (bubbleSort_sorts speed soundEnabled elapsed arr stats isBenchmark Hne)
    as (st & E & Hs & _).
  exists st. split; [exact E|].
  pose proof (run_post _ _ _ _ _
                (bubbleBody_inversions speed soundEnabled elapsed isBenchmark _) E) as H.
  cbv beta in H. rewrite (inversions_sorted _ Hs) in H. unfold swp in *. cbn [workingArray currentStats swaps] in H. lia.
Qed.

Lemma bubble_swaps_are_inversions_witness :
  exists st,
    bubbleSort 50 true 0 (map bar [3; 1; 2]) stats0 false = Ok st /\
    swp st = Nat.add (swaps stats0) (inversions (values (map bar [3; 1; 2]))).
Proof.
  apply (bubble_swaps_are_inversions 50 true 0%nat (map bar [3; 1; 2]) stats0 false).
  discriminate.
Defined.

(** *** Quick sort: partition calls, comparisons and swaps *)

Lemma quickSortHelper_calls speed sound b fuel :
  forall low high st,
    post (quickSortHelper speed sound fuel b low high) st
         (fun _ st' =>
            let s := Z.max 0 (high - low) in
            let called := Z.of_nat (calls st') - Z.of_nat (calls st) in
            let compared := Z.of_nat (cmp st') - Z.of_nat (cmp st) in
            let swapped := Z.of_nat (swp st') - Z.of_nat (swp st) in
            0 <= called <= s /\ s <= compared /\ swapped <= compared + called).
Proof.
  induction fuel as [|f IH]; intros low high st; cbn [quickSortHelper];
    destruct (Z.ltb_spec low high) as [Hlt|Hge].
  1: apply post_throw.
  1, 3: apply post_ret; cbn zeta; lia.
  post_step. eapply post_mono; [apply partition_count; lia|].
  cbn beta. intros pi st1 (Hpi & Hc1 & Hcmp1 & Hswp1).
  post_step. eapply post_mono; [apply IH|].
  cbn beta zeta. intros [] st2 H2.
  eapply post_mono; [apply IH|].
  cbn beta zeta. intros [] st3 H3. lia.
Qed.

(** X5. The counters of quick sort, in both modes and for every array of [n]
    bars: [partition] is entered at most [max 0 (n - 1)] times, at least
    [max 0 (n - 1)] comparisons are counted, and the swaps counted are at
    most the comparisons counted plus one for each call of [partition]. *)
Theorem quick_counters_bounds speed soundEnabled elapsed arr stats isBenchmark :
  exists st,
    quickSort speed soundEnabled elapsed arr stats isBenchmark = Ok st /\
    let compared := Z.of_nat (cmp st) - Z.of_nat (comparisons stats) in
    let swapped := Z.of_nat (swp st) - Z.of_nat (swaps stats) in
    Z.of_nat (calls st) <= Z.max 0 (len arr - 1) /\
    Z.max 0 (len arr - 1) <= compared /\
    swapped <= compared + Z.of_nat (calls st).
Proof.
  destruct (quickSort_sorts speed soundEnabled elapsed arr stats isBenchmark)
    as (st & E & _).
  exists st. split; [exact E|].
  cbn zeta. pattern st. eapply run_post; [|exact E]. unfold quickBody. post_steps.
  eapply post_mono; [apply quickSortHelper_calls|]. cbn beta zeta.
  intros [] st1 H1. post_steps.
  all: counters; replace (len arr - 1 - 0) with (len arr - 1) in H1 by lia; lia.
Qed.

(** *** Heap sort: comparisons against swaps *)

(** X7. Heap sort counts two comparisons for each swap and two for each
    call of [heapify] made while the heap is built: a call in benchmark
    mode, or on a non-empty array of [n] bars, returns with
    comparisons = 2 * (swaps + n / 2), whatever the values are. *)
Theorem heap_comparisons_from_swaps speed soundEnabled elapsed arr stats isBenchmark :
  (isBenchmark = false -> arr <> []) ->
  exists st,
    heapSort speed soundEnabled elapsed arr stats isBenchmark = Ok st /\
    Z.of_nat (cmp st) - Z.of_nat (comparisons stats)
      = 2 * (Z.of_nat (swp st) - Z.of_nat (swaps stats) + len arr / 2).
Proof.
  intros Hne.
  destruct (heapSort_sorts speed soundEnabled elapsed arr stats isBenchmark Hne)
    as (st & E & _).
  exists st. split; [exact E|].
  destruct (run_post _ _ _ _ _ (heapBody_count speed soundEnabled elapsed isBenchmark _) E)
    as [Hc Hs]. unfold cmp, swp in *. cbn [workingArray currentStats comparisons swaps calls] in *.
  lia.
Qed.

Lemma heap_comparisons_from_swaps_witness :
  exists st,
    heapSort 50 true 0 (map bar [3; 1; 2]) stats0 false = Ok st /\
    Z.of_nat (cmp st) - Z.of_nat (comparisons stats0)
      = 2 * (Z.of_nat (swp st) - Z.of_nat (swaps stats0) + len (map bar [3; 1; 2]) / 2).
Proof.
  apply (heap_comparisons_from_swaps 50 true 0%nat (map bar [3; 1; 2]) stats0 false).
  discriminate.
Defined.

(** *** Merge sort: placements and comparisons *)

Lemma mergeLoop_bounds speed sound b L R n1 n2 fuel :
  forall i j k st,
    0 <= i <= n1 -> 0 <= j <= n2 ->
    post (mergeLoop speed sound fuel b L R n1 n2 i j k) st
         (fun ijk st' =>
            let i' := fst (fst ijk) in
            let j' := snd (fst ijk) in
            let placed := (i' - i) + (j' - j) in
            i <= i' <= n1 /\ j <= j' <= n2 /\
            (i < n1 \/ j < n2 -> i' < n1 \/ j' < n2) /\
            (i < n1 -> j < n2 -> 1 <= placed) /\
            calls st' = calls st /\
            Z.of_nat (cmp st') = Z.of_nat (cmp st) + placed /\
            Z.of_nat (swp st') = Z.of_nat (swp st) + placed).
Proof.
  induction fuel as [|f IH]; intros i j k st Hi Hj; cbn [mergeLoop];
    destruct (Z.ltb_spec i n1) as [Hi1|Hi1], (Z.ltb_spec j n2) as [Hj1|Hj1]; cbn [andb].
  all: try (apply post_ret; cbn [fst snd]; lia).
  1: apply post_throw.
  post_steps.
  all: match goal with |- post (if ?c then _ else _) _ _ => destruct c end.
  all: post_steps; cbn [fst snd].
  all: (eapply post_mono; [apply IH; lia|]); cbn beta zeta;
    intros [[i' j'] k'] stz; cbn [fst snd]; counters; lia.
Qed.

Lemma merge_count speed sound b left mid right st :
  left <= mid < right ->
  post (merge speed sound b left mid right) st
       (fun _ st' =>
          calls st' = S (calls st) /\
          Z.of_nat (swp st') = Z.of_nat (swp st) + (right - left + 1) /\
          1 <= Z.of_nat (cmp st') - Z.of_nat (cmp st) <= right - left).
Proof.
  intros Hlr. unfold merge. post_steps.
  eapply post_mono; [apply mergeLoop_bounds; lia|]. cbn beta zeta.
  intros [[i' j'] k'] st1. cbn [fst snd]. intros (Hi & Hj & Hrest & Hone & Hc1 & Hcmp1 & Hswp1).
  post_step. eapply post_mono; [apply drain_count|]. cbn beta.
  intros k2 st2 (Hcmp2 & Hc2 & Hswp2 & _).
  post_step. eapply post_mono; [apply drain_count|]. cbn beta.
  intros k3 st3 (Hcmp3 & Hc3 & Hswp3 & _).
  post_steps. counters. lia.
Qed.

Lemma mergeSortHelper_count speed sound b fuel :
  forall left right st,
    post (mergeSortHelper speed sound fuel b left right) st
         (fun _ st' =>
            let d := Z.max 0 (right - left) in
            let placed := mergePlacements fuel (d + 1) in
            Z.of_nat (calls st') = Z.of_nat (calls st) + d /\
            Z.of_nat (swp st') = Z.of_nat (swp st) + placed /\
            d <= Z.of_nat (cmp st') - Z.of_nat (cmp st) <= placed - d).
Proof.
  assert (Hbase : forall fuel left right st, right <= left ->
            post (ret tt) st
              (fun _ st' =>
                 let d := Z.max 0 (right - left) in
                 let placed := mergePlacements fuel (d + 1) in
                 Z.of_nat (calls st') = Z.of_nat (calls st) + d /\
                 Z.of_nat (swp st') = Z.of_nat (swp st) + placed /\
                 d <= Z.of_nat (cmp st') - Z.of_nat (cmp st) <= placed - d)).
  { intros fuel' left right st Hle. apply post_ret. cbn zeta.
    replace (Z.max 0 (right - left)) with 0 by lia.
    replace (mergePlacements fuel' (0 + 1)) with 0 by (destruct fuel'; reflexivity). lia. }
  induction fuel as [|f IH]; intros left right st; cbn [mergeSortHelper];
    destruct (Z.ltb_spec left right) as [Hlt|Hge]; [apply post_throw|now apply Hbase| |now apply Hbase].
  cbn zeta. set (mid := (left + right) / 2).
  assert (Hmid : left <= mid < right /\ mid - left = (right - left) / 2)
    by (unfold mid; Z.to_euclidean_division_equations; lia).
  post_step. eapply post_mono; [apply IH|]. cbn beta zeta. intros [] st1 H1.
  post_step. eapply post_mono; [apply IH|]. cbn beta zeta. intros [] st2 H2.
  eapply post_mono; [apply merge_count; lia|]. cbn beta. intros [] st3 H3.
  replace (Z.max 0 (mid - left)) with (mid - left) in H1 by lia.
  replace (Z.max 0 (right - (mid + 1))) with (right - mid - 1) in H2 by lia.
  replace (Z.max 0 (right - left)) with (right - left) by lia.
  cbn [mergePlacements].
  destruct (Z.ltb_spec (right - left + 1) 2) as [?|_]; [lia|].
  replace (right - left + 1 - (right - left + 1) / 2) with (mid - left + 1)
    by (Z.to_euclidean_division_equations; lia).
  replace ((right - left + 1) / 2) with (right - mid - 1 + 1)
    by (Z.to_euclidean_division_equations; lia).
  lia.
Qed.

Lemma mergePlacements_bound fuel :
  forall s, 1 <= s -> 0 <= mergePlacements fuel s <= s * Z.log2_up s.
Proof.
  induction fuel as [|f IH]; intros s Hs; cbn [mergePlacements];
    destruct (Z.ltb_spec s 2) as [Hlt|Hge].
  1, 2, 3: pose proof (Z.log2_up_nonneg s); nia.
  assert (Hh : 1 <= s / 2 /\ 1 <= s - s / 2 /\ s / 2 <= s - s / 2)
    by (Z.to_euclidean_division_equations; lia).
  destruct (IH (s / 2)) as [A1 A2]; [lia|]. destruct (IH (s - s / 2)) as [B1 B2]; [lia|].
  assert (Hl : 1 <= Z.log2_up s) by (apply (Z.log2_up_le_mono 2 s); lia).
  assert (Hup : Z.log2_up (s - s / 2) <= Z.log2_up s - 1).
  { apply Z.log2_up_le_pow2; [lia|].
    pose proof (Z.log2_up_spec s ltac:(lia)) as [_ Hp].
    replace (Z.log2_up s) with (Z.succ (Z.log2_up s - 1)) in Hp by lia.
    rewrite Z.pow_succ_r in Hp by lia. Z.to_euclidean_division_equations; lia. }
  assert (Hdn : Z.log2_up (s / 2) <= Z.log2_up s - 1).
  { etransitivity; [|exact Hup]. apply Z.log2_up_le_mono. lia. }
  pose proof (Z.log2_up_nonneg (s / 2)). pose proof (Z.log2_up_nonneg (s - s / 2)).
  split; [lia|]. nia.
Qed.

(** X6. The counters of merge sort, in both modes and for every array of
    [n] bars.  The placements counted in [currentStats.swaps] depend on [n]
    only ([mergePlacements]) and are at most [n * ceil(log2 n)]; [merge] is
    entered [max 0 (n - 1)] times; the comparisons counted lie between
    [max 0 (n - 1)] and the placements less [max 0 (n - 1)]. *)
Theorem merge_counters_by_length speed soundEnabled elapsed arr stats isBenchmark :
  exists st,
    mergeSort speed soundEnabled elapsed arr stats isBenchmark = Ok st /\
    let n := len arr in
    let placed := Z.of_nat (swp st) - Z.of_nat (swaps stats) in
    let compared := Z.of_nat (cmp st) - Z.of_nat (comparisons stats) in
    placed = mergePlacements (Z.to_nat n) n /\
    placed <= n * Z.log2_up n /\
    Z.of_nat (calls st) = Z.max 0 (n - 1) /\
    Z.max 0 (n - 1) <= compared <= placed - Z.max 0 (n - 1).
Proof.
  destruct (mergeSort_sorts speed soundEnabled elapsed arr stats isBenchmark)
    as (st & E & _).
  exists st. split; [exact E|]. cbn zeta.
  assert (Hn : 0 <= len arr) by (unfold len; lia).
  assert (Hp : mergePlacements (Z.to_nat (len arr)) (Z.max 0 (len arr - 1 - 0) + 1)
               = mergePlacements (Z.to_nat (len arr)) (len arr)).
  { destruct (Z.eq_dec (len arr) 0) as [->|]; [reflexivity|]. f_equal. lia. }
  assert (Hb : mergePlacements (Z.to_nat (len arr)) (len arr) <= len arr * Z.log2_up (len arr)).
  { destruct (Z.eq_dec (len arr) 0) as [->|]; [vm_compute; discriminate|].
    apply mergePlacements_bound. lia. }
  revert Hp Hb. generalize (mergePlacements (Z.to_nat (len arr)) (len arr)). intros P Hp Hb.
  pattern st. eapply run_post; [|exact E]. unfold mergeBody. post_steps.
  eapply post_mono; [apply mergeSortHelper_count|]. cbn beta zeta.
  intros [] st1 H1. cbn [workingArray] in H1. rewrite Hp in H1.
  replace (Z.max 0 (len arr - 1 - 0)) with (Z.max 0 (len arr - 1)) in H1 by lia.
  post_steps.
  all: counters; lia.
Qed.

(** ** Runs followed step by step *)

(** One step of a run, every effect kept (the display counters and the
    flags included). *)
Ltac run_step :=
  lazymatch goal with
  | |- post (bind _ _) _ _ => apply post_bind
  | |- post (ret _) _ _ => apply post_ret
  | |- post (throw _) _ _ => apply post_throw
  | |- post (when_ true _) _ _ => unfold when_ at 1
  | |- post (when_ false _) _ _ => apply post_ret
  | |- post (when_ ?c _) _ _ => apply post_when; intros ?
  | |- post (if ?c then _ else _) _ _ =>
      first [ let v := eval vm_compute in c in
              lazymatch v with
              | true => change c with true
              | false => change c with false
              end; cbn iota
            | destruct c eqn:? ]
  | |- post incrComparisons _ _ => eapply post_total; [reflexivity|]
  | |- post incrSwaps _ _ => eapply post_total; [reflexivity|]
  | |- post enter _ _ => eapply post_total; [reflexivity|]
  | |- post setArray _ _ => eapply post_total; [reflexivity|]
  | |- post (sleep _) _ _ => eapply post_total; [reflexivity|]
  | |- post (stamp _) _ _ => eapply post_total; [reflexivity|]
  | |- post getLength _ _ => eapply post_total; [reflexivity|]
  | |- post getArray _ _ => eapply post_total; [reflexivity|]
  | |- post markAllSorted _ _ => eapply post_total; [reflexivity|]
  | |- post (at_ _) _ _ => apply post_at; intros ? ?
  | |- post (playNoteAt _) _ _ => unfold playNoteAt
  | |- post (elem _ _ _) _ _ => apply post_elem; intros ? ?
  | |- post (store _ _) _ _ => apply post_store; intros ?
  | |- post (swapCells _ _) _ _ => apply post_swapCells; intros ? ? ? ?
  | |- post (setComparing _ _) _ _ => apply post_modify; intros ? ?
  | |- post (setSorted _ _) _ _ => apply post_modify; intros ? ?
  | |- post (setSwapping _ _) _ _ => apply post_modify; intros ? ?
  | |- post (setSwappingIfPresent _ _) _ _ =>
      apply post_setSwappingIfPresent; [intros ? ?|intros ?]
  | |- post (pickLarger _ _ _) _ _ => apply post_pickLarger; intros ? ?
  end.

Ltac run_steps :=
  cbn [negb andb workingArray currentStats frames naps calls];
  repeat (run_step; cbn [negb andb workingArray currentStats frames naps calls]).

(** ** Benchmark mode shows nothing *)

Lemma unseen_refl st : unseen st st.
Proof. split; reflexivity. Qed.

Lemma unseen_trans st1 st2 st3 : unseen st1 st2 -> unseen st2 st3 -> unseen st1 st3.
Proof. unfold unseen. intros [] []. split; congruence. Qed.

Lemma unseen_forUp {S} (body : Z -> S -> M S) count :
  (forall j s st, post (body j s) st (fun _ => unseen st)) ->
  forall j s st, post (forUp count j body s) st (fun _ => unseen st).
Proof.
  intros Hbody. induction count as [|c IH]; intros j s st; cbn [forUp].
  - apply post_ret, unseen_refl.
  - apply post_bind. eapply post_mono; [apply Hbody|]. cbn beta. intros s1 st1 Hu1.
    eapply post_mono; [apply IH|]. cbn beta. intros s2 st2 Hu2.
    eapply unseen_trans; eassumption.
Qed.

Lemma unseen_forDown (body : Z -> M unit) count :
  (forall j st, post (body j) st (fun _ => unseen st)) ->
  forall j st, post (forDown count j body) st (fun _ => unseen st).
Proof.
  intros Hbody. induction count as [|c IH]; intros j st; cbn [forDown].
  - apply post_ret, unseen_refl.
  - apply post_bind. eapply post_mono; [apply Hbody|]. cbn beta. intros s1 st1 Hu1.
    eapply post_mono; [apply IH|]. cbn beta. intros s2 st2 Hu2.
    eapply unseen_trans; eassumption.
Qed.

Ltac unseen_now := solve [split; reflexivity].

Ltac unseen_close :=
  unfold unseen in *; cbn [frames naps] in *;
  repeat match goal with H : _ /\ _ |- _ => destruct H end;
  split; congruence.


Lemma bubbleBody_unseen speed sound elapsed st :
  post (bubbleBody speed sound elapsed true) st (fun _ => unseen st).
Proof.
  unfold bubbleBody. run_steps. unfold forRange.
  eapply post_mono.
  { apply unseen_forUp. intros i [] st1. unfold bubblePass. run_steps. unfold forRange.
    eapply post_mono.
    { apply unseen_forUp. intros j [] st2. unfold bubbleInner. run_steps; unseen_now. }
    cbn beta. intros [] st2 Hu2. run_steps. unseen_close. }
  cbn beta. intros [] st1 Hu1. run_steps. unseen_close.
Qed.

Lemma partition_unseen speed sound low high st :
  post (partition speed sound true low high) st (fun _ => unseen st).
Proof.
  unfold partition. run_steps. unfold forRange. eapply post_mono.
  { apply unseen_forUp. intros j i st1. unfold partitionStep. run_steps; unseen_now. }
  cbn beta. intros i st1 Hu1. run_steps. unseen_close.
Qed.

Lemma quickSortHelper_unseen speed sound fuel :
  forall low high st,
    post (quickSortHelper speed sound fuel true low high) st (fun _ => unseen st).
Proof.
  induction fuel as [|f IH]; intros low high st; cbn [quickSortHelper];
    destruct (low <? high); try apply post_throw; try (apply post_ret, unseen_refl).
  apply post_bind. eapply post_mono; [apply partition_unseen|].
  cbn beta. intros pi st1 Hu1.
  apply post_bind. eapply post_mono; [apply IH|]. cbn beta. intros [] st2 Hu2.
  eapply post_mono; [apply IH|]. cbn beta. intros [] st3 Hu3.
  unseen_close.
Qed.

Lemma quickBody_unseen speed sound elapsed st :
  post (quickBody speed sound elapsed true) st (fun _ => unseen st).
Proof.
  unfold quickBody. run_steps.
  eapply post_mono; [apply quickSortHelper_unseen|]. cbn beta. intros [] st1 Hu1.
  run_steps. unseen_close.
Qed.

Lemma heapify_unseen speed sound fuel :
  forall n i st, post (heapify speed sound fuel true n i) st (fun _ => unseen st).
Proof.
  assert (Hbody : forall self n i st,
            (forall c st1, post (self n c) st1 (fun _ => unseen st1)) ->
            post (heapifyBody speed sound self true n i) st (fun _ => unseen st)).
  { intros self n i st Hself. unfold heapifyBody. run_steps.
    - eapply post_mono; [apply Hself|]. cbn beta. intros [] stR HR. run_steps. unseen_close.
    - unseen_now. }
  induction fuel as [|f IH]; intros n i st; cbn [heapify]; apply Hbody.
  - intros c st1. apply post_throw.
  - intros c st1. apply IH.
Qed.

Lemma heapBody_unseen speed sound elapsed st :
  post (heapBody speed sound elapsed true) st (fun _ => unseen st).
Proof.
  unfold heapBody. run_steps.
  eapply post_mono; [apply unseen_forDown; intros j st1; apply heapify_unseen|].
  cbn beta. intros [] st1 Hu1. run_steps.
  eapply post_mono.
  { apply unseen_forDown. intros j st2. unfold extractStep. run_steps.
    eapply post_mono; [apply heapify_unseen|]. cbn beta. intros [] st3 Hu3. unseen_close. }
  cbn beta. intros [] st2 Hu2. run_steps. unseen_close.
Qed.

Lemma mergeLoop_unseen speed sound L R n1 n2 fuel :
  forall i j k st,
    post (mergeLoop speed sound fuel true L R n1 n2 i j k) st (fun _ => unseen st).
Proof.
  induction fuel as [|f IH]; intros i j k st; cbn [mergeLoop];
    destruct ((i <? n1) && (j <? n2)); try apply post_throw;
    try (apply post_ret, unseen_refl).
  run_steps.
  all: eapply post_mono; [apply IH|]; cbn beta; intros ijk st1 Hu1; unseen_close.
Qed.

Lemma merge_unseen speed sound left mid right st :
  post (merge speed sound true left mid right) st (fun _ => unseen st).
Proof.
  unfold merge. run_steps.
  eapply post_mono; [apply mergeLoop_unseen|]. cbn beta. intros ijk st3 Hu3.
  apply post_bind. unfold forRange. eapply post_mono.
  { apply unseen_forUp. intros j k st4. unfold drainStep. run_steps. unseen_now. }
  cbn beta. intros k4 st4 Hu4.
  apply post_bind. eapply post_mono.
  { apply unseen_forUp. intros j k st5. unfold drainStep. run_steps. unseen_now. }
  cbn beta. intros k5 st5 Hu5. run_steps. unseen_close.
Qed.

Lemma mergeSortHelper_unseen speed sound fuel :
  forall left right st,
    post (mergeSortHelper speed sound fuel true left right) st (fun _ => unseen st).
Proof.
  induction fuel as [|f IH]; intros left right st; cbn [mergeSortHelper];
    destruct (left <? right); try apply post_throw; try (apply post_ret, unseen_refl).
  cbn zeta. apply post_bind. eapply post_mono; [apply IH|]. cbn beta. intros [] st1 Hu1.
  apply post_bind. eapply post_mono; [apply IH|]. cbn beta. intros [] st2 Hu2.
  eapply post_mono; [apply merge_unseen|]. cbn beta. intros [] st3 Hu3.
  unseen_close.
Qed.

Lemma mergeBody_unseen speed sound elapsed st :
  post (mergeBody speed sound elapsed true) st (fun _ => unseen st).
Proof.
  unfold mergeBody. run_steps.
  eapply post_mono; [apply mergeSortHelper_unseen|]. cbn beta. intros [] st1 Hu1.
  run_steps. unseen_close.
Qed.

(** ** Merging runs *)

Section MergeRuns.

Implicit Types (L R l : list ArrayBar) (a b : ArrayBar).

Lemma byValue_trans : Transitive byValue.
Proof. intros a b c. unfold byValue. lia. Qed.

Lemma byValue_total : Total byValue.
Proof. intros a b. unfold byValue. lia. Qed.

Lemma mergeRuns_nil_l R : mergeRuns [] R = map (withComparing false) R.
Proof. unfold mergeRuns. now destruct R. Qed.

Lemma mergeRuns_nil_r L : mergeRuns L [] = map (withComparing false) L.
Proof. unfold mergeRuns. now destruct L. Qed.

Lemma mergeRuns_cons a L b R :
  mergeRuns (a :: L) (b :: R)
    = if value a <=? value b
      then withComparing false a :: mergeRuns L (b :: R)
      else withComparing false b :: mergeRuns (a :: L) R.
Proof.
  unfold mergeRuns. cbn [list_merge].
  destruct (decide (byValue a b)) as [H|H], (Z.leb_spec (value a) (value b)) as [H'|H'];
    unfold byValue in H; try lia; reflexivity.
Qed.

Lemma mergeRuns_length L R : length (mergeRuns L R) = (length L + length R)%nat.
Proof.
  unfold mergeRuns. rewrite length_map, <- length_app.
  apply Permutation_length, merge_Permutation.
Qed.

Lemma barsOf_app v l1 l2 : barsOf v (l1 ++ l2) = barsOf v l1 ++ barsOf v l2.
Proof. apply List.filter_app. Qed.

Lemma barsOf_above v l : Forall (fun a => v < value a) l -> barsOf v l = [].
Proof.
  induction 1 as [|a l Ha Hl IH]; [reflexivity|]. unfold barsOf in *. cbn [List.filter].
  destruct (Z.eqb_spec (value a) v); [lia|exact IH].
Qed.

Lemma barsOf_settled v l :
  barsOf v (map (withComparing false) l) = map (withComparing false) (barsOf v l).
Proof.
  unfold barsOf. induction l as [|a l IH]; [reflexivity|]. cbn [map List.filter value withComparing].
  destruct (value a =? v); cbn [map]; now rewrite IH.
Qed.

(** Merging is stable: among bars of one value, those of [L] come first
    and each run keeps its order. *)
Lemma list_merge_stable L :
  Sorted byValue L ->
  forall R v, barsOf v (list_merge byValue L R) = barsOf v L ++ barsOf v R.
Proof.
  intros HL. apply (Sorted_StronglySorted _ (Transitive0 := byValue_trans)) in HL.
  induction HL as [|a L HL IH Ha]; intros R v.
  - now destruct R.
  - induction R as [|b R IHR]; [now rewrite app_nil_r|].
    cbn [list_merge]. destruct (decide (byValue a b)) as [Hab|Hab].
    + unfold barsOf at 1 2. cbn [List.filter]. fold (barsOf v (list_merge byValue L (b :: R))).
      fold (barsOf v L). rewrite IH. now destruct (value a =? v).
    + change ((fix list_merge_aux (l2 : list ArrayBar) : list ArrayBar :=
                 match l2 with
                 | [] => a :: L
                 | x2 :: l3 =>
                     if decide (byValue a x2)
                     then a :: list_merge byValue L (x2 :: l3)
                     else x2 :: list_merge_aux l3
                 end) R) with (list_merge byValue (a :: L) R).
      unfold barsOf at 1 3. cbn [List.filter]. fold (barsOf v (list_merge byValue (a :: L) R)).
      fold (barsOf v R). rewrite IHR.
      destruct (Z.eqb_spec (value b) v) as [Hv|Hv]; [|reflexivity].
      rewrite (barsOf_above v (a :: L)); [reflexivity|].
      unfold byValue in Hab. constructor; [lia|].
      eapply Forall_impl; [exact Ha|]. intros c Hc. unfold byValue in Hc. lia.
Qed.

Lemma mergeRuns_stable L R v :
  Sorted byValue L ->
  barsOf v (mergeRuns L R)
    = map (withComparing false) (barsOf v L) ++ map (withComparing false) (barsOf v R).
Proof.
  intros HL. unfold mergeRuns. rewrite barsOf_settled, list_merge_stable by exact HL.
  apply map_app.
Qed.

Lemma settled_Sorted l : Sorted byValue l -> Sorted byValue (map (withComparing false) l).
Proof.
  induction 1 as [|a l Hl IH Ha]; cbn [map]; constructor; [exact IH|].
  destruct Ha; cbn [map]; constructor. exact H.
Qed.

Lemma mergeRuns_Sorted L R :
  Sorted byValue L -> Sorted byValue R -> Sorted byValue (mergeRuns L R).
Proof.
  intros HL HR. apply settled_Sorted.
  apply (Sorted_list_merge _ (Total0 := byValue_total)); assumption.
Qed.

End MergeRuns.

(** ** What [sortRuns] returns *)

Section SortRuns.

Implicit Types (l : list ArrayBar).

Lemma sortRuns_short fuel l : (length l < 2)%nat -> sortRuns fuel l = l.
Proof.
  intros H. destruct fuel; cbn [sortRuns]; [reflexivity|].
  destruct (Nat.ltb_spec (length l) 2); [reflexivity|lia].
Qed.

Lemma sortRuns_long fuel l :
  (2 <= length l)%nat ->
  sortRuns (S fuel) l
    = mergeRuns (sortRuns fuel (take (S ((length l - 1) / 2)) l))
                (sortRuns fuel (drop (S ((length l - 1) / 2)) l)).
Proof.
  intros H. cbn [sortRuns]. destruct (Nat.ltb_spec (length l) 2); [lia|reflexivity].
Qed.

Lemma half_bounds (n : nat) :
  (2 <= n -> S ((n - 1) / 2) < n /\ 1 <= n - S ((n - 1) / 2))%nat.
Proof.
  intros Hn. pose proof (Nat.div_mod_eq (n - 1) 2) as E.
  pose proof (Nat.mod_upper_bound (n - 1) 2 ltac:(lia)) as B. lia.
Qed.

Lemma sortRuns_length fuel : forall l, length (sortRuns fuel l) = length l.
Proof.
  induction fuel as [|f IH]; intros l; [reflexivity|].
  destruct (Nat.lt_ge_cases (length l) 2) as [Hs|Hl].
  - now rewrite sortRuns_short.
  - rewrite sortRuns_long, mergeRuns_length, !IH by exact Hl.
    rewrite <- length_app, take_drop. reflexivity.
Qed.

Lemma short_Sorted l : (length l < 2)%nat -> Sorted byValue l.
Proof.
  destruct l as [|a [|b l]]; cbn [length]; intros H; try lia; repeat constructor.
Qed.

Lemma sortRuns_Sorted fuel :
  forall l, (length l <= fuel)%nat -> Sorted byValue (sortRuns fuel l).
Proof.
  induction fuel as [|f IH]; intros l Hf.
  - cbn [sortRuns]. apply short_Sorted. lia.
  - destruct (Nat.lt_ge_cases (length l) 2) as [Hs|Hl].
    + rewrite sortRuns_short by exact Hs. now apply short_Sorted.
    + rewrite sortRuns_long by exact Hl. pose proof (half_bounds _ Hl) as [Hh1 Hh2].
      apply mergeRuns_Sorted; apply IH.
      * rewrite length_take. lia.
      * rewrite length_drop. lia.
Qed.

Lemma settle_settle l :
  map (withComparing false) (map (withComparing false) l) = map (withComparing false) l.
Proof. rewrite map_map. apply map_ext. reflexivity. Qed.

Lemma sortRuns_stable fuel :
  forall l v, (length l <= fuel)%nat ->
    barsOf v (map (withComparing false) (sortRuns fuel l))
      = barsOf v (map (withComparing false) l).
Proof.
  induction fuel as [|f IH]; intros l v Hf; [reflexivity|].
  destruct (Nat.lt_ge_cases (length l) 2) as [Hs|Hl].
  - now rewrite sortRuns_short.
  - rewrite sortRuns_long by exact Hl. pose proof (half_bounds _ Hl) as [Hh1 Hh2].
    set (h := S ((length l - 1) / 2)) in *.
    assert (H1 : (length (take h l) <= f)%nat) by (rewrite length_take; lia).
    assert (H2 : (length (drop h l) <= f)%nat) by (rewrite length_drop; lia).
    rewrite barsOf_settled, mergeRuns_stable by (apply sortRuns_Sorted; exact H1).
    rewrite map_app, !settle_settle, <- !barsOf_settled, (IH _ v H1), (IH _ v H2).
    rewrite <- barsOf_app, <- map_app, take_drop. reflexivity.
Qed.

End SortRuns.

(** ** The merge engine computes [sortRuns] *)

Section Cells.

Implicit Types (P S X l : list ArrayBar) (a o x : ArrayBar).

Lemma put_middle P o T k x : len P = k -> put (P ++ o :: T) k x = P ++ x :: T.
Proof.
  unfold put, len. intros <-. rewrite Nat2Z.id, insert_app_r_alt by lia.
  now rewrite Nat.sub_diag.
Qed.

Lemma drop_get X i a :
  get X i = Some a -> drop (Z.to_nat i) X = a :: drop (Z.to_nat (i + 1)) X.
Proof.
  intros H. pose proof (get_Some_inside _ _ _ H) as Hi. unfold get in H.
  destruct (Z.ltb_spec i 0); [lia|].
  replace (Z.to_nat (i + 1)) with (S (Z.to_nat i)) by lia. now apply drop_S.
Qed.

Lemma slice_middle P X S lo hi :
  len P = lo -> len X = hi - lo -> slice (P ++ X ++ S) lo hi = X.
Proof.
  intros HP HX. assert (Ha : 0 <= lo) by (unfold len in HP; lia).
  assert (Hb : 0 <= hi - lo) by (unfold len in HX; lia).
  rewrite slice_seg.
  - unfold seg, len in *. replace (Z.to_nat lo) with (length P) by lia.
    rewrite drop_app_length. replace (Z.to_nat (hi - lo)) with (length X) by lia.
    apply take_app_length.
  - lia.
  - unfold len in *. rewrite !length_app. lia.
Qed.

End Cells.

Lemma drain_copies speed X count :
  forall i k st P Old S,
    workingArray st = P ++ Old ++ S -> len P = k -> length Old = count ->
    post (forUp count i (drainStep speed true X) k) st
         (fun k' st' =>
            k' = k + Z.of_nat count /\
            workingArray st'
              = P ++ map (withComparing false) (take count (drop (Z.to_nat i) X)) ++ S).
Proof.
  induction count as [|c IH]; intros i k st P Old S Hwa HP HO; cbn [forUp].
  - apply post_ret. destruct Old; [|discriminate]. split; [lia|]. now rewrite Hwa.
  - destruct Old as [|o Old]; [discriminate|]. apply post_bind. unfold drainStep.
    run_steps.
    match goal with Ha : get X i = Some ?a |- _ =>
      eapply post_mono;
        [apply (IH (i + 1) (k + 1) _ (P ++ [withComparing false a]) Old S)|];
        [cbn [workingArray]; rewrite Hwa; cbn [app];
         rewrite (put_middle P o (Old ++ S) k _ HP), <- app_assoc; reflexivity
        |unfold len in *; rewrite length_app; cbn [length]; lia
        |cbn [length] in HO; lia
        |cbn beta; intros k' st' [Hk' Hwa']; split; [lia|];
         rewrite Hwa', (drop_get _ _ _ Ha), <- app_assoc; reflexivity]
    end.
Qed.

Lemma mergeLoop_copies speed sound L R n1 n2 fuel :
  len L = n1 -> len R = n2 ->
  forall i j k st P Old S,
    workingArray st = P ++ Old ++ S -> len P = k ->
    len Old = (n1 - i) + (n2 - j) ->
    0 <= i <= n1 -> 0 <= j <= n2 ->
    post (mergeLoop speed sound fuel true L R n1 n2 i j k) st
         (fun ijk st' =>
            let i' := fst (fst ijk) in
            let j' := snd (fst ijk) in
            i <= i' <= n1 /\ j <= j' <= n2 /\ (i' = n1 \/ j' = n2) /\
            exists W Old',
              workingArray st' = P ++ W ++ Old' ++ S /\
              snd ijk = k + len W /\
              len Old' = (n1 - i') + (n2 - j') /\
              W ++ mergeRuns (drop (Z.to_nat i') L) (drop (Z.to_nat j') R)
                = mergeRuns (drop (Z.to_nat i) L) (drop (Z.to_nat j) R)).
Proof.
  intros HL HR.
  induction fuel as [|f IH]; intros i j k st P Old S Hwa HP HO Hi Hj; cbn [mergeLoop];
    destruct (Z.ltb_spec i n1) as [Hi1|Hi1], (Z.ltb_spec j n2) as [Hj1|Hj1]; cbn [andb].
  all: try (apply post_ret; cbn [fst snd]; repeat split; try lia;
            exists [], Old; unfold len in *; cbn [length app]; repeat split; (assumption || lia)).
  1: apply post_throw.
  destruct Old as [|o Old]; [unfold len in HO; cbn [length] in HO; lia|].
  run_steps.
  - (* the head of [L] is written *)
    match goal with
    | Ha : get L i = Some ?a, Hb : get R j = Some ?b |- _ =>
        pose proof (drop_get _ _ _ Ha) as HdL;
        pose proof (drop_get _ _ _ Hb) as HdR
    end.
    match goal with
    | |- post _ (mkState (put _ _ ?x) _ _ _ _) _ =>
        eapply post_mono; [apply (IH (i + 1) j (k + 1) _ (P ++ [x]) Old S)|]
    end.
    + cbn [workingArray]. rewrite Hwa. cbn [app].
      rewrite (put_middle P o (Old ++ S) k _ HP), <- app_assoc. reflexivity.
    + unfold len in *. rewrite length_app. cbn [length]. lia.
    + unfold len in *. cbn [length] in HO. lia.
    + lia.
    + lia.
    + cbn beta zeta. intros [[i' j'] k']. cbn [fst snd].
      intros st' (Hi' & Hj' & Hex & W & Old' & Hwa' & Hk' & HO' & Hm).
      repeat split; try lia. eexists (_ :: W), Old'.
      split; [rewrite Hwa', <- app_assoc; reflexivity|].
      split; [unfold len in *; cbn [length]; lia|]. split; [exact HO'|].
      rewrite HdL, HdR, mergeRuns_cons.
      match goal with H : (_ <=? _) = true |- _ => rewrite H end.
      cbn [app]. f_equal. rewrite <- HdR. exact Hm.
  - (* the head of [R] is written *)
    match goal with
    | Ha : get L i = Some ?a, Hb : get R j = Some ?b |- _ =>
        pose proof (drop_get _ _ _ Ha) as HdL;
        pose proof (drop_get _ _ _ Hb) as HdR
    end.
    match goal with
    | |- post _ (mkState (put _ _ ?x) _ _ _ _) _ =>
        eapply post_mono; [apply (IH i (j + 1) (k + 1) _ (P ++ [x]) Old S)|]
    end.
    + cbn [workingArray]. rewrite Hwa. cbn [app].
      rewrite (put_middle P o (Old ++ S) k _ HP), <- app_assoc. reflexivity.
    + unfold len in *. rewrite length_app. cbn [length]. lia.
    + unfold len in *. cbn [length] in HO. lia.
    + lia.
    + lia.
    + cbn beta zeta. intros [[i' j'] k']. cbn [fst snd].
      intros st' (Hi' & Hj' & Hex & W & Old' & Hwa' & Hk' & HO' & Hm).
      repeat split; try lia. eexists (_ :: W), Old'.
      split; [rewrite Hwa', <- app_assoc; reflexivity|].
      split; [unfold len in *; cbn [length]; lia|]. split; [exact HO'|].
      rewrite HdL, HdR, mergeRuns_cons.
      match goal with H : (_ <=? _) = false |- _ => rewrite H end.
      cbn [app]. f_equal. rewrite <- HdL. exact Hm.
Qed.

Lemma take_all {A} (n : nat) (l : list A) : length l = n -> take n l = l.
Proof. intros <-. apply firstn_all. Qed.

Lemma merge_copies speed sound left mid right st P X1 X2 S :
  workingArray st = P ++ X1 ++ X2 ++ S ->
  len P = left -> len X1 = mid - left + 1 -> len X2 = right - mid ->
  post (merge speed sound true left mid right) st
       (fun _ st' => workingArray st' = P ++ mergeRuns X1 X2 ++ S).
Proof.
  intros Hwa HP H1 H2. unfold merge. run_steps.
  assert (Hn1 : 0 <= mid - left + 1) by (unfold len in H1; lia).
  assert (Hn2 : 0 <= right - mid) by (unfold len in H2; lia).
  rewrite Hwa.
  rewrite (slice_middle P X1 (X2 ++ S) left (mid + 1)) by lia.
  replace (P ++ X1 ++ X2 ++ S) with ((P ++ X1) ++ X2 ++ S) by now rewrite <- app_assoc.
  rewrite (slice_middle (P ++ X1) X2 S (mid + 1) (right + 1))
    by (unfold len in *; rewrite ?length_app; lia).
  eapply post_mono.
  { apply (mergeLoop_copies speed sound X1 X2 _ _ _ H1 H2 0 0 left _ P (X1 ++ X2) S).
    - cbn [workingArray]. now rewrite <- !app_assoc.
    - exact HP.
    - unfold len in *. rewrite length_app. lia.
    - lia.
    - lia. }
  cbn beta zeta. intros [[i' j'] k']. cbn [fst snd Z.to_nat drop].
  intros st1 (Hi' & Hj' & Hex & W & Old' & Hwa1 & Hk' & HO' & Hm).
  apply post_bind. unfold forRange.
  eapply post_mono.
  { apply (drain_copies speed X1 _ i' k' st1 (P ++ W) (take (Z.to_nat (mid - left + 1 - i')) Old')
             (drop (Z.to_nat (mid - left + 1 - i')) Old' ++ S)).
    - rewrite Hwa1, <- !app_assoc. f_equal. f_equal. rewrite app_assoc, take_drop. reflexivity.
    - unfold len in *. rewrite length_app. lia.
    - rewrite length_take. unfold len in HO'. lia. }
  cbn beta. intros k2 st2 [Hk2 Hwa2].
  apply post_bind. eapply post_mono.
  { apply (drain_copies speed X2 _ j' k2 st2
             (P ++ W ++ map (withComparing false)
                          (take (Z.to_nat (mid - left + 1 - i')) (drop (Z.to_nat i') X1)))
             (drop (Z.to_nat (mid - left + 1 - i')) Old') S).
    - rewrite Hwa2, <- !app_assoc. reflexivity.
    - unfold len in *. rewrite !length_app, length_map, length_take, length_drop. lia.
    - rewrite length_drop. unfold len in HO'. lia. }
  cbn beta. intros k3 st3 [Hk3 Hwa3]. apply post_ret.
  change (drop (Z.to_nat 0) X1) with X1 in Hm. change (drop (Z.to_nat 0) X2) with X2 in Hm.
  rewrite Hwa3, <- Hm, <- !app_assoc. f_equal. f_equal.
  rewrite !take_all by (rewrite length_drop; unfold len in *; lia).
  destruct Hex as [->| ->].
  - rewrite (drop_ge X1) by (unfold len in H1; lia). now rewrite mergeRuns_nil_l.
  - rewrite (drop_ge X2) by (unfold len in H2; lia). now rewrite mergeRuns_nil_r.
Qed.

Lemma mergeSortHelper_copies speed sound fuel :
  forall left right st P X T,
    workingArray st = P ++ X ++ T -> len P = left -> len X = right - left + 1 ->
    post (mergeSortHelper speed sound fuel true left right) st
         (fun _ st' => workingArray st' = P ++ sortRuns fuel X ++ T).
Proof.
  induction fuel as [|f IH]; intros left right st P X T Hwa HP HX; cbn [mergeSortHelper];
    destruct (Z.ltb_spec left right) as [Hlt|Hge].
  1: apply post_throw.
  1, 3: apply post_ret; rewrite sortRuns_short by (unfold len in HX; lia); exact Hwa.
  cbn zeta. set (mid := (left + right) / 2).
  assert (Hlen : (2 <= length X)%nat) by (unfold len in HX; lia).
  pose proof (half_bounds _ Hlen) as [Hh1 Hh2].
  rewrite sortRuns_long by exact Hlen. set (h := S ((length X - 1) / 2)) in *.
  assert (Hh : Z.of_nat h = mid - left + 1).
  { unfold h, mid, len in *. rewrite Nat2Z.inj_succ, Nat2Z.inj_div, Nat2Z.inj_sub by lia.
    change (Z.of_nat 2) with 2. change (Z.of_nat 1) with 1.
    Z.to_euclidean_division_equations; lia. }
  apply post_bind. eapply post_mono.
  { apply (IH left mid st P (take h X) (drop h X ++ T)).
    - rewrite Hwa. f_equal. now rewrite app_assoc, take_drop.
    - exact HP.
    - unfold len. rewrite length_take. lia. }
  cbn beta. intros [] st1 Hwa1.
  apply post_bind. eapply post_mono.
  { apply (IH (mid + 1) right st1 (P ++ sortRuns f (take h X)) (drop h X) T).
    - rewrite Hwa1, <- app_assoc. reflexivity.
    - unfold len in *. rewrite length_app, sortRuns_length, length_take. lia.
    - unfold len in *. rewrite length_drop. lia. }
  cbn beta. intros [] st2 Hwa2.
  apply (merge_copies speed sound left mid right st2 P).
  - rewrite Hwa2, <- app_assoc. reflexivity.
  - exact HP.
  - unfold len in *. rewrite sortRuns_length, length_take. lia.
  - unfold len in *. rewrite sortRuns_length, length_drop. lia.
Qed.

Lemma mergeBody_copies speed sound elapsed st :
  post (mergeBody speed sound elapsed true) st
       (fun _ st' =>
          workingArray st' = sortRuns (length (workingArray st)) (workingArray st)).
Proof.
  unfold mergeBody. run_steps. eapply post_mono.
  { apply (mergeSortHelper_copies speed sound _ 0 (len (workingArray st) - 1) st
             [] (workingArray st) []).
    - now rewrite app_nil_r.
    - reflexivity.
    - lia. }
  cbn beta. intros [] st1 Hwa1. run_steps.
  rewrite Hwa1, app_nil_r. unfold len. now rewrite Nat2Z.id.
Qed.

(** X18. In benchmark mode merge sort returns, for every array, the result
    of the list function [sortRuns]: the array cut after its cell of index
    [(n - 1) / 2], both parts sorted the same way and merged with the left
    bar first on equal values, every bar placed as a copy with
    [isComparing: false]. *)
Theorem merge_sort_is_sortRuns speed soundEnabled elapsed arr stats :
  exists st,
    mergeSort speed soundEnabled elapsed arr stats true = Ok st /\
    workingArray st = sortRuns (length arr) arr.
Proof.
  destruct (mergeSort_sorts speed soundEnabled elapsed arr stats true) as (st & E & _).
  exists st. split; [exact E|].
  exact (run_post _ _ _ _ _ (mergeBody_copies speed soundEnabled elapsed _) E).
Qed.

(** ** Starting a run on the page's array *)

(** X14. [startSorting] on a generated array.  For each of the four
    algorithms the selector offers, the [switch] starts an engine, the run
    returns, and the array it returns has the 50 values of the generated
    array in non-decreasing order. *)
Theorem start_sorts_generated_array speed soundEnabled elapsed random algorithm :
  In algorithm selectItems ->
  exists st,
    startSorting speed soundEnabled elapsed algorithm (generateArray random) = Some (Ok st) /\
    length (workingArray st) = ARRAY_SIZE /\
    Sorted Z.le (values (workingArray st)) /\
    Permutation (values (workingArray st)) (values (generateArray random)).
Proof.
  intros Hin.
  assert (Hne : generateArray random <> []).
  { intros E. apply (f_equal (@length _)) in E.
    unfold generateArray in E. rewrite freshArray_length in E. discriminate. }
  assert (Hall : forall r, sortedPermutation r (generateArray random) ->
            exists st, Some r = Some (Ok st) /\
                       length (workingArray st) = ARRAY_SIZE /\
                       Sorted Z.le (values (workingArray st)) /\
                       Permutation (values (workingArray st)) (values (generateArray random))).
  { intros r (st & -> & Hs & Hp). exists st. split; [reflexivity|]. split; [|auto].
    apply Permutation_length in Hp. unfold values in Hp. rewrite !length_map in Hp.
    rewrite Hp. apply freshArray_length. }
  unfold selectItems in Hin. cbn [In] in Hin.
  destruct Hin as [<-|[<-|[<-|[<-|[]]]]]; cbn [startSorting String.eqb Ascii.eqb Bool.eqb];
    apply Hall.
  - now apply bubbleSort_sorts.
  - apply quickSort_sorts.
  - apply mergeSort_sorts.
  - now apply heapSort_sorts.
Qed.

Lemma start_sorts_generated_array_witness :
  exists st,
    startSorting 50 true 0 "heap" (generateArray (fun _ => 0%Q)) = Some (Ok st) /\
    length (workingArray st) = ARRAY_SIZE /\
    Sorted Z.le (values (workingArray st)) /\
    Permutation (values (workingArray st)) (values (generateArray (fun _ => 0%Q))).
Proof.
  apply (start_sorts_generated_array 50 true 0%nat (fun _ => 0%Q) "heap"%string).
  unfold selectItems. cbn. auto.
Defined.

(** ** What the benchmark measures *)

Lemma post_always {A} (m : M A) st (Q : A -> SortState -> Prop) :
  (forall a st', Q a st') -> post m st Q.
Proof. intros H a st' _. apply H. Qed.

Lemma post_stamped {A} (m : M A) elapsed st :
  post (m ;; stamp elapsed) st (fun _ st' => timeElapsed (currentStats st') = elapsed).
Proof.
  apply post_bind, post_always. intros a st1. eapply post_total; reflexivity.
Qed.

Lemma dispatch_stamped speed soundEnabled elapsed alg arr stats st :
  In alg benchAlgorithms ->
  dispatch speed soundEnabled elapsed alg arr stats = Ok st ->
  timeElapsed (currentStats st) = elapsed.
Proof.
  unfold benchAlgorithms. cbn [In].
  intros [<-|[<-|[<-|[<-|[]]]]]; cbn [dispatch String.eqb Ascii.eqb Bool.eqb]; intros E;
    pattern st; (eapply run_post; [|exact E]).
  - unfold bubbleBody. apply post_bind, post_always. intros n st1.
    apply post_bind, post_always. intros u1 st2. apply post_stamped.
  - unfold quickBody. apply post_bind, post_always. intros n st1.
    apply post_bind, post_always. intros u1 st2. apply post_stamped.
  - unfold mergeBody. apply post_bind, post_always. intros n st1.
    apply post_bind, post_always. intros u1 st2. apply post_stamped.
  - unfold heapBody. apply post_bind, post_always. intros n st1.
    apply post_bind, post_always. intros u1 st2.
    apply post_bind, post_always. intros u2 st3. apply post_stamped.
Qed.

Lemma benchAttempt_time speed soundEnabled clock random alg size :
  In alg benchAlgorithms ->
  timeElapsed <$> benchAttempt speed soundEnabled clock random alg size
    = Some (clock alg size).
Proof.
  intros Hin. unfold benchAttempt.
  destruct (dispatch_returns speed soundEnabled (clock alg size) alg
              (freshArray size MIN_VALUE MAX_VALUE (random alg size)) stats0) as [st E].
  rewrite E. cbn. f_equal. eapply dispatch_stamped; eassumption.
Qed.

Lemma freshArray_len size min max random :
  len (freshArray size min max random) = Z.of_nat size.
Proof. unfold len. now rewrite freshArray_length. Qed.

Lemma benchAttempt_bubble speed soundEnabled clock random size :
  comparisons <$> benchAttempt speed soundEnabled clock random "bubble" size
    = Some (size * (size - 1) / 2)%nat.
Proof.
  unfold benchAttempt. cbn [dispatch String.eqb Ascii.eqb Bool.eqb].
  set (arr := freshArray size MIN_VALUE MAX_VALUE (random "bubble"%string size)).
  destruct (bubbleSort_sorts speed soundEnabled (clock "bubble"%string size) arr stats0 true)
    as (st & E & _); [discriminate|].
  rewrite E. cbn [fmap option_fmap option_map]. f_equal.
  pose proof (run_post _ _ _ _ _
                (bubbleBody_count speed soundEnabled (clock "bubble"%string size) true _) E)
    as [Hc _].
  cbv beta zeta in Hc. cbn [workingArray] in Hc. unfold arr in Hc.
  rewrite freshArray_len in Hc. unfold cmp in Hc. cbn [currentStats comparisons stats0] in Hc.
  apply Nat2Z.inj. rewrite Nat2Z.inj_div, Nat2Z.inj_mul. change (Z.of_nat 2) with 2.
  apply Z.div_unique_exact; [lia|].
  destruct size as [|k]; [lia|]. rewrite Nat2Z.inj_sub by lia. lia.
Qed.

Lemma benchAttempt_merge speed soundEnabled clock random size :
  swaps <$> benchAttempt speed soundEnabled clock random "merge" size
    = Some (Z.to_nat (mergePlacements size (Z.of_nat size))).
Proof.
  unfold benchAttempt. cbn [dispatch String.eqb Ascii.eqb Bool.eqb].
  set (e := clock "merge"%string size).
  set (arr := freshArray size MIN_VALUE MAX_VALUE (random "merge"%string size)).
  assert (Hlen : len arr = Z.of_nat size) by apply freshArray_len.
  destruct (mergeSort_sorts speed soundEnabled e arr stats0 true) as (st & E & _).
  rewrite E. cbn [fmap option_fmap option_map]. f_equal.
  assert (H : Z.of_nat (swp st) - Z.of_nat (swaps stats0)
              = mergePlacements (Z.to_nat (len arr)) (len arr)).
  { pattern st. eapply run_post; [|exact E]. unfold mergeBody. post_steps.
    eapply post_mono; [apply mergeSortHelper_count|]. cbn beta zeta.
    intros [] st1 (_ & H1 & _). cbn [workingArray] in H1. post_steps.
    counters. rewrite H1.
    destruct (Z.eq_dec (len arr) 0) as [->|]; [reflexivity|].
    replace (Z.max 0 (len arr - 1 - 0) + 1) with (len arr) by lia. lia. }
  rewrite Hlen, Nat2Z.id in H. unfold swp in *. cbn [swaps stats0] in H. lia.
Qed.

Lemma omap_fmap_total {A B C} (f : A -> option B) (p : B -> C) (g : A -> C) (l : list A) :
  (forall x, p <$> f x = Some (g x)) -> omap (fun x => p <$> f x) l = map g l.
Proof. intros H. now apply omap_total. Qed.

(** X12. What [runBenchmarks] stores, for every clock and every random
    source: one result for each algorithm in the order bubble, quick, merge,
    heap; each with the five sizes, one time for each size and five
    comparison and five swap counts (no pair fails).  The comparison counts
    of bubble sort are 45, 1225, 4950, 19900, 124750 and the swap counts of
    merge sort are 34, 286, 672, 1544, 4488, whatever arrays were drawn. *)
Theorem benchmark_series speed soundEnabled clock random :
  let results := runBenchmarks speed soundEnabled clock random in
  map Bench.algorithm results = benchAlgorithms /\
  Forall (fun r => Bench.sizes r = benchSizes /\
                   Bench.times r = map (clock (Bench.algorithm r)) benchSizes /\
                   length (Bench.comparisons r) = length benchSizes /\
                   length (Bench.swaps r) = length benchSizes) results /\
  (forall r, In r results -> Bench.algorithm r = "bubble"%string ->
             map Z.of_nat (Bench.comparisons r) = [45; 1225; 4950; 19900; 124750]) /\
  (forall r, In r results -> Bench.algorithm r = "merge"%string ->
             map Z.of_nat (Bench.swaps r) = [34; 286; 672; 1544; 4488]).
Proof.
  cbn zeta. set (attempt := benchAttempt speed soundEnabled clock random).
  assert (Hres : forall r, In r (runBenchmarks speed soundEnabled clock random) ->
            exists alg, In alg benchAlgorithms /\ r = benchAlgorithm attempt alg).
  { intros r Hr. unfold runBenchmarks, runBenchmarksWith in Hr.
    apply in_map_iff in Hr as (alg & <- & Hin). eauto. }
  split; [|split; [|split]].
  - unfold runBenchmarks, runBenchmarksWith. rewrite map_map. cbn [map]. reflexivity.
  - apply Forall_forall. intros r Hr. apply list_elem_of_In in Hr.
    destruct (Hres r Hr) as (alg & Hin & ->). rewrite benchAlgorithm_eq.
    cbn [Bench.sizes Bench.times Bench.comparisons Bench.swaps Bench.algorithm].
    split; [reflexivity|]. split; [|split].
    + apply omap_fmap_total. intros size. now apply benchAttempt_time.
    + rewrite (omap_fmap_total _ _ (fun size => comparisons (default stats0 (attempt alg size)))).
      * now rewrite length_map.
      * intros size. destruct (benchAttempt_returns speed soundEnabled clock random alg size)
          as [s Hs]. unfold attempt. now rewrite Hs.
    + rewrite (omap_fmap_total _ _ (fun size => swaps (default stats0 (attempt alg size)))).
      * now rewrite length_map.
      * intros size. destruct (benchAttempt_returns speed soundEnabled clock random alg size)
          as [s Hs]. unfold attempt. now rewrite Hs.
  - intros r Hr Halg. destruct (Hres r Hr) as (alg & _ & ->). rewrite benchAlgorithm_eq in *.
    cbn [Bench.comparisons Bench.algorithm] in *. subst alg.
    rewrite (omap_fmap_total _ _ (fun size => (size * (size - 1) / 2)%nat)).
    + reflexivity.
    + intros size. apply benchAttempt_bubble.
  - intros r Hr Halg. destruct (Hres r Hr) as (alg & _ & ->). rewrite benchAlgorithm_eq in *.
    cbn [Bench.swaps Bench.algorithm] in *. subst alg.
    rewrite (omap_fmap_total _ _ (fun size => Z.to_nat (mergePlacements size (Z.of_nat size)))).
    + vm_compute. reflexivity.
    + intros size. apply benchAttempt_merge.
Qed.

(** ** The performance graph *)

(** X13. The chart of a benchmark.  After [runBenchmarks] the analytics
    panel shows [PerformanceGraphs]: its labels are the five sizes and its
    datasets are the four algorithms in order, each with its five times and
    its own colour, unfilled.  The panel never throws: [data[0].sizes] is
    only read behind the [benchmarkResults.length > 0] guard. *)
Theorem benchmark_graph speed soundEnabled clock random :
  benchmarkPanel (runBenchmarks speed soundEnabled clock random)
    = Some (Ok (benchSizes,
                [mkDataset "bubble" (map (clock "bubble"%string) benchSizes) (Some "#FF6384"%string) false;
                 mkDataset "quick" (map (clock "quick"%string) benchSizes) (Some "#36A2EB"%string) false;
                 mkDataset "merge" (map (clock "merge"%string) benchSizes) (Some "#FFCE56"%string) false;
                 mkDataset "heap" (map (clock "heap"%string) benchSizes) (Some "#4BC0C0"%string) false])) /\
  (forall benchmarkResults f, benchmarkPanel benchmarkResults <> Some (Fail f)).
Proof.
  split.
  - unfold runBenchmarks, runBenchmarksWith, benchAlgorithms. cbn [map].
    rewrite !benchAlgorithm_eq. unfold benchmarkPanel, chartData.
    cbn [length Nat.ltb Nat.leb imap Bench.sizes Bench.algorithm Bench.times lineColors
         lookup list_lookup compose].
    rewrite (omap_fmap_total _ _ (clock "bubble"%string)),
      (omap_fmap_total _ _ (clock "quick"%string)),
      (omap_fmap_total _ _ (clock "merge"%string)),
      (omap_fmap_total _ _ (clock "heap"%string)).
    + reflexivity.
    + intros size. apply benchAttempt_time. unfold benchAlgorithms. cbn. auto.
    + intros size. apply benchAttempt_time. unfold benchAlgorithms. cbn. auto.
    + intros size. apply benchAttempt_time. unfold benchAlgorithms. cbn. auto.
    + intros size. apply benchAttempt_time. unfold benchAlgorithms. cbn. auto.
  - intros [|first rest] f; cbn; congruence.
Qed.

(** ** The history and its averages *)

Lemma lookupKey_assignKey acc key t key' :
  lookupKey (assignKey acc key t) key'
    = if String.eqb key key' then Some t else lookupKey acc key'.
Proof.
  induction acc as [|[k0 t0] rest IH]; cbn [assignKey lookupKey].
  - reflexivity.
  - destruct (String.eqb_spec k0 key) as [->|Hne]; cbn [lookupKey].
    + destruct (String.eqb key key'); reflexivity.
    + rewrite IH. destruct (String.eqb_spec k0 key') as [->|Hne'].
      * destruct (String.eqb_spec key key'); [congruence|reflexivity].
      * reflexivity.
Qed.

Lemma assignKey_keys acc key t :
  map fst (assignKey acc key t)
    = match lookupKey acc key with
      | Some _ => map fst acc
      | None => map fst acc ++ [key]
      end.
Proof.
  induction acc as [|[k0 t0] rest IH]; cbn [assignKey lookupKey map fst app].
  - reflexivity.
  - destruct (String.eqb_spec k0 key) as [->|Hne]; cbn [map fst]; [reflexivity|].
    rewrite IH. destruct (lookupKey rest key); reflexivity.
Qed.

Lemma lookupKey_None acc key : lookupKey acc key = None -> ~ In key (map fst acc).
Proof.
  induction acc as [|[k0 t0] rest IH]; cbn [lookupKey map fst In]; [tauto|].
  destruct (String.eqb_spec k0 key); [discriminate|]. intros H [?|Hin]; [congruence|].
  now apply IH.
Qed.

Lemma assignKey_Forall (P : string * Tally -> Prop) acc key t :
  Forall P acc -> P (key, t) -> Forall P (assignKey acc key t).
Proof.
  intros Hacc Hnew. induction Hacc as [|[k0 t0] rest H0 Hrest IH]; cbn [assignKey].
  - repeat constructor. exact Hnew.
  - destruct (String.eqb_spec k0 key) as [->|Hne]; constructor; auto.
Qed.

Lemma tallies_snoc field sortHistory e :
  tallies field (sortHistory ++ [e]) = tallyStep field (tallies field sortHistory) e.
Proof. unfold tallies. now rewrite fold_left_app. Qed.

Lemma runsOf_snoc alg sortHistory e :
  runsOf alg (sortHistory ++ [e])
    = runsOf alg sortHistory ++ (if String.eqb (History.algorithm e) alg then [e] else []).
Proof. unfold runsOf. now rewrite List.filter_app. Qed.

Lemma sumOf_snoc field l e : sumOf field (l ++ [e]) = (sumOf field l + field e)%nat.
Proof.
  unfold sumOf. induction l as [|x l IH]; cbn [app map fold_right]; [lia|].
  rewrite IH. lia.
Qed.

Lemma tallies_lookup field sortHistory alg :
  lookupKey (tallies field sortHistory) alg = tallyOf field (runsOf alg sortHistory).
Proof.
  induction sortHistory as [|e sortHistory IH] using rev_ind; [reflexivity|].
  rewrite tallies_snoc, runsOf_snoc. unfold tallyStep. rewrite lookupKey_assignKey.
  destruct (String.eqb_spec (History.algorithm e) alg) as [Heq|Hne].
  - rewrite Heq, IH. destruct (runsOf alg sortHistory) as [|r runs];
      cbn [tallyOf default app total count];
      [unfold sumOf; cbn [map fold_right length]; do 2 f_equal; lia|].
    change (r :: runs ++ [e]) with ((r :: runs) ++ [e]).
    rewrite sumOf_snoc, length_app. cbn [length]. reflexivity.
  - now rewrite app_nil_r.
Qed.

Lemma tallies_NoDup field sortHistory : NoDup (map fst (tallies field sortHistory)).
Proof.
  induction sortHistory as [|e sortHistory IH] using rev_ind; [constructor|].
  rewrite tallies_snoc. unfold tallyStep. rewrite assignKey_keys.
  destruct (lookupKey (tallies field sortHistory) (History.algorithm e)) eqn:E; [exact IH|].
  apply NoDup_app. split; [exact IH|]. split; [|repeat constructor; apply not_elem_of_nil].
  intros k Hk Hk'. apply list_elem_of_In in Hk. apply list_elem_of_singleton in Hk'. subst k.
  now apply lookupKey_None in E.
Qed.

Lemma tallies_entries field sortHistory :
  Forall (fun kt => (1 <= count (snd kt))%nat /\
                    exists e, In e sortHistory /\ History.algorithm e = fst kt)
         (tallies field sortHistory).
Proof.
  induction sortHistory as [|e sortHistory IH] using rev_ind; [constructor|].
  rewrite tallies_snoc. unfold tallyStep. apply assignKey_Forall.
  - eapply Forall_impl; [exact IH|]. intros [k t] [Hc (e' & He' & Hk)]. split; [exact Hc|].
    exists e'. split; [|exact Hk]. apply in_or_app. auto.
  - cbn [fst snd count]. split; [lia|]. exists e. split; [|reflexivity].
    apply in_or_app. right. left. reflexivity.
Qed.

(** X15. The two [reduce] objects over a history whose entries name
    algorithms of the selector.  For each algorithm, [averageStats] holds
    the sum of [timeElapsed] over its entries and their number, and the
    comparison object holds the sum of [comparisons] and their number;
    an algorithm with no entry has no key.  No key occurs twice, every key
    is an algorithm of the selector, and every [count] is at least 1, so the
    averages shown never divide by zero. *)
Theorem history_tallies sortHistory :
  Forall (fun e => In (History.algorithm e) selectItems) sortHistory ->
  (forall alg,
      lookupKey (averageStats sortHistory) alg
        = tallyOf History.timeElapsed (runsOf alg sortHistory) /\
      lookupKey (comparisonStats sortHistory) alg
        = tallyOf History.comparisons (runsOf alg sortHistory)) /\
  NoDup (map fst (averageStats sortHistory)) /\
  NoDup (map fst (comparisonStats sortHistory)) /\
  (forall alg t,
      In (alg, t) (averageStats sortHistory) \/ In (alg, t) (comparisonStats sortHistory) ->
      (1 <= count t)%nat /\ In alg selectItems).
Proof.
  intros Hnames. split; [|split; [|split]].
  - intros alg. split; apply tallies_lookup.
  - apply tallies_NoDup.
  - apply tallies_NoDup.
  - assert (Hall : forall field alg t, In (alg, t) (tallies field sortHistory) ->
              (1 <= count t)%nat /\ In alg selectItems).
    { intros field alg t Hin. pose proof (tallies_entries field sortHistory) as H.
      rewrite Forall_forall in H. apply list_elem_of_In, H in Hin.
      destruct Hin as [Hc (e & He & Hk)]. split; [exact Hc|]. cbn [fst] in Hk. subst alg.
      rewrite Forall_forall in Hnames. apply Hnames, list_elem_of_In, He. }
    intros alg t [H|H]; eapply Hall; exact H.
Qed.

Lemma history_tallies_witness :
  lookupKey (averageStats [History.mk 1 "quick" 50 300 200 40 1;
                           History.mk 2 "heap" 50 600 250 70 2;
                           History.mk 3 "quick" 50 320 210 60 3]) "quick"
    = Some (mkTally 100 2).
Proof.
  refine (proj1 (proj1 (history_tallies _ _) "quick"%string)).
  repeat (constructor; [unfold selectItems; cbn [In History.algorithm]; auto 6|]).
  constructor.
Defined.

(** X16. Recording a run of an algorithm of the selector, in a history of
    such runs.  [addToHistory] makes the history one entry longer; in
    [averageStats] of the new history the page's algorithm has
    its former total plus the [timeElapsed] of the run and its former count
    plus one (from zero when it had no entry), and every other algorithm has
    what it had. *)
Theorem recorded_run_updates_average now date algorithm array stats sortHistory :
  In algorithm selectItems ->
  Forall (fun e => In (History.algorithm e) selectItems) sortHistory ->
  let before := default (mkTally 0 0) (lookupKey (averageStats sortHistory) algorithm) in
  let after := averageStats (addToHistory now date algorithm array stats sortHistory) in
  length (addToHistory now date algorithm array stats sortHistory)
    = S (length sortHistory) /\
  lookupKey after algorithm
    = Some (mkTally (total before + timeElapsed stats) (count before + 1)) /\
  (forall other, other <> algorithm ->
                 lookupKey after other = lookupKey (averageStats sortHistory) other).
Proof.
  intros _ _. cbn zeta. unfold addToHistory, averageStats. rewrite tallies_snoc, length_app.
  unfold tallyStep. cbn [History.algorithm History.timeElapsed length].
  split; [lia|]. split.
  - now rewrite lookupKey_assignKey, String.eqb_refl.
  - intros other Hne. rewrite lookupKey_assignKey.
    destruct (String.eqb_spec algorithm other); [congruence|reflexivity].
Qed.

Lemma recorded_run_updates_average_witness :
  lookupKey (averageStats (addToHistory 4 4 "quick" (map bar [3; 1; 2]) (mkStats 3 2 40)
                                        [History.mk 1 "quick" 50 300 200 60 1])) "quick"
    = Some (mkTally 100 2).
Proof.
  refine (proj1 (proj2 (recorded_run_updates_average 4 4 "quick"%string (map bar [3; 1; 2])
                          (mkStats 3 2 40) [History.mk 1 "quick" 50 300 200 60 1] _ _))).
  - unfold selectItems. cbn [In]. auto.
  - repeat (constructor; [unfold selectItems; cbn [In History.algorithm]; auto 6|]).
    constructor.
Defined.

(** ** Drawing a generated array *)



(** ** The pace of an interactive run *)

Ltac tempo_close :=
  unfold tempo, added, cmp, swp in *; cbn [fst snd] in *;
  cbn [frames naps calls currentStats comparisons swaps] in *;
  repeat match goal with H : _ /\ _ |- _ => destruct H end;
  lia.

Lemma tempo_forUp {S} pn pf (body : Z -> S -> M S) count :
  (forall j s st, post (body j s) st (fun _ => tempo pn pf st)) ->
  forall j s st, post (forUp count j body s) st (fun _ => tempo pn pf st).
Proof.
  intros Hbody. induction count as [|c IH]; intros j s st; cbn [forUp].
  - apply post_ret. unfold tempo, added. lia.
  - apply post_bind. eapply post_mono; [apply Hbody|]. cbn beta. intros s1 st1 Hu1.
    eapply post_mono; [apply IH|]. cbn beta. intros s2 st2 Hu2.
    unfold tempo, added in *. destruct Hu1, Hu2. split; nia.
Qed.

Lemma tempo_forDown pn pf (body : Z -> M unit) count :
  (forall j st, post (body j) st (fun _ => tempo pn pf st)) ->
  forall j st, post (forDown count j body) st (fun _ => tempo pn pf st).
Proof.
  intros Hbody. induction count as [|c IH]; intros j st; cbn [forDown].
  - apply post_ret. unfold tempo, added. lia.
  - apply post_bind. eapply post_mono; [apply Hbody|]. cbn beta. intros s1 st1 Hu1.
    eapply post_mono; [apply IH|]. cbn beta. intros s2 st2 Hu2.
    unfold tempo, added in *. destruct Hu1, Hu2. split; nia.
Qed.

Lemma bubbleInner_tempo speed sound j st :
  post (bubbleInner speed sound false j tt) st (fun _ => tempo (1, 1, 0) (2, 1, 0) st).
Proof. unfold bubbleInner. run_steps; tempo_close. Qed.

Lemma bubbleLoops_tempo speed sound n st :
  post (forRange 0 (n - 1) (bubblePass speed sound false n) tt) st
       (fun _ => tempo (1, 1, 0) (2, 1, 0) st).
Proof.
  unfold forRange. apply tempo_forUp. intros i [] st1. unfold bubblePass. run_steps.
  unfold forRange. eapply post_mono.
  { apply tempo_forUp. intros j [] st2. apply bubbleInner_tempo. }
  cbn beta. intros [] st2 Hu2. run_steps. tempo_close.
Qed.

Lemma partition_tempo speed sound low high st :
  post (partition speed sound false low high) st
       (fun _ => tempo (1, 1, -1) (1, 1, -1) st).
Proof.
  unfold partition. run_steps. unfold forRange. eapply post_mono.
  { apply (tempo_forUp (1, 1, -1) (1, 1, -1)). intros j i st1. unfold partitionStep.
    run_steps; tempo_close. }
  cbn beta. intros i st1 Hu1. run_steps. tempo_close.
Qed.

Lemma quickSortHelper_tempo speed sound fuel :
  forall low high st,
    post (quickSortHelper speed sound fuel false low high) st
         (fun _ => tempo (1, 1, -1) (1, 1, -1) st).
Proof.
  induction fuel as [|f IH]; intros low high st; cbn [quickSortHelper];
    destruct (low <? high); try apply post_throw;
    try (apply post_ret; unfold tempo, added; cbn [fst snd]; lia).
  apply post_bind. eapply post_mono; [apply partition_tempo|].
  cbn beta. intros pi st1 Hu1.
  apply post_bind. eapply post_mono; [apply IH|]. cbn beta. intros [] st2 Hu2.
  eapply post_mono; [apply IH|]. cbn beta. intros [] st3 Hu3.
  tempo_close.
Qed.

Lemma heapify_tempo speed sound fuel :
  forall n i st,
    post (heapify speed sound fuel false n i) st (fun _ => tempo (0, 1, 1) (0, 2, 2) st).
Proof.
  assert (Hbody : forall self n i st,
            (forall c st1, post (self n c) st1 (fun _ => tempo (0, 1, 1) (0, 2, 2) st1)) ->
            post (heapifyBody speed sound self false n i) st
                 (fun _ => tempo (0, 1, 1) (0, 2, 2) st)).
  { intros self n i st Hself. unfold heapifyBody. run_steps.
    all: try (eapply post_mono; [apply Hself|]; cbn beta; intros [] stR HR; run_steps).
    all: tempo_close. }
  induction fuel as [|f IH]; intros n i st; cbn [heapify]; apply Hbody.
  - intros c st1. apply post_throw.
  - intros c st1. apply IH.
Qed.

Lemma extractStep_tempo speed sound fuel j st :
  post (extractStep speed sound fuel false j) st (fun _ => tempo (0, 1, 1) (0, 2, 2) st).
Proof.
  unfold extractStep. run_steps.
  all: eapply post_mono; [apply heapify_tempo|]; cbn beta; intros [] st3 Hu3; tempo_close.
Qed.

Lemma mergeLoop_tempo speed sound L R n1 n2 fuel :
  forall i j k st,
    post (mergeLoop speed sound fuel false L R n1 n2 i j k) st
         (fun _ => tempo (1, 1, 0) (1, 1, 0) st).
Proof.
  induction fuel as [|f IH]; intros i j k st; cbn [mergeLoop];
    destruct ((i <? n1) && (j <? n2)); try apply post_throw;
    try (apply post_ret; unfold tempo, added; cbn [fst snd]; lia).
  run_steps.
  all: eapply post_mono; [apply IH|]; cbn beta; intros ijk st1 Hu1; tempo_close.
Qed.

Lemma drain_tempo speed X i n k st :
  post (forRange i n (drainStep speed false X) k) st (fun _ => tempo (1, 1, 0) (1, 1, 0) st).
Proof.
  unfold forRange. apply tempo_forUp. intros j k1 st1. unfold drainStep. run_steps.
  tempo_close.
Qed.

Lemma merge_tempo speed sound left mid right st :
  post (merge speed sound false left mid right) st (fun _ => tempo (1, 1, 0) (1, 1, 0) st).
Proof.
  unfold merge. run_steps.
  eapply post_mono; [apply mergeLoop_tempo|]. cbn beta. intros ijk st3 Hu3.
  apply post_bind. eapply post_mono; [apply drain_tempo|]. cbn beta. intros k4 st4 Hu4.
  apply post_bind. eapply post_mono; [apply drain_tempo|]. cbn beta. intros k5 st5 Hu5.
  run_steps. tempo_close.
Qed.

Lemma mergeSortHelper_tempo speed sound fuel :
  forall left right st,
    post (mergeSortHelper speed sound fuel false left right) st
         (fun _ => tempo (1, 1, 0) (1, 1, 0) st).
Proof.
  induction fuel as [|f IH]; intros left right st; cbn [mergeSortHelper];
    destruct (left <? right); try apply post_throw;
    try (apply post_ret; unfold tempo, added; cbn [fst snd]; lia).
  cbn zeta. apply post_bind. eapply post_mono; [apply IH|]. cbn beta. intros [] st1 Hu1.
  apply post_bind. eapply post_mono; [apply IH|]. cbn beta. intros [] st2 Hu2.
  eapply post_mono; [apply merge_tempo|]. cbn beta. intros [] st3 Hu3.
  tempo_close.
Qed.

(** X9. The pace of an interactive run on a non-empty array, in pauses
    ([await sleep]) and published frames ([setArray]), from the comparisons,
    swaps and [partition] calls it counted.  Bubble sort: comparisons + swaps
    pauses and 2 * comparisons + swaps + 1 frames.  Quick sort: comparisons +
    swaps - calls pauses and one frame more.  Merge sort: comparisons + swaps
    pauses and one frame more.  Heap sort: twice the pauses are comparisons +
    2 * swaps, and the frames are comparisons + 2 * swaps + 1. *)
Theorem interactive_pace speed soundEnabled elapsed arr stats :
  arr <> [] ->
  (exists st,
      bubbleSort speed soundEnabled elapsed arr stats false = Ok st /\
      let compared := Z.of_nat (cmp st) - Z.of_nat (comparisons stats) in
      let swapped := Z.of_nat (swp st) - Z.of_nat (swaps stats) in
      Z.of_nat (naps st) = compared + swapped /\
      Z.of_nat (frames st) = 2 * compared + swapped + 1) /\
  (exists st,
      quickSort speed soundEnabled elapsed arr stats false = Ok st /\
      let compared := Z.of_nat (cmp st) - Z.of_nat (comparisons stats) in
      let swapped := Z.of_nat (swp st) - Z.of_nat (swaps stats) in
      Z.of_nat (naps st) = compared + swapped - Z.of_nat (calls st) /\
      Z.of_nat (frames st) = compared + swapped - Z.of_nat (calls st) + 1) /\
  (exists st,
      mergeSort speed soundEnabled elapsed arr stats false = Ok st /\
      let compared := Z.of_nat (cmp st) - Z.of_nat (comparisons stats) in
      let swapped := Z.of_nat (swp st) - Z.of_nat (swaps stats) in
      Z.of_nat (naps st) = compared + swapped /\
      Z.of_nat (frames st) = compared + swapped + 1) /\
  (exists st,
      heapSort speed soundEnabled elapsed arr stats false = Ok st /\
      let compared := Z.of_nat (cmp st) - Z.of_nat (comparisons stats) in
      let swapped := Z.of_nat (swp st) - Z.of_nat (swaps stats) in
      2 * Z.of_nat (naps st) = compared + 2 * swapped /\
      Z.of_nat (frames st) = compared + 2 * swapped + 1).
Proof.
  intros Hne. split; [|split; [|split]].
  - destruct (bubbleSort_sorts speed soundEnabled elapsed arr stats false) as (st & E & _);
      [auto|].
    exists st. split; [exact E|]. cbn zeta.
    pattern st. eapply run_post; [|exact E]. unfold bubbleBody. run_steps.
    eapply post_mono; [apply bubbleLoops_tempo|]. cbn beta. intros [] st1 Hu1.
    run_steps. tempo_close.
  - destruct (quickSort_sorts speed soundEnabled elapsed arr stats false) as (st & E & _).
    exists st. split; [exact E|]. cbn zeta.
    pattern st. eapply run_post; [|exact E]. unfold quickBody. run_steps.
    eapply post_mono; [apply quickSortHelper_tempo|]. cbn beta. intros [] st1 Hu1.
    run_steps. tempo_close.
  - destruct (mergeSort_sorts speed soundEnabled elapsed arr stats false) as (st & E & _).
    exists st. split; [exact E|]. cbn zeta.
    pattern st. eapply run_post; [|exact E]. unfold mergeBody. run_steps.
    eapply post_mono; [apply mergeSortHelper_tempo|]. cbn beta. intros [] st1 Hu1.
    run_steps. tempo_close.
  - destruct (heapSort_sorts speed soundEnabled elapsed arr stats false) as (st & E & _);
      [auto|].
    exists st. split; [exact E|]. cbn zeta.
    pose proof (run_post _ _ _ _ _ (heapBody_count speed soundEnabled elapsed false _) E)
      as [Hc _].
    revert Hc. pattern st. eapply run_post; [|exact E]. unfold heapBody. run_steps.
    eapply post_mono; [apply tempo_forDown; intros j st1; apply heapify_tempo|].
    cbn beta. intros [] st1 Hu1. run_steps.
    eapply post_mono; [apply tempo_forDown; intros j st2; apply extractStep_tempo|].
    cbn beta. intros [] st2 Hu2. run_steps. intros Hc. tempo_close.
Qed.

Lemma interactive_pace_witness :
  exists st,
    bubbleSort 50 true 0 (map bar [3; 1; 2]) stats0 false = Ok st /\
    Z.of_nat (naps st) = 5 /\ Z.of_nat (frames st) = 9.
Proof.
  destruct (interactive_pace 50 true 0%nat (map bar [3; 1; 2]) stats0) as [(st & E & Hn & Hf) _];
    [discriminate|].
  exists st. split; [exact E|]. vm_compute in E. inversion E; subst st. split; reflexivity.
Defined.

(** ** Equal values: which engines keep their order *)

Lemma barsOf_swap v (l1 l2 : list ArrayBar) a b :
  value a <> value b ->
  barsOf v (l1 ++ b :: a :: l2) = barsOf v (l1 ++ a :: b :: l2).
Proof.
  intros Hne. rewrite !barsOf_app. f_equal. unfold barsOf. cbn [List.filter].
  destruct (Z.eqb_spec (value a) v), (Z.eqb_spec (value b) v); congruence.
Qed.

Lemma bubbleInner_stable speed sound v j st :
  post (bubbleInner speed sound true j tt) st
       (fun _ st' => barsOf v (workingArray st') = barsOf v (workingArray st)).
Proof.
  unfold bubbleInner. run_steps; [|reflexivity].
  cbn [workingArray] in *.
  match goal with
  | Ha : get _ j = Some ?a, Hb : get _ (j + 1) = Some ?b |- _ =>
      destruct (adjacent_split _ _ _ _ Ha Hb) as (l1 & l2 & E1 & E2)
  end.
  rewrite E2, E1. apply barsOf_swap.
  match goal with H : (_ >? _) = true |- _ => apply Z.gtb_lt in H end.
  match goal with
  | H1 : get _ j = Some ?x, H2 : get _ j = Some ?y |- _ =>
      rewrite H1 in H2; inversion H2; subst
  end.
  match goal with
  | H1 : get _ (j + 1) = Some ?x, H2 : get _ (j + 1) = Some ?y |- _ =>
      rewrite H1 in H2; inversion H2; subst
  end.
  lia.
Qed.

Lemma bubbleBody_stable speed sound elapsed v st :
  post (bubbleBody speed sound elapsed true) st
       (fun _ st' => barsOf v (workingArray st') = barsOf v (workingArray st)).
Proof.
  unfold bubbleBody. run_steps. unfold forRange. eapply post_mono.
  { apply (post_forUp (fun (_ : Z) (_ : unit) st' =>
                         barsOf v (workingArray st') = barsOf v (workingArray st)));
      [reflexivity|].
    intros i [] st1 _ Hi. unfold bubblePass. run_steps. unfold forRange. eapply post_mono.
    { apply (post_forUp (fun (_ : Z) (_ : unit) st' =>
                           barsOf v (workingArray st') = barsOf v (workingArray st)));
        [exact Hi|].
      intros j [] st2 _ Hj. eapply post_mono; [apply bubbleInner_stable|].
      cbn beta. intros [] st3 H3. now rewrite H3. }
    cbn beta. intros [] st2 Hs2. run_steps. exact Hs2. }
  cbn beta. intros [] st1 Hs1. run_steps. exact Hs1.
Qed.

(** X19. Bubble sort and merge sort are stable.  In benchmark mode, for
    every array, the array returned is in non-decreasing order and the bars
    of each value stand in the order they had in the argument (for merge
    sort, which stores copies with [isComparing: false], up to that flag). *)
Theorem bubble_and_merge_are_stable speed soundEnabled elapsed arr stats :
  (exists st,
      bubbleSort speed soundEnabled elapsed arr stats true = Ok st /\
      Sorted Z.le (values (workingArray st)) /\
      forall v, barsOf v (workingArray st) = barsOf v arr) /\
  (exists st,
      mergeSort speed soundEnabled elapsed arr stats true = Ok st /\
      Sorted Z.le (values (workingArray st)) /\
      forall v, barsOf v (map (withComparing false) (workingArray st))
                = barsOf v (map (withComparing false) arr)).
Proof.
  split.
  - destruct (bubbleSort_sorts speed soundEnabled elapsed arr stats true) as (st & E & Hs & _);
      [discriminate|].
    exists st. split; [exact E|]. split; [exact Hs|]. intros v.
    exact (run_post _ _ _ _ _ (bubbleBody_stable speed soundEnabled elapsed v _) E).
  - destruct (mergeSort_sorts speed soundEnabled elapsed arr stats true) as (st & E & Hs & _).
    exists st. split; [exact E|]. split; [exact Hs|]. intros v.
    rewrite (run_post _ _ _ _ _ (mergeBody_copies speed soundEnabled elapsed _) E).
    cbn [workingArray]. now apply sortRuns_stable.
Qed.

Ltac known_cells :=
  repeat match goal with
         | H : get (_ :: _) _ = Some _ |- _ =>
             vm_compute in H; inversion H; subst; clear H
         | H : get (put _ _ _) _ = Some _ |- _ =>
             vm_compute in H; inversion H; subst; clear H
         | H : get (_ :: _) _ = None |- _ => vm_compute in H; discriminate H
         end.

Ltac absurd_branch :=
  try (exfalso;
       match goal with
       | H : (value _ <? value _) = true |- _ => apply Z.ltb_lt in H; lia
       | H : (value _ >? value _) = true |- _ => apply Z.gtb_lt in H; lia
       | H : _ = true |- _ => vm_compute in H; discriminate H
       | H : _ = false |- _ => vm_compute in H; discriminate H
       end).

Lemma quick_pair speed sound a b st :
  workingArray st = [a; b] -> value a = value b ->
  post (quickSortHelper speed sound 2 true 0 1) st
       (fun _ st' => workingArray st' = [b; a]).
Proof.
  intros Hwa Hv. cbn [quickSortHelper]. change (0 <? 1) with true. cbn iota.
  unfold partition. run_steps. rewrite Hwa in *. known_cells.
  unfold forRange. change (Z.to_nat (1 - 0)) with 1%nat. cbn [forUp].
  unfold partitionStep. run_steps.
  all: cbn [workingArray currentStats comparisons swaps timeElapsed] in *.
  all: known_cells.
  all: absurd_branch.
  reflexivity.
Qed.

Lemma heapify_pair speed sound fuel a b st :
  workingArray st = [a; b] -> value a = value b ->
  post (heapify speed sound fuel true 2 0) st
       (fun _ st' => workingArray st' = [a; b]).
Proof.
  intros Hwa Hv.
  assert (Hgt : (value b >? value a) = false) by (rewrite Z.gtb_ltb; apply Z.ltb_ge; lia).
  destruct fuel; cbn [heapify]; unfold heapifyBody, pickLarger; run_steps.
  all: cbn [workingArray] in *; rewrite Hwa in *; known_cells.
  all: try (exfalso;
            match goal with H : negb _ = true |- _ =>
              rewrite Hgt in H; vm_compute in H; discriminate H end).
  all: reflexivity.
Qed.

Lemma heap_pair speed sound elapsed a b st :
  workingArray st = [a; b] -> value a = value b ->
  post (heapBody speed sound elapsed true) st
       (fun _ st' => workingArray st' = [b; a]).
Proof.
  intros Hwa Hv. unfold heapBody. run_steps. rewrite Hwa.
  change (len [a; b]) with 2. change (Z.to_nat (2 / 2)) with 1%nat.
  change (Z.to_nat (2 - 1)) with 1%nat. change (Z.to_nat 2) with 2%nat.
  cbn [forDown]. apply post_bind.
  eapply post_mono; [apply (heapify_pair _ _ _ a b); assumption|].
  cbn beta. intros [] st1 Hwa1. run_steps.
  unfold extractStep. run_steps. cbn [workingArray] in *. rewrite Hwa1 in *. known_cells.
  eapply post_total; [apply heapify_leaf; vm_compute; discriminate|].
  run_steps. reflexivity.
Qed.

(** X20. Quick sort and heap sort are not stable: in benchmark mode each of
    them returns two bars of equal value in exchanged order. *)
Theorem quick_and_heap_exchange_equal_bars speed soundEnabled elapsed a b stats :
  value a = value b ->
  (exists st, quickSort speed soundEnabled elapsed [a; b] stats true = Ok st /\
              workingArray st = [b; a]) /\
  (exists st, heapSort speed soundEnabled elapsed [a; b] stats true = Ok st /\
              workingArray st = [b; a]).
Proof.
  intros Hv. split.
  - destruct (quickSort_sorts speed soundEnabled elapsed [a; b] stats true) as (st & E & _).
    exists st. split; [exact E|].
    pattern st. eapply run_post; [|exact E]. unfold quickBody. run_steps.
    change (Z.to_nat (len [a; b])) with 2%nat. change (len [a; b] - 1) with 1.
    eapply post_mono; [apply (quick_pair _ _ a b); [reflexivity|exact Hv]|].
    cbn beta. intros [] st1 Hwa1. run_steps. exact Hwa1.
  - destruct (heapSort_sorts speed soundEnabled elapsed [a; b] stats true) as (st & E & _);
      [discriminate|].
    exists st. split; [exact E|].
    pattern st. eapply run_post; [|exact E].
    apply (heap_pair _ _ _ a b); [reflexivity|exact Hv].
Qed.

Lemma quick_and_heap_exchange_equal_bars_witness :
  (exists st, quickSort 50 true 0 [mkBar 1 false true false; bar 1] stats0 true = Ok st /\
              workingArray st = [bar 1; mkBar 1 false true false]) /\
  (exists st, heapSort 50 true 0 [mkBar 1 false true false; bar 1] stats0 true = Ok st /\
              workingArray st = [bar 1; mkBar 1 false true false]).
Proof.
  apply (quick_and_heap_exchange_equal_bars 50 true 0%nat (mkBar 1 false true false) (bar 1)
           stats0).
  reflexivity.
Defined.

(** ** Benchmark mode: nothing shown, no bar changed *)

Lemma mergeRuns_bars (L R : list ArrayBar) :
  Permutation (mergeRuns L R) (map (withComparing false) (L ++ R)).
Proof. unfold mergeRuns. apply Permutation_map, merge_Permutation. Qed.

Lemma sortRuns_bars fuel :
  forall l, Permutation (map (withComparing false) (sortRuns fuel l))
                        (map (withComparing false) l).
Proof.
  induction fuel as [|f IH]; intros l; [reflexivity|].
  destruct (Nat.lt_ge_cases (length l) 2) as [Hs|Hl].
  - now rewrite sortRuns_short.
  - rewrite sortRuns_long by exact Hl.
    rewrite mergeRuns_bars, settle_settle, map_app, !IH, <- map_app, take_drop. reflexivity.
Qed.

Lemma unseen_run arr stats (body : M unit) st :
  post body (mkState arr stats 0 0 0) (fun _ => unseen (mkState arr stats 0 0 0)) ->
  run arr stats body = Ok st -> frames st = 0%nat /\ naps st = 0%nat.
Proof. intros HP E. exact (run_post _ _ _ _ _ HP E). Qed.

Lemma shuffled_run arr stats (body : M unit) :
  wp body (mkState arr stats 0 0 0)
     (fun _ st' => shuffled 0 (len arr) arr (workingArray st') /\
                   sortedIn (workingArray st') 0 (len (workingArray st'))) ->
  post body (mkState arr stats 0 0 0) (fun _ => unseen (mkState arr stats 0 0 0)) ->
  exists st, run arr stats body = Ok st /\ frames st = 0%nat /\ naps st = 0%nat /\
             Permutation (workingArray st) arr.
Proof.
  intros Hwp Hpost. destruct (run_wp _ _ _ _ Hwp) as (st & E & Hsh & _).
  exists st. split; [exact E|]. destruct (unseen_run _ _ _ _ Hpost E) as [Hf Hn].
  split; [exact Hf|]. split; [exact Hn|]. now apply shuffled_Permutation in Hsh.
Qed.

(** X8. Benchmark mode shows nothing.  For every array, each engine called
    with [isBenchmark = true] returns without publishing a frame
    ([setArray]) and without a pause ([sleep]), and the array it returns is
    a rearrangement of the bars of its argument, flags included (for merge
    sort, which stores copies with [isComparing: false], up to that flag). *)
Theorem benchmark_mode_shows_nothing speed soundEnabled elapsed arr stats :
  (exists st, bubbleSort speed soundEnabled elapsed arr stats true = Ok st /\
              frames st = 0%nat /\ naps st = 0%nat /\ Permutation (workingArray st) arr) /\
  (exists st, quickSort speed soundEnabled elapsed arr stats true = Ok st /\
              frames st = 0%nat /\ naps st = 0%nat /\ Permutation (workingArray st) arr) /\
  (exists st, heapSort speed soundEnabled elapsed arr stats true = Ok st /\
              frames st = 0%nat /\ naps st = 0%nat /\ Permutation (workingArray st) arr) /\
  (exists st, mergeSort speed soundEnabled elapsed arr stats true = Ok st /\
              frames st = 0%nat /\ naps st = 0%nat /\
              Permutation (map (withComparing false) (workingArray st))
                          (map (withComparing false) arr)).
Proof.
  split; [|split; [|split]].
  - apply shuffled_run; [apply bubbleBody_wp|apply bubbleBody_unseen].
  - apply shuffled_run; [apply quickBody_wp|apply quickBody_unseen].
  - apply shuffled_run; [apply heapBody_wp|apply heapBody_unseen].
  - destruct (mergeSort_sorts speed soundEnabled elapsed arr stats true) as (st & E & _).
    exists st. split; [exact E|].
    destruct (unseen_run _ _ _ _ (mergeBody_unseen speed soundEnabled elapsed _) E) as [Hf Hn].
    split; [exact Hf|]. split; [exact Hn|].
    rewrite (run_post _ _ _ _ _ (mergeBody_copies speed soundEnabled elapsed _) E).
    apply sortRuns_bars.
Qed.

(** ** Flags of a cell after a write *)

Section FlagFacts.

Implicit Types (l : list ArrayBar) (a b x : ArrayBar) (flag : ArrayBar -> bool).

Lemma flagAt_get flag l k a : get l k = Some a -> flagAt flag l k = flag a.
Proof. unfold flagAt. now intros ->. Qed.

Lemma flagAt_put flag l k a x i :
  get l k = Some a ->
  flagAt flag (put l k x) i = if i =? k then flag x else flagAt flag l i.
Proof.
  intros Hk. unfold flagAt. rewrite get_put by (eapply get_Some_inside; eassumption).
  now destruct (i =? k).
Qed.

Lemma flagAt_swap flag l i j a b k :
  get l i = Some a -> get l j = Some b ->
  flagAt flag (put (put l i b) j a) k
    = if k =? j then flag a else if k =? i then flag b else flagAt flag l k.
Proof.
  intros Hi Hj. unfold flagAt. rewrite (get_swap _ _ _ _ _ _ Hi Hj).
  destruct (k =? j); [reflexivity|]. now destruct (k =? i).
Qed.

Lemma atRest_flags l :
  Forall atRest l <->
  (forall k, flagAt isComparing l k = false) /\ (forall k, flagAt isSwapping l k = false).
Proof.
  split.
  - intros H. rewrite Forall_lookup in H.
    split; intros k; unfold flagAt, get; destruct (k <? 0); try reflexivity;
      destruct (l !! Z.to_nat k) as [a|] eqn:E; try reflexivity; now apply H in E as [? ?].
  - intros [HC HS]. apply Forall_lookup. intros n a Hn.
    assert (Hg : get l (Z.of_nat n) = Some a).
    { unfold get. destruct (Z.ltb_spec (Z.of_nat n) 0); [lia|]. now rewrite Nat2Z.id. }
    split.
    + rewrite <- (flagAt_get isComparing _ _ _ Hg). apply HC.
    + rewrite <- (flagAt_get isSwapping _ _ _ Hg). apply HS.
Qed.

Lemma noNewFlag_refl flag l : noNewFlag flag l l.
Proof. intros k H. exact H. Qed.

Lemma noNewFlag_trans flag l1 l2 l3 :
  noNewFlag flag l1 l2 -> noNewFlag flag l2 l3 -> noNewFlag flag l1 l3.
Proof. intros H12 H23 k H. apply H12, H23, H. Qed.

End FlagFacts.

(** The flags of the last state in terms of those of the first. *)
Ltac flags_norm :=
  repeat first
    [ erewrite flagAt_swap by eassumption
    | erewrite flagAt_put by eassumption
    | progress cbn [isComparing isSwapping isSorted value
                    withComparing withSwapping withSorted]
    | match goal with
      | H : get ?l ?k = Some ?a |- context [isComparing ?a] =>
          rewrite <- (flagAt_get isComparing l k a H)
      | H : get ?l ?k = Some ?a |- context [isSwapping ?a] =>
          rewrite <- (flagAt_get isSwapping l k a H)
      | H : get ?l ?k = Some ?a |- context [isSorted ?a] =>
          rewrite <- (flagAt_get isSorted l k a H)
      end ].

Ltac flags_cases :=
  repeat match goal with
         | |- context [?x =? ?y] => destruct (Z.eqb_spec x y); try lia; subst
         end;
  try congruence; try lia; auto.

Lemma bubbleInner_flags speed sound j st :
  post (bubbleInner speed sound false j tt) st
       (fun _ st' =>
          len (workingArray st') = len (workingArray st) /\
          noNewFlag isComparing (workingArray st) (workingArray st') /\
          noNewFlag isSwapping (workingArray st) (workingArray st') /\
          forall k, k <> j -> k <> j + 1 ->
                    flagAt isSorted (workingArray st') k = flagAt isSorted (workingArray st) k).
Proof.
  unfold bubbleInner. run_steps.
  all: cbn [workingArray] in *.
  all: split; [rewrite ?len_put; reflexivity|].
  all: split; [intros k; flags_norm; flags_cases|].
  all: split; [intros k; flags_norm; flags_cases|].
  all: intros k Hk1 Hk2; flags_norm; flags_cases.
Qed.

(** ** The picture an interactive run ends with *)

Lemma bubbleBody_flags speed sound elapsed st :
  post (bubbleBody speed sound elapsed false) st
       (fun _ st' =>
          len (workingArray st') = len (workingArray st) /\
          noNewFlag isComparing (workingArray st) (workingArray st') /\
          noNewFlag isSwapping (workingArray st) (workingArray st') /\
          forall k, 0 <= k < len (workingArray st) ->
                    flagAt isSorted (workingArray st') k = true).
Proof.
  unfold bubbleBody. run_steps. set (l0 := workingArray st). set (n := len l0).
  pose (Inv := fun (i : Z) (st' : SortState) =>
                 len (workingArray st') = n /\
                 noNewFlag isComparing l0 (workingArray st') /\
                 noNewFlag isSwapping l0 (workingArray st') /\
                 forall k, n - i <= k < n -> flagAt isSorted (workingArray st') k = true).
  assert (Hn : 0 <= n) by (unfold n, len; lia).
  eapply post_mono.
  { unfold forRange.
    apply (post_forUp (fun i (_ : unit) st' => 0 <= i /\ Inv i st')).
    { split; [lia|]. repeat split; try apply noNewFlag_refl. intros k Hk. lia. }
    intros i [] st1 Hi [_ (Hlen & HC & HS & HD)]. unfold bubblePass. run_steps.
    eapply post_mono.
    { unfold forRange.
      apply (post_forUp (fun j (_ : unit) st' => 0 <= j /\ Inv i st')).
      { split; [lia|]. repeat split; assumption. }
      intros j [] st2 Hj [_ (Hlen2 & HC2 & HS2 & HD2)].
      eapply post_mono; [apply bubbleInner_flags|]. cbn beta.
      intros [] st3 (Hlen3 & HC3 & HS3 & HD3). split; [lia|].
      split; [congruence|]. split; [eauto using noNewFlag_trans|].
      split; [eauto using noNewFlag_trans|].
      intros k Hk. rewrite HD3 by lia. apply HD2, Hk. }
    cbn beta. intros [] st2 [_ (Hlen2 & HC2 & HS2 & HD2)]. run_steps.
    unfold Inv. cbn [workingArray] in *. split; [lia|]. split; [now rewrite len_put|].
    split; [intros k; flags_norm; destruct (Z.eqb_spec k (n - i - 1)) as [->|?];
            intros Hk; apply HC2, Hk|].
    split; [intros k; flags_norm; destruct (Z.eqb_spec k (n - i - 1)) as [->|?];
            intros Hk; apply HS2, Hk|].
    intros k Hk. flags_norm. destruct (Z.eqb_spec k (n - i - 1)); [reflexivity|].
    apply HD2. lia. }
  cbn beta. intros [] st1 [Hi0 (Hlen & HC & HS & HD)]. run_steps. cbn [workingArray] in *.
  split; [now rewrite len_put|].
  split; [intros k; flags_norm; destruct (Z.eqb_spec k 0) as [->|?];
          intros Hk; apply HC, Hk|].
  split; [intros k; flags_norm; destruct (Z.eqb_spec k 0) as [->|?];
          intros Hk; apply HS, Hk|].
  intros k Hk. flags_norm. destruct (Z.eqb_spec k 0); [reflexivity|].
  apply HD. fold l0 n in Hk. lia.
Qed.

(** What [heapify n i] does to the flags. *)
Lemma heapifyBody_flags speed sound self n i st :
  i < n ->
  (forall c st1, c < n ->
     post (self n c) st1
          (fun _ st' =>
             len (workingArray st') = len (workingArray st1) /\
             noNewFlag isComparing (workingArray st1) (workingArray st') /\
             noNewFlag isSwapping (workingArray st1) (workingArray st') /\
             forall k, n <= k ->
                       flagAt isSorted (workingArray st') k
                       = flagAt isSorted (workingArray st1) k)) ->
  post (heapifyBody speed sound self false n i) st
       (fun _ st' =>
          len (workingArray st') = len (workingArray st) /\
          noNewFlag isComparing (workingArray st) (workingArray st') /\
          noNewFlag isSwapping (workingArray st) (workingArray st') /\
          forall k, n <= k ->
                    flagAt isSorted (workingArray st') k = flagAt isSorted (workingArray st) k).
Proof.
  intros Hi Hself. unfold heapifyBody. run_steps.
  all: repeat match goal with
              | H : (_ <? _) = true |- _ => apply Z.ltb_lt in H
              | H : (_ <? _) = false |- _ => apply Z.ltb_ge in H
              | H : negb (_ =? _) = true |- _ =>
                  apply Bool.negb_true_iff, Z.eqb_neq in H
              | H : negb (_ =? _) = false |- _ =>
                  apply Bool.negb_false_iff, Z.eqb_eq in H
              end.
  all: try match goal with
           | |- post _ _ _ =>
               eapply post_mono; [apply Hself; lia|];
               cbn beta; intros [] stR (HlenR & HCR & HSR & HDR); run_steps
           end.
  all: cbn [workingArray] in *.
  all: split; [rewrite ?len_put, ?HlenR, ?len_swap, ?len_put; reflexivity|].
  all: split; [intros k; flags_norm;
               try (intros Hk;
                    repeat match type of Hk with
                           | context [?x =? ?y] =>
                               destruct (Z.eqb_spec x y); try discriminate Hk; try lia
                           end;
                    apply HCR in Hk; revert Hk; flags_norm);
               flags_cases|].
  all: split; [intros k; flags_norm;
               try (intros Hk;
                    repeat match type of Hk with
                           | context [?x =? ?y] =>
                               destruct (Z.eqb_spec x y); try discriminate Hk; try lia
                           end;
                    apply HSR in Hk; revert Hk; flags_norm);
               flags_cases|].
  all: intros k Hk; flags_norm; rewrite ?(HDR k) by lia; flags_norm; flags_cases.
Qed.

Lemma heapify_flags speed sound fuel :
  forall n i st,
    i < n ->
    post (heapify speed sound fuel false n i) st
         (fun _ st' =>
            len (workingArray st') = len (workingArray st) /\
            noNewFlag isComparing (workingArray st) (workingArray st') /\
            noNewFlag isSwapping (workingArray st) (workingArray st') /\
            forall k, n <= k ->
                      flagAt isSorted (workingArray st') k
                      = flagAt isSorted (workingArray st) k).
Proof.
  induction fuel as [|f IH]; intros n i st Hi; cbn [heapify];
    apply heapifyBody_flags; try exact Hi.
  - intros c st1 _. apply post_throw.
  - intros c st1 Hc. now apply IH.
Qed.

Lemma noNewFlag_atRest (l l' : list ArrayBar) :
  noNewFlag isComparing l l' -> noNewFlag isSwapping l l' ->
  Forall atRest l -> Forall atRest l'.
Proof.
  intros HC HS Hl. apply atRest_flags in Hl as [HC0 HS0]. apply atRest_flags.
  split; intros k.
  - destruct (flagAt isComparing l' k) eqn:E; [|reflexivity]. apply HC in E. congruence.
  - destruct (flagAt isSwapping l' k) eqn:E; [|reflexivity]. apply HS in E. congruence.
Qed.

Lemma extractStep_flags speed sound fuel i st :
  0 < i ->
  Forall atRest (workingArray st) ->
  post (extractStep speed sound fuel false i) st
       (fun _ st' =>
          len (workingArray st') = len (workingArray st) /\
          Forall atRest (workingArray st') /\
          flagAt isSorted (workingArray st') i = true /\
          forall k, i < k ->
                    flagAt isSorted (workingArray st') k
                    = flagAt isSorted (workingArray st) k).
Proof.
  intros Hi Hrest. apply atRest_flags in Hrest as [HC0 HS0].
  unfold extractStep. run_steps.
  all: eapply post_mono; [apply heapify_flags; lia|]; cbn beta;
    intros [] stR (HlenR & HCR & HSR & HDR).
  all: cbn [workingArray] in *.
  all: split; [rewrite HlenR, ?len_put; reflexivity|].
  all: split;
    [apply atRest_flags; split; intros k;
     [destruct (flagAt isComparing (workingArray stR) k) eqn:E; [|reflexivity];
      apply HCR in E; revert E; flags_norm; rewrite ?HC0; flags_cases
     |destruct (flagAt isSwapping (workingArray stR) k) eqn:E; [|reflexivity];
      apply HSR in E; revert E; flags_norm; rewrite ?HS0; flags_cases]|].
  all: split; [rewrite (HDR i) by lia; flags_norm; flags_cases|].
  all: intros k Hk; rewrite (HDR k) by lia; flags_norm; flags_cases.
Qed.

Lemma heapBody_flags speed sound elapsed st :
  Forall atRest (workingArray st) ->
  post (heapBody speed sound elapsed false) st
       (fun _ st' =>
          len (workingArray st') = len (workingArray st) /\
          Forall atRest (workingArray st') /\
          forall k, 0 <= k < len (workingArray st) ->
                    flagAt isSorted (workingArray st') k = true).
Proof.
  intros Hrest. unfold heapBody. run_steps. set (n := len (workingArray st)).
  assert (Hn : 0 <= n) by (unfold n, len; lia).
  eapply post_mono.
  { apply (post_forDown (fun (i : Z) st' =>
                           i < n /\ len (workingArray st') = n /\
                           Forall atRest (workingArray st'))).
    { split; [Z.to_euclidean_division_equations; lia|]. split; [reflexivity|exact Hrest]. }
    intros i st1 Hi (_ & Hlen & Hr).
    eapply post_mono; [apply heapify_flags; Z.to_euclidean_division_equations; lia|].
    cbn beta. intros [] st2 (Hlen2 & HC2 & HS2 & _).
    split; [Z.to_euclidean_division_equations; lia|]. split; [congruence|].
    eapply noNewFlag_atRest; eassumption. }
  cbn beta. intros [] st1 (_ & Hlen & Hr). run_steps.
  eapply post_mono.
  { apply (post_forDown (fun (i : Z) st' =>
                           len (workingArray st') = n /\
                           Forall atRest (workingArray st') /\
                           forall k, i < k < n -> flagAt isSorted (workingArray st') k = true)).
    { repeat split; try assumption. intros k Hk. lia. }
    intros i st2 Hi (Hlen2 & Hr2 & HD2).
    eapply post_mono; [apply extractStep_flags; [lia|exact Hr2]|].
    cbn beta. intros [] st3 (Hlen3 & Hr3 & HDi & HD3).
    split; [congruence|]. split; [exact Hr3|].
    intros k Hk. destruct (Z.eq_dec k i) as [->|Hne]; [exact HDi|].
    rewrite HD3 by lia. apply HD2. lia. }
  cbn beta. intros [] st2 (Hlen2 & Hr2 & HD2). run_steps. cbn [workingArray] in *.
  apply atRest_flags in Hr2 as [HC2 HS2].
  split; [now rewrite len_put|].
  split; [apply atRest_flags; split; intros k; flags_norm; rewrite ?HC2, ?HS2; flags_cases|].
  intros k Hk. flags_norm. destruct (Z.eqb_spec k 0); [reflexivity|].
  apply HD2. fold n in Hk. lia.
Qed.

Lemma partitionStep_swapping speed sound high pivot j i st :
  (forall k, flagAt isSwapping (workingArray st) k = false) ->
  post (partitionStep speed sound false high pivot j i) st
       (fun _ st' => forall k, flagAt isSwapping (workingArray st') k = false).
Proof.
  intros HS0. unfold partitionStep. run_steps.
  all: cbn [workingArray] in *.
  all: try (exfalso;
            match goal with
            | Hn : get ?L ?x = None, Hs : get _ ?x = Some _ |- _ =>
                pose proof (get_Some_inside _ _ _ Hs) as Hin;
                destruct (get_inside L x) as [c Hc];
                [rewrite ?len_put in *; exact Hin|congruence]
            end).
  all: intros k; flags_norm; rewrite ?HS0; flags_cases.
Qed.

Lemma partition_swapping speed sound low high st :
  (forall k, flagAt isSwapping (workingArray st) k = false) ->
  post (partition speed sound false low high) st
       (fun _ st' => forall k, flagAt isSwapping (workingArray st') k = false).
Proof.
  intros HS0. unfold partition. run_steps. unfold forRange. eapply post_mono.
  { apply (post_forUp (fun (_ : Z) (_ : Z) st' =>
                         forall k, flagAt isSwapping (workingArray st') k = false)).
    - exact HS0.
    - intros j i st1 _ HS1. now apply partitionStep_swapping. }
  cbn beta. intros i st1 HS1. run_steps. cbn [workingArray] in *.
  intros k. flags_norm. rewrite ?HS1. flags_cases.
Qed.

Lemma quickSortHelper_swapping speed sound fuel :
  forall low high st,
    (forall k, flagAt isSwapping (workingArray st) k = false) ->
    post (quickSortHelper speed sound fuel false low high) st
         (fun _ st' => forall k, flagAt isSwapping (workingArray st') k = false).
Proof.
  induction fuel as [|f IH]; intros low high st HS0; cbn [quickSortHelper];
    destruct (low <? high); try apply post_throw; try (apply post_ret; exact HS0).
  apply post_bind. eapply post_mono; [apply partition_swapping, HS0|].
  cbn beta. intros pi st1 HS1.
  apply post_bind. eapply post_mono; [apply IH, HS1|]. cbn beta. intros [] st2 HS2.
  apply IH, HS2.
Qed.

Lemma quickBody_flags speed sound elapsed st :
  Forall atRest (workingArray st) ->
  post (quickBody speed sound elapsed false) st
       (fun _ st' =>
          Forall (fun a => isSorted a = true /\ isSwapping a = false) (workingArray st')).
Proof.
  intros Hrest. apply atRest_flags in Hrest as [_ HS0].
  unfold quickBody. run_steps.
  eapply post_mono; [apply quickSortHelper_swapping, HS0|]. cbn beta. intros [] st1 HS1.
  run_steps. cbn [workingArray]. apply Forall_forall. intros a Ha.
  apply list_elem_of_In, in_map_iff in Ha as (a0 & <- & Ha0). cbn [isSorted isSwapping withSorted].
  split; [reflexivity|]. apply list_elem_of_In, list_elem_of_lookup in Ha0 as [m Hm].
  assert (Hg : get (workingArray st1) (Z.of_nat m) = Some a0).
  { unfold get. destruct (Z.ltb_spec (Z.of_nat m) 0); [lia|]. now rewrite Nat2Z.id. }
  rewrite <- (flagAt_get isSwapping _ _ _ Hg). apply HS1.
Qed.

Lemma atRest_cell (l : list ArrayBar) k a :
  Forall atRest l -> get l k = Some a -> atRest (withComparing false a).
Proof.
  intros Hl Hk. unfold get in Hk. destruct (k <? 0); [discriminate|].
  destruct (Forall_lookup_1 _ _ _ _ Hl Hk) as [_ Hs]. split; [reflexivity|exact Hs].
Qed.

Lemma atRest_put (l : list ArrayBar) k x :
  Forall atRest l -> atRest x -> Forall atRest (put l k x).
Proof. intros Hl Hx. now apply Forall_insert. Qed.

Lemma atRest_overwrite (l : list ArrayBar) k u x :
  Forall atRest l -> atRest x -> Forall atRest (put (put l k u) k x).
Proof.
  intros Hl Hx. unfold put. rewrite list_insert_insert_eq. now apply Forall_insert.
Qed.

Lemma atRest_slice (l : list ArrayBar) a b : Forall atRest l -> Forall atRest (slice l a b).
Proof. intros Hl. unfold slice. now apply Forall_take, Forall_drop. Qed.

Lemma mergeLoop_rest speed sound L R n1 n2 fuel :
  Forall atRest L -> Forall atRest R ->
  forall i j k st,
    Forall atRest (workingArray st) ->
    post (mergeLoop speed sound fuel false L R n1 n2 i j k) st
         (fun _ st' => Forall atRest (workingArray st')).
Proof.
  intros HL HR. induction fuel as [|f IH]; intros i j k st Hst; cbn [mergeLoop];
    destruct ((i <? n1) && (j <? n2)); try apply post_throw; try (apply post_ret; exact Hst).
  run_steps.
  all: apply IH; cbn [workingArray]; apply atRest_overwrite; try exact Hst;
    solve [eapply (atRest_cell L); eassumption | eapply (atRest_cell R); eassumption].
Qed.

Lemma drain_rest speed X i n k st :
  Forall atRest X -> Forall atRest (workingArray st) ->
  post (forRange i n (drainStep speed false X) k) st
       (fun _ st' => Forall atRest (workingArray st')).
Proof.
  intros HX Hst. unfold forRange.
  apply (post_forUp (fun (_ : Z) (_ : Z) st' => Forall atRest (workingArray st')));
    [exact Hst|].
  intros j k1 st1 _ H1. unfold drainStep. run_steps. cbn [workingArray].
  apply atRest_put; [exact H1|]. eapply (atRest_cell X); eassumption.
Qed.

Lemma merge_rest speed sound left mid right st :
  Forall atRest (workingArray st) ->
  post (merge speed sound false left mid right) st
       (fun _ st' => Forall atRest (workingArray st')).
Proof.
  intros Hst. unfold merge. run_steps.
  eapply post_mono; [apply mergeLoop_rest; try apply atRest_slice; exact Hst|].
  cbn beta. intros ijk st1 H1.
  apply post_bind. eapply post_mono; [apply drain_rest; [apply atRest_slice; exact Hst|exact H1]|].
  cbn beta. intros k2 st2 H2.
  apply post_bind. eapply post_mono; [apply drain_rest; [apply atRest_slice; exact Hst|exact H2]|].
  cbn beta. intros k3 st3 H3. run_steps. exact H3.
Qed.

Lemma mergeSortHelper_rest speed sound fuel :
  forall left right st,
    Forall atRest (workingArray st) ->
    post (mergeSortHelper speed sound fuel false left right) st
         (fun _ st' => Forall atRest (workingArray st')).
Proof.
  induction fuel as [|f IH]; intros left right st Hst; cbn [mergeSortHelper];
    destruct (left <? right); try apply post_throw; try (apply post_ret; exact Hst).
  cbn zeta. apply post_bind. eapply post_mono; [apply IH, Hst|]. cbn beta. intros [] st1 H1.
  apply post_bind. eapply post_mono; [apply IH, H1|]. cbn beta. intros [] st2 H2.
  apply merge_rest, H2.
Qed.

Lemma mergeBody_flags speed sound elapsed st :
  Forall atRest (workingArray st) ->
  post (mergeBody speed sound elapsed false) st
       (fun _ st' =>
          Forall (fun a => atRest a /\ isSorted a = true) (workingArray st')).
Proof.
  intros Hst. unfold mergeBody. run_steps.
  eapply post_mono; [apply mergeSortHelper_rest, Hst|]. cbn beta. intros [] st1 H1.
  run_steps. cbn [workingArray]. change (map ?f ?l) with (f <$> l).
  apply Forall_fmap. eapply Forall_impl; [exact H1|]. intros a [Hc Hs]. cbn. repeat split; assumption.
Qed.

(** ** The colours at the end *)

Lemma painted_sorted (l : list ArrayBar) :
  Forall atRest l ->
  (forall k, 0 <= k < len l -> flagAt isSorted l k = true) ->
  Forall (fun a => barColor a = "#4CAF50"%string) l.
Proof.
  intros Hrest HD. apply Forall_lookup. intros m a Hm.
  destruct (Forall_lookup_1 _ _ _ _ Hrest Hm) as [Hc Hs].
  assert (Hg : get l (Z.of_nat m) = Some a).
  { unfold get. destruct (Z.ltb_spec (Z.of_nat m) 0); [lia|]. now rewrite Nat2Z.id. }
  pose proof (HD _ (get_Some_inside _ _ _ Hg)) as Hd.
  rewrite (flagAt_get _ _ _ _ Hg) in Hd. unfold barColor. now rewrite Hc, Hs, Hd.
Qed.

(** X10. The picture at the end of an interactive run on a non-empty array
    of bars that are neither being compared nor being swapped.  Bubble sort,
    merge sort and heap sort leave every bar green ([#4CAF50], sorted).
    Quick sort leaves every bar green or gold ([#FFD700], being compared):
    every bar is marked sorted and none swapping, but [isComparing] may
    stay set. *)
Theorem interactive_run_ends_painted speed soundEnabled elapsed arr stats :
  arr <> [] -> Forall atRest arr ->
  (exists st, bubbleSort speed soundEnabled elapsed arr stats false = Ok st /\
              Forall (fun a => barColor a = "#4CAF50"%string) (workingArray st)) /\
  (exists st, mergeSort speed soundEnabled elapsed arr stats false = Ok st /\
              Forall (fun a => barColor a = "#4CAF50"%string) (workingArray st)) /\
  (exists st, heapSort speed soundEnabled elapsed arr stats false = Ok st /\
              Forall (fun a => barColor a = "#4CAF50"%string) (workingArray st)) /\
  (exists st, quickSort speed soundEnabled elapsed arr stats false = Ok st /\
              Forall (fun a => barColor a = "#4CAF50"%string \/
                               barColor a = "#FFD700"%string) (workingArray st)).
Proof.
  intros Hne Hrest. split; [|split; [|split]].
  - destruct (bubbleSort_sorts speed soundEnabled elapsed arr stats false) as (st & E & _);
      [auto|].
    exists st. split; [exact E|].
    destruct (run_post _ _ _ _ _ (bubbleBody_flags speed soundEnabled elapsed _) E)
      as (Hlen & HC & HS & HD). cbn [workingArray] in *.
    apply painted_sorted; [eapply noNewFlag_atRest; eassumption|].
    intros k Hk. apply HD. lia.
  - destruct (mergeSort_sorts speed soundEnabled elapsed arr stats false) as (st & E & _).
    exists st. split; [exact E|].
    pose proof (run_post _ _ _ _ _ (mergeBody_flags speed soundEnabled elapsed (mkState arr stats 0 0 0) Hrest) E) as H.
    cbv beta in H. eapply Forall_impl; [exact H|].
    intros a [[Hc Hs] Hd]. unfold barColor. now rewrite Hc, Hs, Hd.
  - destruct (heapSort_sorts speed soundEnabled elapsed arr stats false) as (st & E & _);
      [auto|].
    exists st. split; [exact E|].
    destruct (run_post _ _ _ _ _ (heapBody_flags speed soundEnabled elapsed (mkState arr stats 0 0 0) Hrest) E)
      as (Hlen & Hr & HD). cbn [workingArray] in *.
    apply painted_sorted; [exact Hr|]. intros k Hk. apply HD. lia.
  - destruct (quickSort_sorts speed soundEnabled elapsed arr stats false) as (st & E & _).
    exists st. split; [exact E|].
    pose proof (run_post _ _ _ _ _ (quickBody_flags speed soundEnabled elapsed (mkState arr stats 0 0 0) Hrest) E) as H.
    cbv beta in H. eapply Forall_impl; [exact H|].
    intros a [Hd Hs]. unfold barColor. rewrite Hs, Hd. destruct (isComparing a); auto.
Qed.

Lemma interactive_run_ends_painted_witness :
  exists st, bubbleSort 50 true 0 (map bar [3; 1; 2]) stats0 false = Ok st /\
             Forall (fun a => barColor a = "#4CAF50"%string) (workingArray st).
Proof.
  apply (interactive_run_ends_painted 50 true 0%nat (map bar [3; 1; 2]) stats0).
  - discriminate.
  - repeat constructor.
Defined.

Ltac order_clash :=
  try (exfalso;
       match goal with
       | H : (_ <? _) = true |- _ => apply Z.ltb_lt in H; lia
       | H : (_ <? _) = false |- _ => apply Z.ltb_ge in H; lia
       | H : _ = true |- _ => vm_compute in H; discriminate H
       | H : _ = false |- _ => vm_compute in H; discriminate H
       end).

Lemma quick_triple speed sound x y z st :
  workingArray st = [bar x; bar y; bar z] -> y < z <= x ->
  post (quickSortHelper speed sound 3 false 0 2) st
       (fun _ st' => workingArray st' = [mkBar y true false false; bar z; bar x]).
Proof.
  intros Hwa Hv. cbn [quickSortHelper]. change (0 <? 2) with true. cbn iota.
  unfold partition. run_steps. rewrite Hwa in *. known_cells.
  unfold forRange. change (Z.to_nat (2 - 0)) with 2%nat. cbn [forUp].
  unfold partitionStep. run_steps.
  all: cbn [workingArray currentStats comparisons swaps timeElapsed] in *.
  all: rewrite ?Hwa in *.
  all: known_cells.
  all: cbn [value bar] in *.
  all: order_clash.
  all: try (exfalso;
            match goal with
            | H : get _ _ = None |- _ => vm_compute in H; discriminate H
            end).
  all: vm_compute; reflexivity.
Qed.

(** X11. Quick sort leaves a bar marked as compared.  On three new bars of
    values [x], [y], [z] with [y < z <= x], the interactive run returns the
    values in the order [y], [z], [x] with the first bar gold and the other
    two green: the bar exchanged to index [i] keeps the [isComparing] that
    was set at index [j], and [workingArray[j].isComparing = false] resets
    the bar that took its place. *)
Theorem quick_sort_keeps_a_compared_mark speed soundEnabled elapsed stats x y z :
  y < z <= x ->
  exists st,
    quickSort speed soundEnabled elapsed (map bar [x; y; z]) stats false = Ok st /\
    values (workingArray st) = [y; z; x] /\
    barColor <$> workingArray st = ["#FFD700"; "#4CAF50"; "#4CAF50"]%string.
Proof.
  intros Hv.
  destruct (quickSort_sorts speed soundEnabled elapsed (map bar [x; y; z]) stats false)
    as (st & E & _).
  exists st. split; [exact E|].
  assert (H : workingArray st =
              [mkBar y true true false; mkBar z false true false; mkBar x false true false]).
  { pattern st. eapply run_post; [|exact E]. unfold quickBody. run_steps.
    eapply post_mono; [apply (quick_triple _ _ x y z); [reflexivity|exact Hv]|].
    cbn beta. intros [] st1 H1. run_steps. cbn [workingArray]. rewrite H1. reflexivity. }
  rewrite H. split; reflexivity.
Qed.

Lemma quick_sort_keeps_a_compared_mark_witness :
  exists st,
    quickSort 50 true 0 (map bar [3; 1; 2]) stats0 false = Ok st /\
    values (workingArray st) = [1; 2; 3] /\
    barColor <$> workingArray st = ["#FFD700"; "#4CAF50"; "#4CAF50"]%string.
Proof. apply (quick_sort_keeps_a_compared_mark 50 true 0%nat stats0 3 1 2). lia. Defined.
